(** * iputils: a radix tree of IP prefixes (ipset.go)

    A shallow embedding of [IPSet]: the nodes live in a heap of records
    addressed by (block, slot) pairs, the tree is linked through [left],
    [right] and [parent] pointers, released nodes are chained through
    [right] on a free list and fresh ones are carved from a pool block.
    Every function of the source is a function on that state; a nil
    dereference or an index out of range is a [Fault]. *)

From Stdlib Require Import ZArith Lia.
From stdpp Require Import gmap list.

Set Default Proof Using "Type".

(** ** Outcomes: a Go call returns, or panics *)

Inductive fault := NilDeref | IndexOutOfRange | Dangling | OutOfFuel.

Inductive outcome (A : Type) :=
| Ret (a : A)
| Fault (f : fault).
Arguments Ret {A} a.
Arguments Fault {A} f.

Definition obind {A B} (o : outcome A) (k : A → outcome B) : outcome B :=
  match o with
  | Ret a => k a
  | Fault f => Fault f
  end.

Notation "'let*' x ':=' e 'in' k" := (obind e (fun x => k))
  (at level 10, x name, e at level 200, k at level 200, only parsing).
Notation "'let*' ( x , y ) ':=' e 'in' k" :=
  (obind e (fun xy => let '(x, y) := xy in k))
  (at level 10, x name, y name, e at level 200, k at level 200, only parsing).

(** The three error values of the package; [None] is Go's nil error. *)
Inductive error := ErrNodeBusy | ErrNotFound | ErrBadIP.

(** A pointer to a node: a slot of a pool block, or nil. *)
Abbreviation loc := (nat * nat)%type (only parsing).

(** net.IP and net.IPMask are byte slices. *)
Abbreviation bytes := (list Z) (only parsing).

Record IPNet := mkIPNet { IP : bytes; Mask : bytes }.

Definition START_BYTE : Z := 128.

(** [net.CIDRMask(8*net.IPv4len, 8*net.IPv4len)] and its IPv6 sibling. *)
Definition IPv4len : nat := 4.
Definition IPv6len : nat := 16.
Definition MASK_32 : bytes := replicate IPv4len 255%Z.
Definition MASK_128 : bytes := replicate IPv6len 255%Z.

(** [unsafe.Sizeof(node{})] on a 64-bit target: three pointers and a
    two-word interface value. *)
Definition node_size : nat := 40.
Definition ALLOC_LEN : nat := 4096 / node_size.

(** [x[i]] on a slice, with Go's bounds check. *)
Definition index (x : bytes) (i : nat) : outcome Z :=
  match x !! i with
  | Some b => Ret b
  | None => Fault IndexOutOfRange
  end.

(** [b & bitmap != 0] *)
Definition bit_set (b bitmap : Z) : bool := negb (Z.land b bitmap =? 0)%Z.

Section ipset.
Context {V : Type}.

(** ** Data model *)

Record node := mkNode {
  left : option loc;
  right : option loc;
  parent : option loc;
  value : option V
}.

Definition zero_node : node := mkNode None None None None.

Definition with_left (n : node) (p : option loc) : node :=
  mkNode p (right n) (parent n) (value n).
Definition with_right (n : node) (p : option loc) : node :=
  mkNode (left n) p (parent n) (value n).
Definition with_parent (n : node) (p : option loc) : node :=
  mkNode (left n) (right n) p (value n).
Definition with_value (n : node) (v : option V) : node :=
  mkNode (left n) (right n) (parent n) v.

(** A slice of nodes: its backing block, length and capacity. *)
Record slice := mkSlice { blk : nat; len : nat; cap : nat }.

(** The set together with the heap its pointers refer to. *)
Record IPSet := mkSet {
  root : option loc;
  free : option loc;
  pool : slice;
  heap : gmap loc node
}.

Definition set_heap (s : IPSet) (h : gmap loc node) : IPSet :=
  mkSet (root s) (free s) (pool s) h.

(** [*p] *)
Definition load (h : gmap loc node) (p : option loc) : outcome node :=
  match p with
  | None => Fault NilDeref
  | Some l =>
    match h !! l with
    | Some n => Ret n
    | None => Fault Dangling
    end
  end.

(** [p.field = x], as a function on the heap *)
Definition store (h : gmap loc node) (p : option loc) (f : node → node)
  : outcome (gmap loc node) :=
  match p with
  | None => Fault NilDeref
  | Some l =>
    match h !! l with
    | Some n => Ret (<[l := f n]> h)
    | None => Fault Dangling
    end
  end.

(** [make([]node, n)] at block [b]: [n] zeroed nodes. *)
Definition alloc_block (b n : nat) (h : gmap loc node) : gmap loc node :=
  foldr (λ i h, <[(b, i) := zero_node]> h) h (seq 0 n).

(** ** newNode *)

Definition newNode (s : IPSet) : outcome (loc * IPSet) :=
  match free s with
  | Some p =>
    let* n := load (heap s) (Some p) in
    let s1 := mkSet (root s) (right n) (pool s) (heap s) in
    let* h := store (heap s1) (Some p) (λ n, with_right n None) in
    let* h := store h (Some p) (λ n, with_parent n None) in
    let* h := store h (Some p) (λ n, with_left n None) in
    let* h := store h (Some p) (λ n, with_value n None) in
    Ret (p, set_heap s1 h)
  | None =>
    let size := len (pool s) in
    if size =? cap (pool s) then
      let b := S (blk (pool s)) in
      Ret ((b, 0),
           mkSet (root s) (free s) (mkSlice b 1 ALLOC_LEN)
                 (alloc_block b ALLOC_LEN (heap s)))
    else
      Ret ((blk (pool s), size),
           mkSet (root s) (free s)
                 (mkSlice (blk (pool s)) (size + 1) (cap (pool s))) (heap s))
  end.

Definition NewSet : outcome IPSet :=
  let set := mkSet None None (mkSlice 0 0 0) ∅ in
  let* (p, set) := newNode set in
  Ret (mkSet (Some p) (free set) (pool set) (heap set)).

(** ** insert *)

(** The first loop: follow the existing path while the mask has bits. *)
Fixpoint insert_descend (fuel : nat) (h : gmap loc node) (key mask : bytes)
    (i : nat) (bitmap : Z) (node next : option loc)
  : outcome (nat * Z * option loc * option loc) :=
  match fuel with
  | 0 => Fault OutOfFuel
  | S fuel =>
    let* m := index mask i in
    if bit_set m bitmap then
      let* k := index key i in
      let* n := load h node in
      let next := if bit_set k bitmap then right n else left n in
      match next with
      | None => Ret (i, bitmap, node, next)
      | Some _ =>
        let node := next in
        let bitmap := Z.shiftr bitmap 1 in
        if (bitmap =? 0)%Z then
          let i := i + 1 in
          if i =? length key then Ret (i, bitmap, node, next)
          else insert_descend fuel h key mask i START_BYTE node next
        else insert_descend fuel h key mask i bitmap node next
      end
    else Ret (i, bitmap, node, next)
  end.

(** The second loop: create the missing nodes of the path. *)
Fixpoint insert_extend (fuel : nat) (s : IPSet) (key mask : bytes)
    (i : nat) (bitmap : Z) (node : option loc)
  : outcome (IPSet * option loc) :=
  match fuel with
  | 0 => Fault OutOfFuel
  | S fuel =>
    let* m := index mask i in
    if bit_set m bitmap then
      let* (p, s) := newNode s in
      let next := Some p in
      let* h := store (heap s) next (λ n, with_parent n node) in
      let* k := index key i in
      let* h :=
        if bit_set k bitmap then store h node (λ n, with_right n next)
        else store h node (λ n, with_left n next) in
      let s := set_heap s h in
      let node := next in
      let bitmap := Z.shiftr bitmap 1 in
      if (bitmap =? 0)%Z then
        let i := i + 1 in
        if i =? length key then Ret (s, node)
        else insert_extend fuel s key mask i START_BYTE node
      else insert_extend fuel s key mask i bitmap node
    else Ret (s, node)
  end.

Definition insert (s : IPSet) (key mask : bytes) (val : option V)
    (overwrite : bool) : outcome (option error * IPSet) :=
  if negb (length key =? length mask) then Ret (Some ErrBadIP, s)
  else
    let fuel := S (8 * length key) in
    let* r :=
      insert_descend fuel (heap s) key mask 0 START_BYTE (root s) (root s) in
    let '(i, bitmap, node, next) := r in
    match next with
    | Some _ =>
      let* n := load (heap s) node in
      if bool_decide (value n ≠ None) && negb overwrite
      then Ret (Some ErrNodeBusy, s)
      else
        let* h := store (heap s) node (λ n, with_value n val) in
        Ret (None, set_heap s h)
    | None =>
      let* (s, node) := insert_extend fuel s key mask i bitmap node in
      let* h := store (heap s) node (λ n, with_value n val) in
      Ret (None, set_heap s h)
    end.

(** ** delete *)

(** The descent: follow the path while the mask has bits and nodes exist. *)
Fixpoint delete_descend (fuel : nat) (h : gmap loc node) (key mask : bytes)
    (i : nat) (bitmap : Z) (node : option loc) : outcome (option loc) :=
  match fuel with
  | 0 => Fault OutOfFuel
  | S fuel =>
    match node with
    | None => Ret node
    | Some _ =>
      let* m := index mask i in
      if bit_set m bitmap then
        let* k := index key i in
        let* n := load h node in
        let node := if bit_set k bitmap then right n else left n in
        let bitmap := Z.shiftr bitmap 1 in
        if (bitmap =? 0)%Z then
          let i := i + 1 in
          if i =? length key then Ret node
          else delete_descend fuel h key mask i START_BYTE node
        else delete_descend fuel h key mask i bitmap node
      else Ret node
    end
  end.

(** The "trim leaf" loop: unlink the node, push it on the free list, and
    climb while the parent is left with no child, no value and a parent
    of its own. *)
Fixpoint delete_trim (fuel : nat) (s : IPSet) (node : option loc)
  : outcome IPSet :=
  match fuel with
  | 0 => Fault OutOfFuel
  | S fuel =>
    let* n := load (heap s) node in
    let* pn := load (heap s) (parent n) in
    let* h :=
      if bool_decide (right pn = node)
      then store (heap s) (parent n) (λ x, with_right x None)
      else store (heap s) (parent n) (λ x, with_left x None) in
    let* h := store h node (λ x, with_right x (free s)) in
    let s := mkSet (root s) node (pool s) h in
    let* n := load (heap s) node in
    let node := parent n in
    let* n := load (heap s) node in
    if bool_decide (right n ≠ None) || bool_decide (left n ≠ None)
       || bool_decide (value n ≠ None)
    then Ret s
    else if bool_decide (parent n = None) then Ret s
    else delete_trim fuel s node
  end.

Definition delete (s : IPSet) (key mask : bytes) (sub : bool)
  : outcome (option error * IPSet) :=
  if negb (length key =? length mask) then Ret (Some ErrBadIP, s)
  else
    let fuel := S (8 * length key) in
    let* node :=
      delete_descend fuel (heap s) key mask 0 START_BYTE (root s) in
    match node with
    | None => Ret (Some ErrNotFound, s)
    | Some _ =>
      let* n := load (heap s) node in
      if negb sub && (bool_decide (right n ≠ None)
                      || bool_decide (left n ≠ None))
      then
        if bool_decide (value n ≠ None) then
          let* h := store (heap s) node (λ x, with_value x None) in
          Ret (None, set_heap s h)
        else Ret (Some ErrNotFound, s)
      else
        let* s := delete_trim fuel s node in
        Ret (None, s)
    end.

(** ** find *)

Fixpoint find_loop (fuel : nat) (h : gmap loc node) (key mask : bytes)
    (i : nat) (bitmap : Z) (node : option loc) (val : option V)
  : outcome (option V) :=
  match fuel with
  | 0 => Fault OutOfFuel
  | S fuel =>
    match node with
    | None => Ret val
    | Some _ =>
      let* n := load h node in
      let val := if bool_decide (value n ≠ None) then value n else val in
      let* k := index key i in
      let node := if bit_set k bitmap then right n else left n in
      let* m := index mask i in
      if negb (bit_set m bitmap) then Ret val
      else
        let bitmap := Z.shiftr bitmap 1 in
        if (bitmap =? 0)%Z then
          let i := i + 1 in
          if length key <=? i then
            match node with
            | Some _ => let* n := load h node in Ret (value n)
            | None => Ret val
            end
          else find_loop fuel h key mask i START_BYTE node val
        else find_loop fuel h key mask i bitmap node val
    end
  end.

Definition find (s : IPSet) (key mask : bytes)
  : outcome (option V * option error) :=
  if negb (length key =? length mask) then Ret (None, Some ErrBadIP)
  else
    let* v := find_loop (S (8 * length key)) (heap s) key mask 0 START_BYTE
                        (root s) None in
    Ret (v, None).

(** ** The public methods *)

Definition Add (s : IPSet) (cidr : IPNet) (val : option V) :=
  insert s (IP cidr) (Mask cidr) val false.

Definition Set_ (s : IPSet) (cidr : IPNet) (val : option V) :=
  insert s (IP cidr) (Mask cidr) val true.

Definition Sub (s : IPSet) (cidr : IPNet) := delete s (IP cidr) (Mask cidr) true.

Definition Remove (s : IPSet) (cidr : IPNet) :=
  delete s (IP cidr) (Mask cidr) false.

Definition Get (s : IPSet) (cidr : IPNet) := find s (IP cidr) (Mask cidr).

Definition GetByIP (s : IPSet) (ip : bytes) :=
  if length ip =? IPv4len then find s ip MASK_32 else find s ip MASK_128.

End ipset.

Arguments node : clear implicits.
Arguments IPSet : clear implicits.
Global Arguments alloc_block : simpl never.
Global Opaque ALLOC_LEN.

(** ** The bit convention

    Bit [d] of a byte slice is bit [7 - d mod 8] of byte [d / 8]: most
    significant bit first.  The loops of the source keep the pair
    ([i], [bitmap]) for it. *)

(** Bit [d] of a byte slice; false past its end. *)
Definition getbit (x : bytes) (d : nat) : bool :=
  match x !! (d / 8) with
  | Some b => Z.testbit b (Z.of_nat (7 - d mod 8))
  | None => false
  end.

(** The value of [bitmap] when a loop is at bit [d]. *)
Definition cursor_bitmap (d : nat) : Z := (2 ^ Z.of_nat (7 - d mod 8))%Z.

(** The bits of [key] that a walk consumes from bit [d] on, at most [n] of
    them: it stops at the first bit the mask does not have. *)
Fixpoint path_from (key mask : bytes) (d n : nat) : list bool :=
  match n with
  | 0 => []
  | S n =>
    if getbit mask d then getbit key d :: path_from key mask (S d) n else []
  end.

(** The prefix that ([key], [mask]) designates. *)
Definition pbits (key mask : bytes) : list bool :=
  path_from key mask 0 (8 * length key).

(** All the bits of an address. *)
Definition addr_bits (ip : bytes) : list bool :=
  map (getbit ip) (seq 0 (8 * length ip)).

Global Arguments cursor_bitmap : simpl never.
Global Arguments getbit : simpl never.

(** ** Paths, views and sequences of operations

    The definitions the properties are stated with. *)

Section structure.
Context {V : Type}.
Implicit Types (h : gmap loc (node V)) (s : IPSet V).
Implicit Types (p : option loc) (l : loc) (q x : list bool) (fl : list loc).

(** The child a bit selects: 0 is left, 1 is right. *)
Definition child (b : bool) (n : node V) : option loc :=
  if b then right n else left n.

Definition set_child (b : bool) (c : option loc) (n : node V) : node V :=
  if b then with_right n c else with_left n c.

(** [node_at h p bs] is the node reached from [p] by the left/right
    choices [bs]; [tree_at s q] starts from the root. *)
Definition step h p (b : bool) : option loc :=
  match p with
  | Some l =>
    match h !! l with
    | Some n => child b n
    | None => None
    end
  | None => None
  end.

Definition node_at h p (bs : list bool) : option loc := foldl (step h) p bs.

Definition tree_at s q : option loc := node_at (heap s) (root s) q.

(** What the tree holds at a path: no node, a node without a value, or a
    node with a value. *)
Definition view s q : option (option V) :=
  match tree_at s q with
  | Some l => value <$> heap s !! l
  | None => None
  end.

(** The free list: the chain of [right] links from [free]. *)
Fixpoint flist h p fl : Prop :=
  match fl with
  | [] => p = None
  | l :: fl => p = Some l ∧ ∃ n, h !! l = Some n ∧ flist h (right n) fl
  end.

(** The structural invariant: the nodes on the paths from the root form a
    tree with consistent parent links (I1), the free list [fl] is a chain
    of distinct allocated nodes outside the tree, and the slots of the
    pool block past its length are zeroed and referenced by nothing. *)
Record wf s fl : Prop := mkWf {
  wf_root : ∃ r n, root s = Some r ∧ heap s !! r = Some n ∧ parent n = None;
  wf_closed : ∀ q l, tree_at s q = Some l → is_Some (heap s !! l);
  wf_inj : ∀ q q' l, tree_at s q = Some l → tree_at s q' = Some l → q = q';
  wf_parent : ∀ q b l n,
    tree_at s (q ++ [b]) = Some l → heap s !! l = Some n →
    parent n = tree_at s q;
  wf_free : flist (heap s) (free s) fl;
  wf_free_nodup : NoDup fl;
  wf_free_tree : ∀ l q, l ∈ fl → tree_at s q ≠ Some l;
  wf_pool_le : len (pool s) ≤ cap (pool s);
  wf_pool_zero : ∀ i,
    len (pool s) ≤ i < cap (pool s) →
    heap s !! (blk (pool s), i) = Some zero_node;
  wf_pool_free : ∀ i,
    len (pool s) ≤ i < cap (pool s) → (blk (pool s), i) ∉ fl;
  wf_pool_tree : ∀ i q,
    len (pool s) ≤ i < cap (pool s) → tree_at s q ≠ Some (blk (pool s), i);
  wf_blocks : ∀ b i, is_Some (heap s !! (b, i)) → b ≤ blk (pool s)
}.

(** A node that is allocated but in no structure: what [newNode] returns. *)
Record detached s fl l : Prop := mkDetached {
  det_zero : heap s !! l = Some zero_node;
  det_free : l ∉ fl;
  det_tree : ∀ q, tree_at s q ≠ Some l;
  det_pool : ∀ i, len (pool s) ≤ i < cap (pool s) → l ≠ (blk (pool s), i)
}.

(** What [newNode] relies on: the slice is within its capacity, the slots
    of the pool block past its length are as [make] left them, and the
    head of the free list is an allocated node. *)
Definition arena_ok s : Prop :=
  len (pool s) ≤ cap (pool s) ∧
  (∀ i, len (pool s) ≤ i < cap (pool s) →
        heap s !! (blk (pool s), i) = Some zero_node) ∧
  (∀ l, free s = Some l → is_Some (heap s !! l)).

(** A node that insertion passes through exists afterwards; if it was not
    there it has no value. *)
Definition touch (o : option (option V)) : option (option V) :=
  Some (default None o).

(** The best match along a path: the value of the deepest node that has
    one, [best] if none has. *)
Definition pick (o : option (option V)) (best : option V) : option V :=
  match o with
  | Some (Some a) => Some a
  | _ => best
  end.

Fixpoint lpm_from (v : list bool → option (option V)) (q rest : list bool)
    (best : option V) : option V :=
  match rest with
  | [] => pick (v q) best
  | b :: rest => lpm_from v (q ++ [b]) rest (pick (v q) best)
  end.

(** A node without a value. *)
Definition is_blank (o : option (option V)) : bool :=
  match o with
  | Some None => true
  | _ => false
  end.

(** The longest match on a path. *)
Definition lpm (v : list bool → option (option V)) (P : list bool) : option V :=
  lpm_from v [] P None.

(** No node below [q]. *)
Definition childless (v : list bool → option (option V)) q : Prop :=
  ∀ b : bool, v (q ++ [b]) = None.

(** The prefix holds a value and the insertion may not overwrite it. *)
Definition busy s (key mask : bytes) (overwrite : bool) : Prop :=
  overwrite = false ∧ ∃ a, view s (pbits key mask) = Some (Some a).

(** The three ways an operation changes the view: a successful insertion
    at [P], the clearing of the value at [P], and the removal of the
    subtree at [c]. *)
Definition vinsert (P : list bool) (ov : option V)
    (v : list bool → option (option V)) : list bool → option (option V) :=
  λ x, if decide (x = P) then Some ov
       else if decide (x `prefix_of` P) then touch (v x) else v x.

Definition vclear (P : list bool)
    (v : list bool → option (option V)) : list bool → option (option V) :=
  λ x, if decide (x = P) then Some None else v x.

Definition vcut (c : list bool)
    (v : list bool → option (option V)) : list bool → option (option V) :=
  λ x, if decide (c `prefix_of` x) then None else v x.

(** After a cut at [c0 ++ [bc]] the node [c0] was kept for a reason. *)
Definition kept (v : list bool → option (option V)) (c : list bool) : Prop :=
  ∀ c0 bc, c = c0 ++ [bc] →
    c0 = [] ∨ (∃ a, v c0 = Some (Some a)) ∨ ¬ childless v c0.

(** The calls of the public mutating methods. *)
Inductive op :=
| OpAdd (c : IPNet) (val : option V)
| OpSet (c : IPNet) (val : option V)
| OpRemove (c : IPNet)
| OpSub (c : IPNet).

Definition exec (o : op) s : outcome (option error * IPSet V) :=
  match o with
  | OpAdd c val => Add s c val
  | OpSet c val => Set_ s c val
  | OpRemove c => Remove s c
  | OpSub c => Sub s c
  end.

(** The operations in turn; the error an operation reports is dropped, a
    panic ends the run. *)
Fixpoint run (ops : list op) s : outcome (IPSet V) :=
  match ops with
  | [] => Ret s
  | o :: ops => let* (e, s') := exec o s in run ops s'
  end.

(** The operations on a new set, and the states they can reach. *)
Definition run_new (ops : list op) : outcome (IPSet V) :=
  let* s := NewSet in run ops s.

Definition reachable s : Prop := ∃ ops, run_new ops = Ret s.

(** The prefix an Add or Set registers. *)
Definition op_prefix (o : op) : option (list bool) :=
  match o with
  | OpAdd c _ | OpSet c _ =>
    if decide (length (IP c) = length (Mask c))
    then Some (pbits (IP c) (Mask c)) else None
  | _ => None
  end.

(** The prefix [q] was inserted by one of [ops]. *)
Definition inserted (ops : list op) q : Prop :=
  ∃ o, o ∈ ops ∧ op_prefix o = Some q.

(** The payload of an Add or Set is not nil. *)
Definition payload_present (o : op) : Prop :=
  match o with
  | OpAdd _ None | OpSet _ None => False
  | _ => True
  end.

(** I2 on views: a node below the root without a value has a child. *)
Definition I2 (v : list bool → option (option V)) : Prop :=
  ∀ q, q ≠ [] → v q = Some None → ¬ childless v q.

(** A node with a value, or a leaf below the root, is at an inserted prefix. *)
Definition J (v : list bool → option (option V)) (hist : list op) : Prop :=
  ∀ q o, q ≠ [] → v q = Some o → o ≠ None ∨ childless v q → inserted hist q.

(** An Add or Set of an address of [L] bytes with a payload that is not nil. *)
Definition insert_op (L : nat) (o : op) : Prop :=
  match o with
  | OpAdd c (Some _) | OpSet c (Some _) => length (IP c) = L
  | _ => False
  end.

(** The dictionary of stored prefixes that the specification describes:
    Add registers the value of a prefix that holds none, Set registers it
    in any case, and a call whose address and mask differ in length
    registers nothing. *)
Definition stored_step (M : gmap (list bool) V) (o : op)
  : gmap (list bool) V :=
  match o with
  | OpAdd c (Some a) =>
    if decide (length (IP c) = length (Mask c)) then
      match M !! pbits (IP c) (Mask c) with
      | Some _ => M
      | None => <[pbits (IP c) (Mask c) := a]> M
      end
    else M
  | OpSet c (Some a) =>
    if decide (length (IP c) = length (Mask c))
    then <[pbits (IP c) (Mask c) := a]> M else M
  | _ => M
  end.

Definition stored (ops : list op) : gmap (list bool) V :=
  foldl stored_step ∅ ops.

(** [r] is the value of the longest prefix of [P] that [M] stores, or none
    when [M] stores no prefix of [P]. *)
Definition longest_match (M : gmap (list bool) V) (P : list bool)
    (r : option V) : Prop :=
  match r with
  | Some a =>
    ∃ q, M !! q = Some a ∧ q `prefix_of` P ∧
      ∀ q' a', M !! q' = Some a' → q' `prefix_of` P → length q' ≤ length q
  | None => ∀ q a, M !! q = Some a → ¬ q `prefix_of` P
  end.

(** The view agrees with a dictionary, and is no deeper than [D] bits. *)
Definition agrees (v : list bool → option (option V))
    (M : gmap (list bool) V) : Prop :=
  ∀ q, pick (v q) None = M !! q.

Definition bounded (v : list bool → option (option V)) (D : nat) : Prop :=
  ∀ q, v q ≠ None → length q ≤ D.

End structure.

Arguments op : clear implicits.
Arguments insert_op {V} L o.
Arguments stored {V} ops.
Arguments longest_match {V} M P r.

(** ** Entries, dictionaries and the arena

    The definitions of the further properties: the entries of a set, the
    dictionary that a sequence of calls describes, the calls that cannot
    panic, and the nodes that the arena no longer reaches. *)

Section coverage.
Context {V : Type}.
Implicit Types (s : IPSet V) (q x : list bool) (fl : list loc).

(** The value the set holds for a prefix: the value field of the node at
    the end of its path, if the tree has that node. *)
Definition entry s q : option V :=
  tree_at s q ≫= λ l, heap s !! l ≫= value.

(** The prefix a call is about. *)
Definition op_net (o : op V) : IPNet :=
  match o with
  | OpAdd c _ | OpSet c _ | OpRemove c | OpSub c => c
  end.

(** The address of a call has [L] bytes. *)
Definition op_len (L : nat) (o : op V) : Prop :=
  match o with
  | OpAdd c _ | OpSet c _ | OpRemove c | OpSub c => length (IP c) = L
  end.

(** The four mutating methods as operations on a dictionary from prefixes
    to values.  A call whose address and mask differ in length changes
    nothing; a nil payload stores nothing, and clears the entry when the
    call is a Set. *)
Definition dict_step (M : gmap (list bool) V) (o : op V)
  : gmap (list bool) V :=
  match o with
  | OpAdd c val =>
    if decide (length (IP c) = length (Mask c)) then
      match M !! pbits (IP c) (Mask c), val with
      | None, Some a => <[pbits (IP c) (Mask c) := a]> M
      | _, _ => M
      end
    else M
  | OpSet c val =>
    if decide (length (IP c) = length (Mask c)) then
      match val with
      | Some a => <[pbits (IP c) (Mask c) := a]> M
      | None => base.delete (pbits (IP c) (Mask c)) M
      end
    else M
  | OpRemove c =>
    if decide (length (IP c) = length (Mask c))
    then base.delete (pbits (IP c) (Mask c)) M else M
  | OpSub c =>
    if decide (length (IP c) = length (Mask c))
    then filter (λ kv, ¬ pbits (IP c) (Mask c) `prefix_of` kv.1) M else M
  end.

Definition dict (ops : list (op V)) : gmap (list bool) V :=
  foldl dict_step ∅ ops.

(** A call that cannot panic: the address and the mask are not both empty
    and, for Remove and Sub, the mask has a leading one bit. *)
Definition safe_op (o : op V) : Prop :=
  match o with
  | OpAdd c _ | OpSet c _ => ¬ (IP c = [] ∧ Mask c = [])
  | OpRemove c | OpSub c =>
    ¬ (IP c = [] ∧ Mask c = []) ∧
    (length (IP c) = length (Mask c) → pbits (IP c) (Mask c) ≠ [])
  end.

(** The nodes on the path of [P] from [c] on, short of [P] itself, have no
    value and no child off the path. *)
Definition bare_path (v : list bool → option (option V)) (c P : list bool)
  : Prop :=
  ∀ x, c `prefix_of` x → x `prefix_of` P → x ≠ P →
    v x = Some None ∧
    ∀ b : bool, (x ++ [b]) `prefix_of` P ∨ v (x ++ [b]) = None.

(** A node the arena has lost: it is in no tree and on no free list, and
    it is not one of the slots the pool has yet to hand out. *)
Definition lost s fl (m : loc) : Prop :=
  (∀ q, tree_at s q ≠ Some m) ∧ (m ∉ fl) ∧ m.1 ≤ blk (pool s) ∧
  ∀ i, len (pool s) ≤ i < cap (pool s) → m ≠ (blk (pool s), i).

End coverage.

(** ** Scenarios

    The prefixes of the examples of the specification and of the inputs on
    which the code departs from it; payloads are in [nat]. *)

(** The prefixes of the examples: 10.0.0.0/8 and 10.1.0.0/16. *)
Definition net8 : IPNet := mkIPNet [10; 0; 0; 0]%Z [255; 0; 0; 0]%Z.

Definition net16 : IPNet := mkIPNet [10; 1; 0; 0]%Z [255; 255; 0; 0]%Z.

(** 0.0.0.0/0, the zero-length prefix. *)
Definition default_route : IPNet := mkIPNet [0; 0; 0; 0]%Z [0; 0; 0; 0]%Z.

(** 10.1.5.5/32 *)
Definition host32 : IPNet :=
  mkIPNet [10; 1; 5; 5]%Z [255; 255; 255; 255]%Z.

(** 0a01:0505:8000::/33, whose first 32 bits are those of 10.1.5.5 *)
Definition net33 : IPNet :=
  mkIPNet [10; 1; 5; 5; 128; 0; 0; 0; 0; 0; 0; 0; 0; 0; 0; 0]%Z
          [255; 255; 255; 255; 128; 0; 0; 0; 0; 0; 0; 0; 0; 0; 0; 0]%Z.

(** 0a00::/8, an IPv6 prefix with the bits of 10.0.0.0/8 *)
Definition net8_v6 : IPNet :=
  mkIPNet [10; 0; 0; 0; 0; 0; 0; 0; 0; 0; 0; 0; 0; 0; 0; 0]%Z
          [255; 0; 0; 0; 0; 0; 0; 0; 0; 0; 0; 0; 0; 0; 0; 0]%Z.

(** The state a sequence of operations leaves a new set in. *)
Definition state_of (ops : list (op nat)) : IPSet nat :=
  match run_new ops with
  | Ret s => s
  | Fault _ => mkSet None None (mkSlice 0 0 0) ∅
  end.

(** ** Bits and cursors

    The pair ([i], [bitmap]) of a loop at bit [d] is
    ([d / 8], [cursor_bitmap d]). *)

Lemma bit_set_pow2 b j : bit_set b (2 ^ Z.of_nat j) = Z.testbit b (Z.of_nat j).
Proof.
  unfold bit_set.
  destruct (Z.testbit b (Z.of_nat j)) eqn:Hb.
  - apply negb_true_iff, Z.eqb_neq. intros H0.
    assert (Z.testbit (Z.land b (2 ^ Z.of_nat j)) (Z.of_nat j) = true) as Ht.
    { rewrite Z.land_spec, Hb, Z.pow2_bits_true by lia. done. }
    rewrite H0, Z.bits_0 in Ht. done.
  - apply negb_false_iff, Z.eqb_eq. apply Z.bits_inj'. intros n Hn.
    rewrite Z.land_spec, Z.bits_0.
    destruct (decide (n = Z.of_nat j)) as [->|Hne].
    + by rewrite Hb.
    + rewrite Z.pow2_bits_false by lia. apply andb_false_r.
Qed.

Lemma index_getbit (x : bytes) d :
  d < 8 * length x →
  ∃ b, index x (d / 8) = Ret b ∧ bit_set b (cursor_bitmap d) = getbit x d.
Proof.
  intros Hd. unfold index, getbit, cursor_bitmap.
  assert (d / 8 < length x) as Hlt by (apply Nat.Div0.div_lt_upper_bound; lia).
  destruct (lookup_lt_is_Some_2 x (d / 8) Hlt) as [b Hb].
  exists b. rewrite Hb. split; [done|]. apply bit_set_pow2.
Qed.

Lemma cursor_shift d :
  (Z.shiftr (cursor_bitmap d) 1 =? 0)%Z = (d mod 8 =? 7).
Proof.
  unfold cursor_bitmap.
  assert (d mod 8 < 8) as Hlt by (apply Nat.mod_upper_bound; lia).
  destruct (d mod 8) as [|[|[|[|[|[|[|[|k]]]]]]]]; try reflexivity; lia.
Qed.

Lemma cursor_next_byte d :
  d mod 8 = 7 →
  d / 8 + 1 = S d / 8 ∧ START_BYTE = cursor_bitmap (S d).
Proof.
  intros Hm. pose proof (Nat.div_mod_eq d 8) as Hd.
  assert (S d = 8 * (d / 8 + 1)) as HS by lia.
  split.
  - rewrite HS, Nat.mul_comm, Nat.div_mul; lia.
  - unfold cursor_bitmap. rewrite HS, Nat.mul_comm, Nat.Div0.mod_mul. done.
Qed.

Lemma cursor_same_byte d :
  d mod 8 ≠ 7 →
  d / 8 = S d / 8 ∧ Z.shiftr (cursor_bitmap d) 1 = cursor_bitmap (S d).
Proof.
  intros Hm. pose proof (Nat.div_mod_eq d 8) as Hd.
  assert (d mod 8 < 8) as Hlt by (apply Nat.mod_upper_bound; lia).
  pose proof (Nat.div_mod_eq (S d) 8) as HS.
  assert (S d mod 8 < 8) as Hlt' by (apply Nat.mod_upper_bound; lia).
  assert (S d / 8 = d / 8) as Hq by lia.
  assert (S d mod 8 = S (d mod 8)) as Hr by lia.
  split; [done|]. unfold cursor_bitmap. rewrite Hr.
  destruct (d mod 8) as [|[|[|[|[|[|[|[|k]]]]]]]]; try reflexivity; lia.
Qed.

Lemma cursor_end d L :
  d < 8 * L → d mod 8 = 7 → (d / 8 + 1 =? L) = (S d =? 8 * L).
Proof.
  intros Hd Hm. pose proof (Nat.div_mod_eq d 8) as Hq.
  destruct (Nat.eqb_spec (d / 8 + 1) L), (Nat.eqb_spec (S d) (8 * L)); lia.
Qed.

Lemma cursor_not_end d L : d < 8 * L → d mod 8 ≠ 7 → S d < 8 * L.
Proof.
  intros Hd Hm. pose proof (Nat.div_mod_eq d 8) as Hq.
  assert (d mod 8 < 8) as Hlt by (apply Nat.mod_upper_bound; lia).
  assert (d / 8 < L) by (apply Nat.Div0.div_lt_upper_bound; lia). lia.
Qed.

Lemma cursor_end_le d L :
  d < 8 * L → d mod 8 = 7 → (L <=? d / 8 + 1) = (S d =? 8 * L).
Proof.
  intros Hd Hm. pose proof (Nat.div_mod_eq d 8) as Hq.
  destruct (Nat.leb_spec L (d / 8 + 1)), (Nat.eqb_spec (S d) (8 * L)); lia.
Qed.

Lemma cursor_start : START_BYTE = cursor_bitmap 0.
Proof. reflexivity. Qed.

(** ** One iteration of each loop, by bit position *)

Section loops.
Context {V : Type}.
Implicit Types (h : gmap loc (node V)) (s : IPSet V) (n : node V).

Ltac cursor_cases d Hd key :=
  rewrite (cursor_shift d);
  destruct (Nat.eqb_spec (d mod 8) 7) as [Hm|Hm];
  [ destruct (cursor_next_byte d Hm) as [<- <-]
  | destruct (cursor_same_byte d Hm) as [<- ->];
    pose proof (cursor_not_end d _ Hd Hm);
    destruct (Nat.eqb_spec (S d) (8 * length key)); [lia|] ].

Lemma insert_descend_step fuel h (key mask : bytes) d node next :
  length key = length mask → d < 8 * length key →
  insert_descend (S fuel) h key mask (d / 8) (cursor_bitmap d) node next =
  if getbit mask d then
    let* n := load h node in
    match child (getbit key d) n with
    | None => Ret (d / 8, cursor_bitmap d, node, None)
    | Some c =>
      if S d =? 8 * length key then Ret (d / 8 + 1, 0%Z, Some c, Some c)
      else insert_descend fuel h key mask (S d / 8) (cursor_bitmap (S d))
                          (Some c) (Some c)
    end
  else Ret (d / 8, cursor_bitmap d, node, next).
Proof.
  intros HL Hd. cbn [insert_descend].
  destruct (index_getbit mask d) as (m & Hmi & Hmb); [lia|].
  destruct (index_getbit key d) as (k & Hki & Hkb); [lia|].
  rewrite Hmi. cbn [obind]. rewrite Hmb.
  destruct (getbit mask d); [|done].
  rewrite Hki. cbn [obind].
  destruct (load h node) as [n|]; [|done]. cbn [obind].
  rewrite Hkb. unfold child.
  destruct (if getbit key d then right n else left n) as [c|]; [|done].
  cursor_cases d Hd key.
  - rewrite (cursor_end d _ Hd Hm).
    destruct (Nat.eqb_spec (S d) (8 * length key)); [|done].
    f_equal. f_equal. f_equal. f_equal.
    generalize (cursor_shift d). rewrite Hm. cbn. apply Z.eqb_eq.
  - done.
Qed.

Lemma insert_extend_step fuel s (key mask : bytes) d node :
  length key = length mask → d < 8 * length key →
  insert_extend (S fuel) s key mask (d / 8) (cursor_bitmap d) node =
  if getbit mask d then
    let* (p, s) := newNode s in
    let* h := store (heap s) (Some p) (λ n, with_parent n node) in
    let* h := store h node (set_child (getbit key d) (Some p)) in
    let s := set_heap s h in
    if S d =? 8 * length key then Ret (s, Some p)
    else insert_extend fuel s key mask (S d / 8) (cursor_bitmap (S d)) (Some p)
  else Ret (s, node).
Proof.
  intros HL Hd. cbn [insert_extend].
  destruct (index_getbit mask d) as (m & Hmi & Hmb); [lia|].
  destruct (index_getbit key d) as (k & Hki & Hkb); [lia|].
  rewrite Hmi. cbn [obind]. rewrite Hmb.
  destruct (getbit mask d); [|done].
  destruct (newNode s) as [[p s']|]; [|done]. cbn [obind].
  destruct (store (heap s') (Some p) _) as [h1|]; [|done]. cbn [obind].
  rewrite Hki. cbn [obind]. rewrite Hkb. unfold set_child.
  assert (∀ (b : bool) (c : option loc),
    (if b then store h1 node (λ n, with_right n c)
     else store h1 node (λ n, with_left n c)) =
    store h1 node (λ n, if b then with_right n c else with_left n c)) as ->.
  { by intros []. }
  destruct (store h1 node _) as [h2|]; [|done]. cbn [obind].
  cursor_cases d Hd key.
  - rewrite (cursor_end d _ Hd Hm). done.
  - done.
Qed.

Lemma delete_descend_step fuel h (key mask : bytes) d node :
  length key = length mask → d < 8 * length key →
  delete_descend (S fuel) h key mask (d / 8) (cursor_bitmap d) node =
  match node with
  | None => Ret None
  | Some _ =>
    if getbit mask d then
      let* n := load h node in
      let node' := child (getbit key d) n in
      if S d =? 8 * length key then Ret node'
      else delete_descend fuel h key mask (S d / 8) (cursor_bitmap (S d)) node'
    else Ret node
  end.
Proof.
  intros HL Hd. cbn [delete_descend]. destruct node as [l|]; [|done].
  destruct (index_getbit mask d) as (m & Hmi & Hmb); [lia|].
  destruct (index_getbit key d) as (k & Hki & Hkb); [lia|].
  rewrite Hmi. cbn [obind]. rewrite Hmb.
  destruct (getbit mask d); [|done].
  rewrite Hki. cbn [obind].
  destruct (load h (Some l)) as [n|]; [|done]. cbn [obind].
  rewrite Hkb. unfold child.
  cursor_cases d Hd key.
  - rewrite (cursor_end d _ Hd Hm). done.
  - done.
Qed.

Lemma find_loop_step fuel h (key mask : bytes) d node val :
  length key = length mask → d < 8 * length key →
  find_loop (S fuel) h key mask (d / 8) (cursor_bitmap d) node val =
  match node with
  | None => Ret val
  | Some _ =>
    let* n := load h node in
    let val := if bool_decide (value n ≠ None) then value n else val in
    let node' := child (getbit key d) n in
    if negb (getbit mask d) then Ret val
    else if S d =? 8 * length key then
      match node' with
      | Some _ => let* n := load h node' in Ret (value n)
      | None => Ret val
      end
    else find_loop fuel h key mask (S d / 8) (cursor_bitmap (S d)) node' val
  end.
Proof.
  intros HL Hd. cbn [find_loop]. destruct node as [l|]; [|done].
  destruct (load h (Some l)) as [n|]; [|done]. cbn [obind].
  destruct (index_getbit mask d) as (m & Hmi & Hmb); [lia|].
  destruct (index_getbit key d) as (k & Hki & Hkb); [lia|].
  rewrite Hki. cbn [obind]. rewrite Hmi. cbn [obind]. rewrite Hmb, Hkb.
  destruct (getbit mask d); [|done]. cbn [negb].
  unfold child.
  cursor_cases d Hd key.
  - rewrite (cursor_end_le d _ Hd Hm). done.
  - done.
Qed.

End loops.

(** ** Paths through the tree *)

Section paths.
Context {V : Type}.
Implicit Types (h : gmap loc (node V)) (s : IPSet V) (n : node V).
Implicit Types (p : option loc) (l : loc) (q x : list bool) (fl : list loc).

Lemma node_at_nil h p : node_at h p [] = p.
Proof. done. Qed.

Lemma node_at_cons h p b bs : node_at h p (b :: bs) = node_at h (step h p b) bs.
Proof. done. Qed.

Lemma node_at_snoc h p bs b :
  node_at h p (bs ++ [b]) = step h (node_at h p bs) b.
Proof. unfold node_at. by rewrite foldl_app. Qed.

Lemma node_at_app h p bs cs :
  node_at h p (bs ++ cs) = node_at h (node_at h p bs) cs.
Proof. unfold node_at. by rewrite foldl_app. Qed.

Lemma node_at_None h bs : node_at h None bs = None.
Proof. induction bs as [|b bs IH]; [done|]. by rewrite node_at_cons. Qed.

Lemma node_at_prefix h p bs cs l :
  node_at h p (bs ++ cs) = Some l → is_Some (node_at h p bs).
Proof.
  rewrite node_at_app. destruct (node_at h p bs); [eauto|].
  by rewrite node_at_None.
Qed.

(** A function that starts at [p] and follows [step] is [node_at]. *)
Lemma node_at_unique h p (f : list bool → option loc) :
  f [] = p → (∀ q b, f (q ++ [b]) = step h (f q) b) →
  ∀ q, node_at h p q = f q.
Proof.
  intros H0 HS q. induction q as [|b q IH] using rev_ind; [done|].
  by rewrite node_at_snoc, HS, IH.
Qed.

(** The nodes on the paths from [p] decide [node_at]. *)
Lemma node_at_agree h h' p :
  (∀ q l, node_at h p q = Some l → h' !! l = h !! l) →
  ∀ q, node_at h' p q = node_at h p q.
Proof.
  intros Hag. apply node_at_unique; [done|]. intros q b.
  rewrite node_at_snoc. destruct (node_at h p q) as [l|] eqn:Hq; [|done].
  cbn. by rewrite (Hag _ _ Hq).
Qed.

Lemma flist_agree h h' p fl :
  (∀ l, l ∈ fl → h' !! l = h !! l) → flist h p fl → flist h' p fl.
Proof.
  revert p. induction fl as [|l fl IH]; intros p Hag; [done|].
  intros [-> (n & Hn & Hfl)]. split; [done|]. exists n. split.
  - rewrite Hag; [done|]. left.
  - apply IH; [|done]. intros l' Hl'. apply Hag. by right.
Qed.

Lemma flist_lookup h p fl l : flist h p fl → l ∈ fl → is_Some (h !! l).
Proof.
  revert p. induction fl as [|l' fl IH]; intros p Hfl Hin.
  - by apply elem_of_nil in Hin.
  - destruct Hfl as [-> (n & Hn & Hfl)].
    apply elem_of_cons in Hin as [->|Hin]; [eauto|]. by eapply IH.
Qed.

(** *** Pool blocks *)

Lemma alloc_block_lookup b k h (l : loc) :
  alloc_block b k h !! l =
  if decide (l.1 = b ∧ l.2 < k) then Some zero_node else h !! l.
Proof.
  unfold alloc_block. destruct l as [b' i]. cbn [fst snd].
  assert (∀ a, foldr (λ i h, <[(b, i) := zero_node]> h) h (seq a k) !! (b', i)
    = if decide (b' = b ∧ a ≤ i < a + k) then Some zero_node
      else h !! (b', i)) as Hgen.
  { induction k as [|k IH]; intros a; cbn [seq foldr].
    - case_decide; [lia|done].
    - rewrite lookup_insert.
      destruct (decide ((b, a) = (b', i))) as [Heq|Hne].
      + inversion Heq; subst. rewrite decide_True; [done|lia].
      + rewrite IH.
        destruct (decide (b' = b ∧ S a ≤ i < S a + k)) as [[Hb1 ?]|Hn1];
          destruct (decide (b' = b ∧ a ≤ i < a + S k)) as [[Hb ?]|Hn2];
          try done.
        * exfalso. apply Hn2. lia.
        * exfalso. subst b'. destruct (decide (i = a)) as [->|]; [done|].
          apply Hn1. lia. }
  rewrite Hgen. repeat case_decide; try done; lia.
Qed.

Lemma child_set_child_eq b c n : child b (set_child b c n) = c.
Proof. by destruct b. Qed.

Lemma child_set_child_ne b b' c n : b ≠ b' → child b' (set_child b c n) = child b' n.
Proof. by destruct b, b'. Qed.

Lemma tree_at_snoc s q b : tree_at s (q ++ [b]) = step (heap s) (tree_at s q) b.
Proof. apply node_at_snoc. Qed.

Lemma tree_at_prefix_None s q x :
  tree_at s q = None → q `prefix_of` x → tree_at s x = None.
Proof.
  intros Hq [k ->]. unfold tree_at in *. by rewrite node_at_app, Hq, node_at_None.
Qed.

Lemma tree_at_prefix_Some s q x l :
  tree_at s x = Some l → q `prefix_of` x → is_Some (tree_at s q).
Proof.
  intros Hx Hpre. destruct (tree_at s q) eqn:Hq; [eauto|].
  by rewrite (tree_at_prefix_None _ _ _ Hq Hpre) in Hx.
Qed.

Lemma tree_at_child s q b l n :
  tree_at s q = Some l → heap s !! l = Some n →
  tree_at s (q ++ [b]) = child b n.
Proof. intros Hq Hn. rewrite tree_at_snoc, Hq. cbn. by rewrite Hn. Qed.

Lemma view_Some_node s q o :
  view s q = Some o ↔ ∃ l n, tree_at s q = Some l ∧ heap s !! l = Some n ∧ value n = o.
Proof.
  unfold view. split.
  - destruct (tree_at s q) as [l|]; [|done].
    destruct (heap s !! l) as [n|] eqn:Hn; [|done].
    cbn. intros [= <-]. eauto.
  - intros (l & n & -> & -> & <-). done.
Qed.

Lemma view_None s fl q : wf s fl → view s q = None ↔ tree_at s q = None.
Proof.
  intros Hwf. unfold view. split.
  - destruct (tree_at s q) as [l|] eqn:Hq; [|done].
    destruct (wf_closed _ _ Hwf _ _ Hq) as [n ->]. done.
  - by intros ->.
Qed.

Lemma prefix_snoc_inv q b (y : list bool) c :
  (q ++ [b]) `prefix_of` (y ++ [c]) →
  (q ++ [b]) `prefix_of` y ∨ (y = q ∧ c = b).
Proof.
  intros [k Hk]. destruct k as [|k0 k Hk'] using rev_ind.
  - rewrite app_nil_r in Hk. apply app_inj_tail in Hk as [-> ->]. by right.
  - rewrite !app_assoc in Hk. apply app_inj_tail in Hk as [-> _].
    left. by exists k.
Qed.

(** *** Writing the value of a tree node *)

Lemma wf_set_value s fl q l n v :
  wf s fl → tree_at s q = Some l → heap s !! l = Some n →
  let s' := set_heap s (<[l := with_value n v]> (heap s)) in
  wf s' fl ∧ (∀ x, tree_at s' x = tree_at s x) ∧
  (∀ x, view s' x = if decide (x = q) then Some v else view s x).
Proof.
  intros Hwf Hq Hn s'.
  assert (∀ x, tree_at s' x = tree_at s x) as Htree.
  { apply node_at_unique; [done|]. intros y c. rewrite tree_at_snoc.
    destruct (tree_at s y) as [l0|]; [|done]. cbn.
    rewrite lookup_insert. case_decide as Heq; [|done].
    subst l0. by rewrite Hn. }
  assert (∀ l0 n0, heap s' !! l0 = Some n0 →
    ∃ n1, heap s !! l0 = Some n1 ∧ left n0 = left n1 ∧ right n0 = right n1 ∧
          parent n0 = parent n1 ∧ (l0 ≠ l → n0 = n1)) as Hheap.
  { intros l0 n0. cbn. rewrite lookup_insert. case_decide as Heq.
    - intros [= <-]. subst l0. exists n. done.
    - intros ?. exists n0. done. }
  split; [|split; [done|]].
  - destruct Hwf as [Hroot Hcl Hinj Hpar Hfree Hnd Hft Hle Hz Hpf Hpt Hblk].
    split; try done.
    + destruct Hroot as (r & nr & Hr & Hnr & Hp). exists r.
      cbn. rewrite lookup_insert. case_decide as Heq.
      * subst r. exists (with_value n v). split; [done|]. split; [done|].
        cbn. congruence.
      * eauto.
    + intros x l0. rewrite Htree. intros Hx. cbn.
      rewrite lookup_insert. case_decide; [eauto|]. by eapply Hcl.
    + intros x x' l0. rewrite !Htree. apply Hinj.
    + intros x b l0 n0. rewrite !Htree. intros Hx Hn0.
      destruct (Hheap _ _ Hn0) as (n1 & Hn1 & _ & _ & -> & _). by eapply Hpar.
    + eapply flist_agree; [|done]. intros l0 Hl0. cbn.
      rewrite lookup_insert_ne; [done|]. intros ->. by eapply Hft.
    + intros l0 x. rewrite Htree. apply Hft.
    + intros i Hi. cbn. rewrite lookup_insert_ne; [by apply Hz|].
      intros ->. by eapply Hpt.
    + intros i x. rewrite Htree. apply Hpt.
    + intros b i [n0 Hn0]. destruct (Hheap _ _ Hn0) as (n1 & Hn1 & _).
      apply Hblk with i. eauto.
  - intros x. unfold view. rewrite Htree. case_decide as Heq.
    + subst x. rewrite Hq. cbn. by rewrite lookup_insert_eq.
    + destruct (tree_at s x) as [l0|] eqn:Hx; [|done]. cbn.
      rewrite lookup_insert_ne; [done|]. intros ->.
      apply Heq. by eapply (wf_inj _ _ Hwf).
Qed.

(** *** Changes of the heap away from the tree *)

Lemma tree_frame s s' fl :
  wf s fl → root s' = root s →
  (∀ q l, tree_at s q = Some l → heap s' !! l = heap s !! l) →
  (∀ x, tree_at s' x = tree_at s x) ∧ (∀ x, view s' x = view s x) ∧
  (∃ r n, root s' = Some r ∧ heap s' !! r = Some n ∧ parent n = None) ∧
  (∀ q l, tree_at s' q = Some l → is_Some (heap s' !! l)) ∧
  (∀ q q' l, tree_at s' q = Some l → tree_at s' q' = Some l → q = q') ∧
  (∀ q b l n, tree_at s' (q ++ [b]) = Some l → heap s' !! l = Some n →
     parent n = tree_at s' q).
Proof.
  intros Hwf Hroot Hag.
  assert (∀ x, tree_at s' x = tree_at s x) as Htree.
  { intros x. unfold tree_at. rewrite Hroot. by apply node_at_agree. }
  split; [done|]. split; [|split; [|split; [|split]]].
  - intros x. unfold view. rewrite Htree.
    destruct (tree_at s x) as [l|] eqn:Hx; [|done]. by rewrite (Hag _ _ Hx).
  - destruct (wf_root _ _ Hwf) as (r & n & Hr & Hn & Hp). exists r, n.
    rewrite Hroot. split; [done|]. split; [|done].
    rewrite (Hag [] r); [done|]. unfold tree_at. by rewrite Hr.
  - intros q l. rewrite Htree. intros Hq. rewrite (Hag _ _ Hq).
    by eapply wf_closed.
  - intros q q' l. rewrite !Htree. by eapply wf_inj.
  - intros q b l n. rewrite !Htree. intros Hq. rewrite (Hag _ _ Hq).
    by eapply wf_parent.
Qed.

Lemma ALLOC_LEN_pos : 0 < ALLOC_LEN.
Proof. vm_compute. lia. Qed.

(** *** newNode *)

Lemma newNode_spec s fl :
  wf s fl →
  ∃ l s' fl', newNode s = Ret (l, s') ∧ wf s' fl' ∧ detached s' fl' l ∧
    root s' = root s ∧ (∀ x, tree_at s' x = tree_at s x) ∧
    (∀ x, view s' x = view s x).
Proof.
  intros Hwf. unfold newNode. destruct (free s) as [p|] eqn:Hfree.
  - (* pop the free list *)
    pose proof (wf_free _ _ Hwf) as Hfl. rewrite Hfree in Hfl.
    destruct fl as [|p' fl']; [done|].
    destruct Hfl as [[= <-] (n & Hn & Hfl)].
    pose proof (wf_free_nodup _ _ Hwf) as Hnd. apply NoDup_cons in Hnd as [Hp Hnd].
    unfold load, store. cbn [heap]. rewrite Hn. cbn [obind].
    rewrite !lookup_insert_eq. cbn [obind]. rewrite !lookup_insert_eq. cbn [obind].
    rewrite !lookup_insert_eq. cbn [obind]. rewrite !insert_insert_eq.
    change (with_value _ None) with (@zero_node V).
    set (s' := set_heap _ _).
    assert (∀ q l, tree_at s q = Some l → heap s' !! l = heap s !! l) as Hag.
    { intros q l Hq. cbn. rewrite lookup_insert_ne; [done|]. intros ->.
      eapply (wf_free_tree _ _ Hwf); [left|done]. }
    destruct (tree_frame s s' _ Hwf eq_refl Hag)
      as (Htree & Hview & Hroot & Hcl & Hinj & Hpar).
    exists p, s', fl'. split; [done|]. split; [|split; [|done]].
    + split; try done.
      * eapply flist_agree; [|done]. intros l Hl. cbn.
        rewrite lookup_insert_ne; [done|]. by intros ->.
      * intros l q Hl. rewrite Htree. apply (wf_free_tree _ _ Hwf). by right.
      * apply (wf_pool_le _ _ Hwf).
      * intros i Hi. cbn. rewrite lookup_insert_ne; [by apply (wf_pool_zero _ _ Hwf)|].
        intros ->. eapply (wf_pool_free _ _ Hwf); [done|left].
      * intros i Hi Hin. eapply (wf_pool_free _ _ Hwf); [done|by right].
      * intros i q Hi. rewrite Htree. by apply (wf_pool_tree _ _ Hwf).
      * intros b i. cbn. rewrite lookup_insert. case_decide as Heq.
        -- intros _. apply (wf_blocks _ _ Hwf b i). rewrite <- Heq. eauto.
        -- apply (wf_blocks _ _ Hwf).
    + split.
      * cbn. by rewrite lookup_insert_eq.
      * done.
      * intros q. rewrite Htree. apply (wf_free_tree _ _ Hwf). left.
      * intros i Hi Heq. apply (wf_pool_free _ _ Hwf i Hi).
        cbn in Heq. rewrite <- Heq. left.
  - pose proof (wf_free _ _ Hwf) as Hfl. rewrite Hfree in Hfl.
    destruct fl as [|p' fl']; [|by destruct Hfl].
    destruct (Nat.eqb_spec (len (pool s)) (cap (pool s))) as [Hfull|Hroom].
    + (* a new block *)
      set (b := S (blk (pool s))). set (s' := mkSet _ _ _ _).
      assert (∀ l, is_Some (heap s !! l) → heap s' !! l = heap s !! l) as Hold.
      { intros [b0 i] Hl. cbn. rewrite alloc_block_lookup. cbn.
        rewrite decide_False; [done|]. intros [-> _].
        apply (wf_blocks _ _ Hwf) in Hl. lia. }
      assert (∀ q l, tree_at s q = Some l → heap s' !! l = heap s !! l) as Hag.
      { intros q l Hq. apply Hold. by eapply wf_closed. }
      destruct (tree_frame s s' _ Hwf eq_refl Hag)
        as (Htree & Hview & Hroot & Hcl & Hinj & Hpar).
      assert (∀ i q, tree_at s q ≠ Some (b, i)) as Hfresh.
      { intros i q Hq. apply (wf_closed _ _ Hwf) in Hq.
        apply (wf_blocks _ _ Hwf) in Hq. lia. }
      exists (b, 0), s', []. split; [done|]. split; [|split; [|done]].
      * split; try done.
        -- constructor.
        -- intros l q Hl. by apply elem_of_nil in Hl.
        -- cbn. pose proof ALLOC_LEN_pos. lia.
        -- intros i Hi. cbn in *. rewrite alloc_block_lookup. cbn.
           rewrite decide_True; [done|lia].
        -- intros i _ Hl. by apply elem_of_nil in Hl.
        -- intros i q _. rewrite Htree. apply Hfresh.
        -- intros b0 i. cbn. rewrite alloc_block_lookup. cbn.
           case_decide as Hd; [lia|]. intros Hl.
           apply (wf_blocks _ _ Hwf) in Hl. lia.
      * split.
        -- cbn. rewrite alloc_block_lookup. cbn.
           rewrite decide_True; [done|]. pose proof ALLOC_LEN_pos. lia.
        -- intros Hl. by apply elem_of_nil in Hl.
        -- intros q. rewrite Htree. apply Hfresh.
        -- cbn. intros i Hi [= <-]. lia.
    + (* the next slot of the current block *)
      pose proof (wf_pool_le _ _ Hwf) as Hle.
      set (s' := mkSet _ _ _ _).
      assert (∀ q l, tree_at s q = Some l → heap s' !! l = heap s !! l) as Hag by done.
      destruct (tree_frame s s' _ Hwf eq_refl Hag)
        as (Htree & Hview & Hroot & Hcl & Hinj & Hpar).
      exists (blk (pool s), len (pool s)), s', []. split; [done|].
      split; [|split; [|done]].
      * split; try done.
        -- constructor.
        -- intros l q Hl. by apply elem_of_nil in Hl.
        -- cbn. lia.
        -- intros i Hi. cbn in *. apply (wf_pool_zero _ _ Hwf). lia.
        -- intros i _ Hl. by apply elem_of_nil in Hl.
        -- intros i q Hi. cbn in *. rewrite Htree. apply (wf_pool_tree _ _ Hwf). lia.
        -- apply (wf_blocks _ _ Hwf).
      * split.
        -- cbn. apply (wf_pool_zero _ _ Hwf). lia.
        -- intros Hl. by apply elem_of_nil in Hl.
        -- intros q. rewrite Htree. apply (wf_pool_tree _ _ Hwf). lia.
        -- cbn. intros i Hi [= <-]. lia.
Qed.

(** *** Linking a new node under a tree node *)

Lemma link_spec s fl q l n b (m : loc) :
  wf s fl → detached s fl m →
  tree_at s q = Some l → heap s !! l = Some n → child b n = None →
  ∃ h1 h2,
    store (heap s) (Some m) (λ n, with_parent n (Some l)) = Ret h1 ∧
    store h1 (Some l) (set_child b (Some m)) = Ret h2 ∧
    wf (set_heap s h2) fl ∧
    (∀ x, tree_at (set_heap s h2) x =
          if decide (x = q ++ [b]) then Some m else tree_at s x) ∧
    (∀ x, view (set_heap s h2) x =
          if decide (x = q ++ [b]) then Some None else view s x) ∧
    h2 !! m = Some (mkNode None None (Some l) None).
Proof.
  intros Hwf Hdet Hq Hn Hchild.
  destruct Hdet as [Hz Hdf Hdt Hdp].
  assert (l ≠ m) as Hlm by (intros ->; by eapply Hdt).
  unfold store. rewrite Hz. eexists. rewrite lookup_insert_ne by done.
  rewrite Hn. eexists. split; [done|]. split; [done|].
  set (nm := with_parent zero_node (Some l)).
  set (h2 := <[l := _]> _). set (s' := set_heap s h2).
  assert (tree_at s (q ++ [b]) = None) as Hqb.
  { by rewrite (tree_at_child _ _ _ _ _ Hq Hn). }
  assert (∀ l0, h2 !! l0 =
    if decide (l0 = l) then Some (set_child b (Some m) n)
    else if decide (l0 = m) then Some nm else heap s !! l0) as Hh2.
  { intros l0. unfold h2.
    destruct (decide (l0 = l)) as [->|H1]; [by rewrite lookup_insert_eq|].
    rewrite lookup_insert_ne by done.
    destruct (decide (l0 = m)) as [->|H2]; [by rewrite lookup_insert_eq|].
    by rewrite lookup_insert_ne. }
  assert (∀ x, tree_at s' x =
    if decide (x = q ++ [b]) then Some m else tree_at s x) as Htree.
  { apply (node_at_unique _ _
      (λ x, if decide (x = q ++ [b]) then Some m else tree_at s x)).
    { rewrite decide_False; [done|]. by destruct q. }
    intros y c. destruct (decide (y = q ++ [b])) as [->|Hy].
    - rewrite decide_False.
      2:{ intros Heq. apply (f_equal length) in Heq.
          rewrite !length_app in Heq. cbn in Heq. lia. }
      cbn. rewrite Hh2, decide_False, decide_True by done. cbn.
      rewrite tree_at_snoc, Hqb. by destruct c.
    - destruct (decide (y ++ [c] = q ++ [b])) as [Heq|Hne].
      + apply app_inj_tail in Heq as [-> ->]. rewrite Hq. cbn.
        rewrite Hh2, decide_True by done. by rewrite child_set_child_eq.
      + rewrite tree_at_snoc. destruct (tree_at s y) as [l0|] eqn:Hy0; [|done].
        cbn. rewrite Hh2. case_decide as Hl0.
        * subst l0. rewrite Hn.
          assert (y = q) as -> by (by eapply (wf_inj _ _ Hwf)).
          rewrite child_set_child_ne; [done|]. intros ->. done.
        * rewrite decide_False; [done|]. intros ->. by eapply Hdt. }
  assert (∀ l0 n0, h2 !! l0 = Some n0 → l0 ≠ m →
    ∃ n1, heap s !! l0 = Some n1 ∧ parent n0 = parent n1 ∧
          value n0 = value n1 ∧ right n0 = (if decide (l0 = l ∧ b = true) then Some m else right n1)) as Hold.
  { intros l0 n0. rewrite Hh2. case_decide as Hl0.
    - subst l0. intros [= <-] _. exists n. split; [done|].
      destruct b; cbn; (split; [done|]); (split; [done|]).
      + by rewrite decide_True.
      + rewrite decide_False; [done|]. by intros [].
    - intros Hn0 Hm. rewrite decide_False in Hn0 by done. exists n0.
      repeat split; try done. rewrite decide_False; [done|]. by intros []. }
  split; [|split; [done|split]].
  - destruct Hwf as [Hroot Hcl Hinj Hpar Hfree Hnd Hft Hle Hzero Hpf Hpt Hblk].
    split; try done.
    + destruct Hroot as (r & nr & Hr & Hnr & Hp). exists r.
      assert (r ≠ m) as Hrm.
      { intros ->. apply (Hdt []). unfold tree_at. by rewrite Hr. }
      cbn. rewrite Hh2. destruct (decide (r = l)) as [->|Hrl].
      * eexists. split; [done|]. split; [done|].
        assert (n = nr) as -> by congruence. by destruct b.
      * rewrite decide_False by done. eauto.
    + intros x l0 Hx. rewrite Htree in Hx. cbn. rewrite Hh2.
      destruct (decide (l0 = l)); [eauto|].
      destruct (decide (l0 = m)); [eauto|].
      case_decide; [congruence|]. by eapply Hcl.
    + intros x x' l0 Hx Hx'. rewrite Htree in Hx, Hx'.
      destruct (decide (x = q ++ [b])) as [->|Hne1];
        destruct (decide (x' = q ++ [b])) as [->|Hne2]; [done| | |].
      * exfalso. injection Hx as <-. by eapply Hdt.
      * exfalso. injection Hx' as <-. by eapply Hdt.
      * by eapply Hinj.
    + intros y c l0 n0. rewrite !Htree. cbn.
      destruct (decide (y ++ [c] = q ++ [b])) as [Heq|Hne].
      * apply app_inj_tail in Heq as [-> ->]. intros [= <-].
        rewrite Hh2, decide_False, decide_True by done. intros [= <-].
        rewrite decide_False, Hq; [done|].
        intros Heq. apply (f_equal length) in Heq.
        rewrite !length_app in Heq. cbn in Heq. lia.
      * intros Hy Hn0.
        assert (l0 ≠ m) as Hl0 by (intros ->; by apply Hdt in Hy).
        destruct (Hold _ _ Hn0 Hl0) as (n1 & Hn1 & -> & _).
        rewrite decide_False; [by eapply Hpar|].
        intros ->. by rewrite tree_at_snoc, Hqb in Hy.
    + eapply flist_agree; [|done]. intros l0 Hl0. cbn. rewrite Hh2.
      rewrite !decide_False; [done| |].
      * by intros ->.
      * intros ->. by eapply Hft.
    + intros l0 x Hl0. rewrite Htree.
      destruct (decide (x = q ++ [b])); [|by apply Hft].
      intros [= ->]. done.
    + intros i Hi. cbn in *. rewrite Hh2, !decide_False; [by apply Hzero| |].
      * intros Heq. by apply (Hdp i Hi).
      * intros Heq. apply (Hpt i q Hi). by rewrite Heq.
    + intros i x Hi. rewrite Htree.
      destruct (decide (x = q ++ [b])); [|by apply Hpt].
      intros [= Heq]. by apply (Hdp i Hi).
    + intros b0 i. cbn. rewrite Hh2. intros Hs. apply (Hblk b0 i). revert Hs.
      destruct (decide ((b0, i) = l)) as [Heq|]; [rewrite Heq; eauto|].
      destruct (decide ((b0, i) = m)) as [Heq|]; [rewrite Heq; eauto|]. done.
  - intros x. unfold view. rewrite Htree.
    destruct (decide (x = q ++ [b])) as [Hx|Hx].
    + cbn. by rewrite Hh2, decide_False, decide_True.
    + destruct (tree_at s x) as [l0|] eqn:Hx0; [|done]. cbn. rewrite Hh2.
      destruct (decide (l0 = l)) as [->|Hl0].
      * rewrite Hn. by destruct b.
      * rewrite decide_False; [done|]. intros ->. by eapply Hdt.
  - by rewrite Hh2, decide_False, decide_True.
Qed.

(** *** Unlinking a tree node and pushing it on the free list *)

Lemma snoc_ne_self {A} (q : list A) b : q ++ [b] ≠ q.
Proof.
  intros Heq. apply (f_equal length) in Heq. rewrite length_app in Heq.
  cbn in Heq. lia.
Qed.

Lemma unlink_spec s fl q b l :
  wf s fl → tree_at s (q ++ [b]) = Some l →
  ∃ lp np n,
    tree_at s q = Some lp ∧ heap s !! lp = Some np ∧ heap s !! l = Some n ∧
    let s1 := mkSet (root s) (Some l) (pool s)
                (<[l := with_right n (free s)]>
                   (<[lp := set_child b None np]> (heap s))) in
    wf s1 (l :: fl) ∧
    (∀ x, tree_at s1 x =
          if decide ((q ++ [b]) `prefix_of` x) then None else tree_at s x) ∧
    (∀ x, view s1 x =
          if decide ((q ++ [b]) `prefix_of` x) then None else view s x) ∧
    heap s1 !! lp = Some (set_child b None np) ∧
    (∀ fuel, delete_trim (S fuel) s (Some l) =
       let n' := set_child b None np in
       if bool_decide (right n' ≠ None) || bool_decide (left n' ≠ None)
          || bool_decide (value n' ≠ None)
       then Ret s1
       else if bool_decide (parent n' = None) then Ret s1
       else delete_trim fuel s1 (Some lp)).
Proof.
  intros Hwf Hl.
  destruct (tree_at s q) as [lp|] eqn:Hq.
  2:{ by rewrite tree_at_snoc, Hq in Hl. }
  destruct (wf_closed _ _ Hwf _ _ Hq) as [np Hnp].
  destruct (wf_closed _ _ Hwf _ _ Hl) as [n Hn].
  assert (child b np = Some l) as Hchild.
  { by rewrite <- (tree_at_child _ _ _ _ _ Hq Hnp). }
  assert (parent n = Some lp) as Hpar.
  { by rewrite (wf_parent _ _ Hwf _ _ _ _ Hl Hn). }
  assert (l ≠ lp) as Hne.
  { intros ->. by apply (snoc_ne_self q b), (wf_inj _ _ Hwf _ _ lp). }
  assert (right np = Some l ↔ b = true) as Hright.
  { split.
    - intros Hr. destruct b; [done|]. exfalso.
      assert (tree_at s (q ++ [true]) = Some l) as Ht.
      { by rewrite (tree_at_child _ _ _ _ _ Hq Hnp). }
      pose proof (wf_inj _ _ Hwf _ _ _ Hl Ht) as Heq.
      by apply app_inj_tail in Heq as [_ ?].
    - by intros ->. }
  exists lp, np, n. split; [done|]. split; [done|]. split; [done|].
  set (h2 := <[l := _]> _). intros s1.
  assert (∀ l0, h2 !! l0 =
    if decide (l0 = l) then Some (with_right n (free s))
    else if decide (l0 = lp) then Some (set_child b None np)
    else heap s !! l0) as Hh2.
  { intros l0. unfold h2.
    destruct (decide (l0 = l)) as [->|H1]; [by rewrite lookup_insert_eq|].
    rewrite lookup_insert_ne by done.
    destruct (decide (l0 = lp)) as [->|H2]; [by rewrite lookup_insert_eq|].
    by rewrite lookup_insert_ne. }
  assert (∀ x, tree_at s1 x =
    if decide ((q ++ [b]) `prefix_of` x) then None else tree_at s x) as Htree.
  { apply (node_at_unique _ _
      (λ x, if decide ((q ++ [b]) `prefix_of` x) then None else tree_at s x)).
    { rewrite decide_False; [done|]. intros Hpre.
      apply prefix_nil_inv in Hpre. by destruct q. }
    intros y c. destruct (decide ((q ++ [b]) `prefix_of` y)) as [Hy|Hy].
    - rewrite decide_True; [done|]. by apply prefix_app_r.
    - destruct (decide ((q ++ [b]) `prefix_of` (y ++ [c]))) as [Hyc|Hyc].
      + apply prefix_snoc_inv in Hyc as [?|[-> ->]]; [done|].
        rewrite Hq. cbn. rewrite Hh2, decide_False, decide_True by done.
        by rewrite child_set_child_eq.
      + rewrite tree_at_snoc. destruct (tree_at s y) as [l0|] eqn:Hy0; [|done].
        cbn. rewrite Hh2. destruct (decide (l0 = l)) as [->|Hl0].
        * exfalso. apply Hy. by rewrite (wf_inj _ _ Hwf _ _ _ Hy0 Hl).
        * destruct (decide (l0 = lp)) as [->|Hl1]; [|done].
          rewrite Hnp. assert (y = q) as -> by (by eapply (wf_inj _ _ Hwf)).
          rewrite child_set_child_ne; [done|]. intros ->. by apply Hyc. }
  assert (∀ x l0, tree_at s1 x = Some l0 →
    tree_at s x = Some l0 ∧ ¬ (q ++ [b]) `prefix_of` x ∧ l0 ≠ l) as Hsub.
  { intros x l0. rewrite Htree.
    destruct (decide ((q ++ [b]) `prefix_of` x)) as [|Hx]; [done|].
    intros Hx0. split; [done|]. split; [done|]. intros ->.
    apply Hx. by rewrite (wf_inj _ _ Hwf _ _ _ Hx0 Hl). }
  split; [|split; [done|split; [|split]]].
  - destruct Hwf as [Hroot Hcl Hinj Hprt Hfree Hnd Hft Hle Hzero Hpf Hpt Hblk].
    split; try done.
    + destruct Hroot as (r & nr & Hr & Hnr & Hp). exists r.
      assert (r ≠ l) as Hrl.
      { intros ->. assert (tree_at s [] = Some l) as H0.
        { unfold tree_at. by rewrite Hr. }
        pose proof (Hinj _ _ _ Hl H0). by destruct q. }
      cbn. rewrite Hh2, decide_False by done.
      destruct (decide (r = lp)) as [->|Hrp]; [|eauto].
      eexists. split; [done|]. split; [done|].
      assert (np = nr) as -> by congruence. by destruct b.
    + intros x l0 Hx. apply Hsub in Hx as (Hx & _ & _). cbn. rewrite Hh2.
      destruct (decide (l0 = l)); [eauto|].
      destruct (decide (l0 = lp)); [eauto|]. by eapply Hcl.
    + intros x x' l0 Hx Hx'. apply Hsub in Hx as (Hx & _), Hx' as (Hx' & _).
      by eapply Hinj.
    + intros y c l0 n0 Hy Hn0. apply Hsub in Hy as (Hy & Hnp1 & Hl0).
      cbn in Hn0. rewrite Hh2, decide_False in Hn0 by done.
      rewrite Htree, decide_False.
      2:{ intros Hpre. apply Hnp1. by apply prefix_app_r. }
      destruct (decide (l0 = lp)) as [->|Hl1].
      * injection Hn0 as <-. rewrite <- (Hprt _ _ _ _ Hy Hnp). by destruct b.
      * by eapply Hprt.
    + cbn. split; [done|]. eexists. rewrite Hh2, decide_True by done.
      split; [done|]. cbn. eapply flist_agree; [|done].
      intros l0 Hl0. rewrite Hh2, !decide_False; [done| |].
      * intros ->. by eapply Hft.
      * intros ->. by eapply Hft.
    + apply NoDup_cons. split; [|done]. intros Hin. by eapply Hft.
    + intros l0 x Hl0 Hx. apply Hsub in Hx as (Hx & _ & Hne0).
      apply elem_of_cons in Hl0 as [->|Hl0]; [done|]. by eapply Hft.
    + intros i Hi. cbn in *. rewrite Hh2, !decide_False; [by apply Hzero| |].
      * intros Heq. apply (Hpt i q Hi). by rewrite Heq.
      * intros Heq. apply (Hpt i (q ++ [b]) Hi). by rewrite Heq.
    + intros i Hi Hin. cbn in *. apply elem_of_cons in Hin as [Heq|Hin].
      * apply (Hpt i (q ++ [b]) Hi). by rewrite Heq.
      * by apply (Hpf i Hi).
    + intros i x Hi Hx. apply Hsub in Hx as (Hx & _). by apply (Hpt i x Hi).
    + intros b0 i. cbn. rewrite Hh2. intros Hs. apply (Hblk b0 i). revert Hs.
      destruct (decide ((b0, i) = l)) as [Heq|]; [rewrite Heq; eauto|].
      destruct (decide ((b0, i) = lp)) as [Heq|]; [rewrite Heq; eauto|]. done.
  - intros x. unfold view. rewrite Htree.
    destruct (decide ((q ++ [b]) `prefix_of` x)) as [Hx|Hx]; [done|].
    destruct (tree_at s x) as [l0|] eqn:Hx0; [|done]. cbn. rewrite Hh2.
    destruct (decide (l0 = l)) as [->|Hl0].
    + exfalso. apply Hx. by rewrite (wf_inj _ _ Hwf _ _ _ Hx0 Hl).
    + destruct (decide (l0 = lp)) as [->|Hl1]; [|done].
      rewrite Hnp. by destruct b.
  - cbn. by rewrite Hh2, decide_False, decide_True.
  - intros fuel. cbn [delete_trim load]. rewrite Hn. cbn [obind].
    rewrite Hpar. cbn [load]. rewrite Hnp. cbn [obind].
    assert ((if bool_decide (right np = Some l)
             then store (heap s) (Some lp) (λ a, with_right a None)
             else store (heap s) (Some lp) (λ a, with_left a None))
            = Ret (<[lp := set_child b None np]> (heap s))) as ->.
    { unfold store. rewrite Hnp. destruct b.
      - rewrite bool_decide_true; [done|]. by apply Hright.
      - rewrite bool_decide_false; [done|]. intros Hr. by apply Hright in Hr. }
    cbn [obind]. unfold store. rewrite lookup_insert_ne by done.
    rewrite Hn. cbn [obind heap load].
    fold h2. rewrite !Hh2. rewrite decide_True by done. cbn [obind].
    cbn [with_right parent]. rewrite Hpar. cbn [load].
    rewrite Hh2, decide_False, decide_True by done. cbn [obind]. done.
Qed.

End paths.

(** ** The loops, over paths *)

Section walks.
Context {V : Type}.
Implicit Types (h : gmap loc (node V)) (s : IPSet V).
Implicit Types (p : option loc) (l : loc) (q x : list bool) (fl : list loc).
Implicit Types (v : list bool → option (option V)) (best : option V).

Lemma touch_view_prefix s fl q l x :
  wf s fl → tree_at s q = Some l → x `prefix_of` q →
  touch (view s x) = view s x.
Proof.
  intros Hwf Hq Hpre.
  destruct (tree_at_prefix_Some _ _ _ _ Hq Hpre) as [lx Hlx].
  destruct (wf_closed _ _ Hwf _ _ Hlx) as [nx Hnx].
  unfold view. rewrite Hlx, Hnx. done.
Qed.

Lemma path_from_S key mask d n :
  path_from key mask d (S n) =
  if getbit mask d then getbit key d :: path_from key mask (S d) n else [].
Proof. done. Qed.

Lemma path_from_length key mask d n : length (path_from key mask d n) ≤ n.
Proof.
  revert d. induction n as [|n IH]; intros d; [done|].
  rewrite path_from_S. destruct (getbit mask d); cbn; [|lia].
  specialize (IH (S d)). lia.
Qed.

(** One iteration of the second loop of [insert] takes a well-formed state
    in which the path stops below [q] to a well-formed state in which it
    stops below the new node: [newNode] is called in well-formed states
    only. *)
Lemma extend_iteration_wf s fl q l (b : bool) :
  wf s fl → tree_at s q = Some l → tree_at s (q ++ [b]) = None →
  ∃ (m : loc) s1 h1 h2 fl1,
    newNode s = Ret (m, s1) ∧
    store (heap s1) (Some m) (λ n, with_parent n (Some l)) = Ret h1 ∧
    store h1 (Some l) (set_child b (Some m)) = Ret h2 ∧
    wf (set_heap s1 h2) fl1 ∧
    tree_at (set_heap s1 h2) (q ++ [b]) = Some m ∧
    ∀ b' : bool, tree_at (set_heap s1 h2) ((q ++ [b]) ++ [b']) = None.
Proof.
  intros Hwf Hq Hnone.
  destruct (newNode_spec s fl Hwf)
    as (m & s1 & fl1 & Hnew & Hwf1 & Hdet & Hroot1 & Htree1 & Hview1).
  rewrite <- Htree1 in Hq, Hnone.
  destruct (wf_closed _ _ Hwf1 _ _ Hq) as [nl Hnl].
  assert (child b nl = None) as Hchild.
  { by rewrite <- (tree_at_child _ _ _ _ _ Hq Hnl). }
  destruct (link_spec s1 fl1 q l nl b m Hwf1 Hdet Hq Hnl Hchild)
    as (h1 & h2 & Hst1 & Hst2 & Hwf2 & Htree2 & Hview2 & Hm).
  exists m, s1, h1, h2, fl1. split_and!; try done.
  - by rewrite Htree2, decide_True.
  - intros b'. rewrite Htree2, decide_False by apply snoc_ne_self.
    by apply (tree_at_prefix_None s1 (q ++ [b])); [|apply prefix_app_r].
Qed.

Lemma insert_extend_spec (key mask : bytes) n :
  ∀ d s fl q l fuel,
    length key = length mask → d + n = 8 * length key → 0 < n → n ≤ fuel →
    wf s fl → tree_at s q = Some l →
    tree_at s (q ++ [getbit key d]) = None →
    ∃ s' l' fl',
      insert_extend fuel s key mask (d / 8) (cursor_bitmap d) (Some l)
        = Ret (s', Some l') ∧
      wf s' fl' ∧ root s' = root s ∧
      tree_at s' (q ++ path_from key mask d n) = Some l' ∧
      (∀ x, view s' x =
            if decide (x `prefix_of` (q ++ path_from key mask d n))
            then touch (view s x) else view s x).
Proof.
  induction n as [|n IH]; intros d s fl q l fuel HL Hdn Hn Hfuel Hwf Hq Hnone;
    [lia|].
  destruct fuel as [|fuel]; [lia|].
  rewrite insert_extend_step by (done || lia). rewrite path_from_S.
  destruct (getbit mask d).
  2:{ exists s, l, fl. rewrite app_nil_r. split_and!; try done.
      intros x. destruct (decide (x `prefix_of` q)); [|done].
      symmetry. by eapply touch_view_prefix. }
  set (b := getbit key d) in *.
  destruct (newNode_spec s fl Hwf)
    as (m & s1 & fl1 & -> & Hwf1 & Hdet & Hroot1 & Htree1 & Hview1).
  cbn [obind]. rewrite <- Htree1 in Hq, Hnone.
  destruct (wf_closed _ _ Hwf1 _ _ Hq) as [nl Hnl].
  assert (child b nl = None) as Hchild.
  { by rewrite <- (tree_at_child _ _ _ _ _ Hq Hnl). }
  destruct (link_spec s1 fl1 q l nl b m Hwf1 Hdet Hq Hnl Hchild)
    as (h1 & h2 & -> & Hst2 & Hwf2 & Htree2 & Hview2 & Hm).
  cbn [obind]. rewrite Hst2. cbn [obind].
  set (s2 := set_heap s1 h2) in *.
  assert (tree_at s2 (q ++ [b]) = Some m) as Hqb.
  { by rewrite Htree2, decide_True. }
  assert (∃ s' l' fl',
    (if S d =? 8 * length key then Ret (s2, Some m)
     else insert_extend fuel s2 key mask (S d / 8) (cursor_bitmap (S d)) (Some m))
      = Ret (s', Some l') ∧
    wf s' fl' ∧ root s' = root s2 ∧
    tree_at s' ((q ++ [b]) ++ path_from key mask (S d) n) = Some l' ∧
    (∀ x, view s' x =
          if decide (x `prefix_of` ((q ++ [b]) ++ path_from key mask (S d) n))
          then touch (view s2 x) else view s2 x)) as Hrest.
  { destruct (Nat.eqb_spec (S d) (8 * length key)) as [Hend|Hend].
    - assert (n = 0) as -> by lia. cbn [path_from]. rewrite app_nil_r.
      exists s2, m, fl1. split_and!; try done.
      intros x. destruct (decide (x `prefix_of` (q ++ [b]))); [|done].
      symmetry. by eapply touch_view_prefix.
    - apply (IH (S d) s2 fl1 (q ++ [b]) m fuel); try done; try lia.
      rewrite Htree2, decide_False by apply snoc_ne_self.
      by apply (tree_at_prefix_None s1 (q ++ [b])); [|apply prefix_app_r]. }
  destruct Hrest as (s' & l' & fl' & -> & Hwf' & Hroot' & Hl' & Hview').
  exists s', l', fl'. split; [done|]. split; [done|]. split.
  { by rewrite Hroot'. }
  rewrite <- app_assoc in Hl', Hview'. split; [done|].
  intros x. rewrite Hview', !Hview2, !Hview1.
  change (q ++ b :: path_from key mask (S d) n)
    with (q ++ [b] ++ path_from key mask (S d) n).
  destruct (decide (x `prefix_of` (q ++ [b] ++ path_from key mask (S d) n)))
    as [Hpre|Hpre].
  - destruct (decide (x = q ++ [b])) as [->|Hx]; [|done].
    unfold view at 1. by rewrite <- Htree1, Hnone.
  - rewrite decide_False; [done|]. intros ->. apply Hpre.
    rewrite app_assoc. by apply prefix_app_r.
Qed.

Lemma insert_descend_spec (key mask : bytes) n :
  ∀ d s fl q l fuel,
    length key = length mask → d + n = 8 * length key → 0 < n → n ≤ fuel →
    wf s fl → tree_at s q = Some l →
    (∃ i' bm' l',
       insert_descend fuel (heap s) key mask (d / 8) (cursor_bitmap d)
                      (Some l) (Some l) = Ret (i', bm', Some l', Some l') ∧
       tree_at s (q ++ path_from key mask d n) = Some l') ∨
    (∃ j qj lj,
       insert_descend fuel (heap s) key mask (d / 8) (cursor_bitmap d)
                      (Some l) (Some l)
         = Ret ((d + j) / 8, cursor_bitmap (d + j), Some lj, None) ∧
       j < n ∧ tree_at s qj = Some lj ∧ getbit mask (d + j) = true ∧
       tree_at s (qj ++ [getbit key (d + j)]) = None ∧
       qj ++ path_from key mask (d + j) (n - j) = q ++ path_from key mask d n).
Proof.
  induction n as [|n IH]; intros d s fl q l fuel HL Hdn Hn Hfuel Hwf Hq; [lia|].
  destruct fuel as [|fuel]; [lia|].
  rewrite insert_descend_step by (done || lia). rewrite path_from_S.
  destruct (getbit mask d) eqn:Hmask.
  2:{ left. exists (d / 8), (cursor_bitmap d), l. by rewrite app_nil_r. }
  set (b := getbit key d) in *.
  destruct (wf_closed _ _ Hwf _ _ Hq) as [nl Hnl].
  cbn [load]. rewrite Hnl. cbn [obind].
  pose proof (tree_at_child _ _ b _ _ Hq Hnl) as Hqb.
  destruct (child b nl) as [c|] eqn:Hc.
  2:{ right. exists 0, q, l. rewrite Nat.add_0_r, Nat.sub_0_r.
      split; [done|]. split; [lia|]. split; [done|]. split; [done|].
      split; [done|]. by rewrite path_from_S, Hmask. }
  destruct (Nat.eqb_spec (S d) (8 * length key)) as [Hend|Hend].
  { left. assert (n = 0) as -> by lia. eauto. }
  destruct (IH (S d) s fl (q ++ [b]) c fuel) as
    [(i' & bm' & l' & -> & Hl')|(j & qj & lj & -> & Hj & Hqj & Hmj & Hnone & Heq)];
    try done; try lia.
  - left. exists i', bm', l'. split; [done|]. by rewrite <- app_assoc in Hl'.
  - right. exists (S j), qj, lj.
    replace (d + S j) with (S d + j) by lia. split; [done|].
    split; [lia|]. split; [done|]. split; [done|]. split; [done|].
    cbn [Nat.sub]. by rewrite Heq, <- app_assoc.
Qed.

Lemma delete_descend_spec (key mask : bytes) h n :
  ∀ d p fuel,
    length key = length mask → d + n = 8 * length key → 0 < n → n ≤ fuel →
    (∀ x l, node_at h p x = Some l → is_Some (h !! l)) →
    delete_descend fuel h key mask (d / 8) (cursor_bitmap d) p =
    Ret (node_at h p (path_from key mask d n)).
Proof.
  induction n as [|n IH]; intros d p fuel HL Hdn Hn Hfuel Hcl; [lia|].
  destruct fuel as [|fuel]; [lia|].
  rewrite delete_descend_step by (done || lia). rewrite path_from_S.
  destruct p as [l|]; [|by rewrite node_at_None].
  destruct (getbit mask d); [|done].
  destruct (Hcl [] l eq_refl) as [nl Hnl].
  cbn [load]. rewrite Hnl. cbn [obind]. rewrite node_at_cons.
  assert (step h (Some l) (getbit key d) = child (getbit key d) nl) as Hstep.
  { cbn. by rewrite Hnl. }
  rewrite Hstep.
  destruct (Nat.eqb_spec (S d) (8 * length key)) as [Hend|Hend].
  { by assert (n = 0) as -> by lia. }
  apply IH; try done; try lia.
  intros x l' Hx. apply (Hcl (getbit key d :: x)).
  by rewrite node_at_cons, Hstep.
Qed.

Lemma lpm_from_None v q rest best :
  (∀ x, q `prefix_of` x → v x = None) → lpm_from v q rest best = best.
Proof.
  revert q best. induction rest as [|b rest IH]; intros q best Hv; cbn.
  - by rewrite Hv.
  - rewrite Hv by done. cbn. apply IH. intros x Hx. apply Hv.
    etrans; [|done]. by apply prefix_app_r.
Qed.

Lemma find_loop_spec (key mask : bytes) n :
  ∀ d s fl q val fuel,
    length key = length mask → d + n = 8 * length key → 0 < n → n ≤ fuel →
    wf s fl →
    find_loop fuel (heap s) key mask (d / 8) (cursor_bitmap d) (tree_at s q) val
    = Ret (if (length (path_from key mask d n) =? n)
              && is_blank (view s (q ++ path_from key mask d n))
           then None
           else lpm_from (view s) q (path_from key mask d n) val).
Proof.
  induction n as [|n IH]; intros d s fl q val fuel HL Hdn Hn Hfuel Hwf; [lia|].
  destruct fuel as [|fuel]; [lia|].
  rewrite find_loop_step by (done || lia).
  destruct (tree_at s q) as [l|] eqn:Hq.
  2:{ assert (∀ x, q `prefix_of` x → view s x = None) as Hnone.
      { intros x Hx. apply (view_None _ _ _ Hwf).
        by eapply tree_at_prefix_None. }
      rewrite Hnone by (by apply prefix_app_r). cbn [is_blank].
      rewrite andb_false_r. by rewrite lpm_from_None. }
  destruct (wf_closed _ _ Hwf _ _ Hq) as [nl Hnl].
  cbn [load]. rewrite Hnl. cbn [obind].
  assert (view s q = Some (value nl)) as Hvq.
  { unfold view. by rewrite Hq, Hnl. }
  assert ((if bool_decide (value nl ≠ None) then value nl else val)
          = pick (view s q) val) as ->.
  { rewrite Hvq. by destruct (value nl). }
  rewrite path_from_S. destruct (getbit mask d); cbn [negb]; [|done].
  set (b := getbit key d).
  pose proof (tree_at_child _ _ b _ _ Hq Hnl) as Hqb.
  destruct (Nat.eqb_spec (S d) (8 * length key)) as [Hend|Hend].
  - assert (n = 0) as -> by lia. cbn [path_from length Nat.eqb andb lpm_from].
    rewrite <- Hqb. destruct (tree_at s (q ++ [b])) as [l'|] eqn:Hl'.
    + destruct (wf_closed _ _ Hwf _ _ Hl') as [nl' Hnl'].
      cbn [load]. rewrite Hnl'. cbn [obind].
      assert (view s (q ++ [b]) = Some (value nl')) as ->.
      { unfold view. by rewrite Hl', Hnl'. }
      by destruct (value nl').
    + assert (view s (q ++ [b]) = None) as ->.
      { unfold view. by rewrite Hl'. }
      done.
  - rewrite <- Hqb. rewrite (IH (S d) s fl (q ++ [b])) by (done || lia).
    cbn [length lpm_from]. rewrite <- app_assoc. done.
Qed.

Lemma delete_trim_spec fuel :
  ∀ q b s fl l,
    wf s fl → tree_at s (q ++ [b]) = Some l → length q < fuel →
    ∃ s' fl' c,
      delete_trim fuel s (Some l) = Ret s' ∧ wf s' fl' ∧ root s' = root s ∧
      c ≠ [] ∧ c `prefix_of` (q ++ [b]) ∧
      (∀ x, tree_at s' x = if decide (c `prefix_of` x) then None
                           else tree_at s x) ∧
      (∀ x, view s' x = if decide (c `prefix_of` x) then None else view s x) ∧
      (∀ c0 bc, c = c0 ++ [bc] →
         c0 = [] ∨ (∃ a, view s' c0 = Some (Some a)) ∨
         (∃ b2, tree_at s' (c0 ++ [b2]) ≠ None)).
Proof.
  induction fuel as [|fuel IH]; intros q b s fl l Hwf Hl Hfuel; [lia|].
  destruct (unlink_spec s fl q b l Hwf Hl)
    as (lp & np & n & Hq & Hnp & Hn & Hwf1 & Htree1 & Hview1 & Hlp1 & Hcode).
  rewrite Hcode. clear Hcode. cbn zeta.
  set (s1 := mkSet _ _ _ _) in *. set (n' := set_child b None np) in *.
  assert (tree_at s1 q = Some lp) as Hq1.
  { rewrite Htree1, decide_False; [done|]. intros Hpre.
    apply prefix_length in Hpre. rewrite length_app in Hpre. cbn in Hpre. lia. }
  assert (∀ c0 bc, q ++ [b] = c0 ++ [bc] → c0 = q) as Hc0.
  { intros c0 bc Heq. by apply app_inj_tail in Heq as [-> _]. }
  destruct (bool_decide (right n' ≠ None) || bool_decide (left n' ≠ None)
            || bool_decide (value n' ≠ None)) eqn:Hkeep.
  { exists s1, (l :: fl), (q ++ [b]). split; [done|]. split; [done|].
    split; [done|]. split; [by destruct q|]. split; [done|].
    split; [done|]. split; [done|].
    intros c0 bc Heq. rewrite (Hc0 _ _ Heq). right.
    apply orb_true_iff in Hkeep as [Hkeep|Hv].
    - right. apply orb_true_iff in Hkeep as [Hr|Hr];
        apply bool_decide_eq_true in Hr.
      + exists true. by rewrite (tree_at_child _ _ true _ _ Hq1 Hlp1).
      + exists false. by rewrite (tree_at_child _ _ false _ _ Hq1 Hlp1).
    - left. apply bool_decide_eq_true in Hv.
      destruct (value n') as [a|] eqn:Ha; [|done]. exists a.
      unfold view. by rewrite Hq1, Hlp1, <- Ha. }
  assert (parent n' = parent np) as Hpar by (by destruct b).
  destruct (bool_decide (parent n' = None)) eqn:Hroot.
  { apply bool_decide_eq_true in Hroot. rewrite Hpar in Hroot.
    exists s1, (l :: fl), (q ++ [b]). split; [done|]. split; [done|].
    split; [done|]. split; [by destruct q|]. split; [done|].
    split; [done|]. split; [done|].
    intros c0 bc Heq. rewrite (Hc0 _ _ Heq). left.
    destruct q as [|b' q' _] using rev_ind; [done|]. exfalso.
    rewrite (wf_parent _ _ Hwf _ _ _ _ Hq Hnp) in Hroot.
    assert (q' `prefix_of` q' ++ [b']) as Hpre by (by apply prefix_app_r).
    destruct (tree_at_prefix_Some _ _ _ _ Hq Hpre) as [? ?]. congruence. }
  apply bool_decide_eq_false in Hroot. rewrite Hpar in Hroot.
  destruct q as [|b' q' _] using rev_ind.
  { exfalso. apply Hroot.
    destruct (wf_root _ _ Hwf) as (r & nr & Hr & Hnr & Hp).
    unfold tree_at in Hq. cbn in Hq. congruence. }
  rewrite length_app in Hfuel. cbn in Hfuel.
  destruct (IH q' b' s1 (l :: fl) lp Hwf1 Hq1)
    as (s' & fl' & c & -> & Hwf' & Hroot' & Hcne & Hcpre & Htree' & Hview' & Hkept);
    [lia|].
  assert (∀ x, (q' ++ [b']) ++ [b] `prefix_of` x → c `prefix_of` x) as Hsub.
  { intros x Hx. etrans; [done|]. etrans; [|done]. by apply prefix_app_r. }
  exists s', fl', c. split; [done|]. split; [done|]. split; [done|].
  split; [done|]. split; [|split; [|split; [|done]]].
  - etrans; [done|]. by apply prefix_app_r.
  - intros x. rewrite Htree', Htree1.
    destruct (decide (c `prefix_of` x)) as [|Hx]; [done|].
    rewrite decide_False; [done|]. intros Hp. by apply Hx, Hsub.
  - intros x. rewrite Hview', Hview1.
    destruct (decide (c `prefix_of` x)) as [|Hx]; [done|].
    rewrite decide_False; [done|]. intros Hp. by apply Hx, Hsub.
Qed.

End walks.

(** ** The operations, over views

    What each operation of the set returns and how it changes the nodes on
    the paths from the root. *)

Section operations.
Context {V : Type}.
Implicit Types (s : IPSet V) (q x : list bool) (fl : list loc).

Lemma pbits_unfold (key mask : bytes) :
  pbits key mask = path_from key mask 0 (8 * length key).
Proof. done. Qed.

Lemma NewSet_spec :
  ∃ s : IPSet V, NewSet = Ret s ∧ wf s [] ∧
    ∀ x, view s x = if decide (x = []) then Some None else None.
Proof.
  unfold NewSet, newNode. cbn [free pool len cap Nat.eqb obind blk root heap].
  eexists. split; [done|].
  set (s := mkSet _ _ _ _).
  assert (heap s !! (1, 0) = Some zero_node) as Hr.
  { cbn. rewrite alloc_block_lookup. cbn.
    rewrite decide_True; [done|]. pose proof ALLOC_LEN_pos. lia. }
  assert (∀ x, tree_at s x = if decide (x = []) then Some (1, 0) else None)
    as Htree.
  { apply (node_at_unique _ _
      (λ x, if decide (x = []) then Some (1, 0) else None)); [done|].
    intros y c. rewrite decide_False by (by destruct y).
    destruct (decide (y = [])) as [->|]; [|done].
    cbn [step]. rewrite Hr. by destruct c. }
  split.
  - split.
    + exists (1, 0), zero_node. done.
    + intros q l. rewrite Htree. destruct (decide (q = [])); [|done].
      intros [= <-]. eauto.
    + intros q q' l. rewrite !Htree.
      destruct (decide (q = [])), (decide (q' = [])); congruence.
    + intros q b l n. rewrite Htree. by rewrite decide_False by (by destruct q).
    + done.
    + constructor.
    + intros l q Hl. by apply elem_of_nil in Hl.
    + cbn. pose proof ALLOC_LEN_pos. lia.
    + intros i Hi. cbn in *. rewrite alloc_block_lookup. cbn.
      rewrite decide_True; [done|lia].
    + intros i _ Hl. by apply elem_of_nil in Hl.
    + intros i q Hi. rewrite Htree. cbn in *.
      destruct (decide (q = [])); [|done]. intros [= <-]. lia.
    + intros b i. cbn. rewrite alloc_block_lookup. cbn.
      destruct (decide (b = 1 ∧ i < ALLOC_LEN)) as [[-> _]|]; [lia|].
      rewrite lookup_empty. by intros [? ?].
  - intros x. unfold view. rewrite Htree.
    destruct (decide (x = [])); [|done]. by rewrite Hr.
Qed.

Lemma root_tree_at s fl : wf s fl → ∃ r, root s = Some r ∧ tree_at s [] = Some r.
Proof. intros Hwf. destruct (wf_root _ _ Hwf) as (r & n & Hr & _). eauto. Qed.

Lemma key_bits_pos (key : bytes) : key ≠ [] → 0 < 8 * length key.
Proof. destruct key; [done|]. cbn. lia. Qed.

(** *** insert *)

Lemma insert_spec s fl (key mask : bytes) (val : option V) overwrite :
  wf s fl → length key = length mask → key ≠ [] →
  (busy s key mask overwrite ∧
   insert s key mask val overwrite = Ret (Some ErrNodeBusy, s)) ∨
  (¬ busy s key mask overwrite ∧
   ∃ s' fl',
     insert s key mask val overwrite = Ret (None, s') ∧ wf s' fl' ∧
     ∀ x, view s' x =
          if decide (x = pbits key mask) then Some val
          else if decide (x `prefix_of` pbits key mask) then touch (view s x)
          else view s x).
Proof.
  intros Hwf HL Hkey. pose proof (key_bits_pos key Hkey) as Hpos.
  destruct (root_tree_at s fl Hwf) as (r & Hr & Hr0).
  unfold insert. rewrite HL, Nat.eqb_refl. cbn [negb].
  rewrite <- HL, Hr.
  pose proof (insert_descend_spec key mask (8 * length key) 0 s fl [] r
                (S (8 * length key)) HL eq_refl Hpos ltac:(lia) Hwf Hr0) as Hd.
  change (0 / 8) with 0 in Hd. change (cursor_bitmap 0) with START_BYTE in Hd.
  destruct Hd
    as [(i' & bm' & l' & -> & Hl')|(j & qj & lj & -> & Hj & Hqj & Hmj & Hnone & Heq)].
  - (* the node of the prefix exists *)
    cbn [obind app] in *. fold (pbits key mask) in Hl'.
    destruct (wf_closed _ _ Hwf _ _ Hl') as [nl Hnl].
    cbn [load]. rewrite Hnl. cbn [obind].
    assert (view s (pbits key mask) = Some (value nl)) as Hv.
    { unfold view. by rewrite Hl', Hnl. }
    destruct (bool_decide (value nl ≠ None) && negb overwrite) eqn:Hbusy.
    + left. split; [|done]. apply andb_true_iff in Hbusy as [Hv1 Hov].
      apply bool_decide_eq_true in Hv1. apply negb_true_iff in Hov.
      split; [done|]. rewrite Hv. destruct (value nl); [eauto|done].
    + right. split.
      { intros [-> (a & Ha)]. rewrite Hv in Ha. injection Ha as Ha.
        rewrite Ha in Hbusy. by rewrite bool_decide_true in Hbusy. }
      unfold store. rewrite Hnl. cbn [obind].
      destruct (wf_set_value s fl _ l' nl val Hwf Hl' Hnl)
        as (Hwf' & Htree' & Hview').
      eexists _, fl. split; [done|]. split; [done|].
      intros x. rewrite Hview'.
      destruct (decide (x = pbits key mask)); [done|].
      destruct (decide (x `prefix_of` pbits key mask)); [|done].
      symmetry. by eapply touch_view_prefix.
  - (* the path stops at [qj]: extend it *)
    cbn [obind app Nat.add] in *. fold (pbits key mask) in Heq.
    assert (tree_at s (pbits key mask) = None) as HP.
    { apply (tree_at_prefix_None _ _ _ Hnone). rewrite <- Heq.
      destruct (8 * length key - j) as [|k] eqn:Hk; [lia|].
      rewrite path_from_S, Hmj. by apply prefix_app, prefix_cons, prefix_nil. }
    destruct (insert_extend_spec key mask (8 * length key - j) j s fl qj lj
                (S (8 * length key)))
      as (s1 & l1 & fl1 & -> & Hwf1 & Hroot1 & Hl1 & Hview1);
      try done; try lia.
    cbn [obind]. rewrite Heq in Hl1, Hview1.
    destruct (wf_closed _ _ Hwf1 _ _ Hl1) as [nl Hnl].
    unfold store. rewrite Hnl. cbn [obind].
    destruct (wf_set_value s1 fl1 _ l1 nl val Hwf1 Hl1 Hnl)
      as (Hwf' & Htree' & Hview').
    right. split.
    { intros [_ (a & Ha)]. unfold view in Ha. by rewrite HP in Ha. }
    eexists _, fl1. split; [done|]. split; [done|].
    intros x. rewrite Hview', Hview1. done.
Qed.

(** *** find *)

Lemma find_spec s fl (key mask : bytes) :
  wf s fl → length key = length mask → key ≠ [] →
  find s key mask =
  Ret (if (length (pbits key mask) =? 8 * length key)
          && is_blank (view s (pbits key mask))
       then None else lpm (view s) (pbits key mask), None).
Proof.
  intros Hwf HL Hkey. pose proof (key_bits_pos key Hkey) as Hpos.
  destruct (root_tree_at s fl Hwf) as (r & Hr & Hr0).
  unfold find. rewrite HL, Nat.eqb_refl. cbn [negb]. rewrite <- HL.
  pose proof (find_loop_spec key mask (8 * length key) 0 s fl [] None
                (S (8 * length key)) HL eq_refl Hpos ltac:(lia) Hwf) as Hf.
  change (0 / 8) with 0 in Hf. change (cursor_bitmap 0) with START_BYTE in Hf.
  unfold tree_at in Hf. cbn [node_at foldl] in Hf. rewrite Hf. done.
Qed.

(** *** delete *)

Lemma childless_node s fl q l (n : node V) :
  wf s fl → tree_at s q = Some l → heap s !! l = Some n →
  bool_decide (right n ≠ None) || bool_decide (left n ≠ None) = false
  ↔ childless (view s) q.
Proof.
  intros Hwf Hq Hn.
  pose proof (tree_at_child _ _ true _ _ Hq Hn) as Ht.
  pose proof (tree_at_child _ _ false _ _ Hq Hn) as Hf.
  cbn [child] in Ht, Hf. rewrite orb_false_iff, !bool_decide_eq_false.
  split.
  - intros [Hr Hl] b. apply (view_None _ _ _ Hwf).
    destruct b; [rewrite Ht|rewrite Hf].
    + by destruct (right n); [destruct Hr|].
    + by destruct (left n); [destruct Hl|].
  - intros Hc. split; intros Hne; apply Hne.
    + rewrite <- Ht. apply (view_None _ _ _ Hwf), Hc.
    + rewrite <- Hf. apply (view_None _ _ _ Hwf), Hc.
Qed.

Lemma delete_descend_root s fl (key mask : bytes) :
  wf s fl → length key = length mask → key ≠ [] →
  delete_descend (S (8 * length key)) (heap s) key mask 0 START_BYTE (root s)
  = Ret (tree_at s (pbits key mask)).
Proof.
  intros Hwf HL Hkey. pose proof (key_bits_pos key Hkey) as Hpos.
  pose proof (delete_descend_spec key mask (heap s) (8 * length key) 0 (root s)
                (S (8 * length key)) HL eq_refl Hpos ltac:(lia)) as Hd.
  change (0 / 8) with 0 in Hd. change (cursor_bitmap 0) with START_BYTE in Hd.
  apply Hd. intros x l. apply (wf_closed _ _ Hwf).
Qed.

Lemma delete_missing s fl (key mask : bytes) sub :
  wf s fl → length key = length mask → key ≠ [] →
  view s (pbits key mask) = None →
  delete s key mask sub = Ret (Some ErrNotFound, s).
Proof.
  intros Hwf HL Hkey Hv. apply (view_None _ _ _ Hwf) in Hv.
  unfold delete. rewrite HL, Nat.eqb_refl. cbn [negb]. rewrite <- HL.
  rewrite (delete_descend_root s fl) by done. rewrite Hv. done.
Qed.

Lemma delete_clear s fl (key mask : bytes) a :
  wf s fl → length key = length mask → key ≠ [] →
  view s (pbits key mask) = Some (Some a) →
  ¬ childless (view s) (pbits key mask) →
  ∃ s', delete s key mask false = Ret (None, s') ∧ wf s' fl ∧
    ∀ x, view s' x = if decide (x = pbits key mask) then Some None
                     else view s x.
Proof.
  intros Hwf HL Hkey Hv Hch.
  apply view_Some_node in Hv as (l & n & Hl & Hn & Hval).
  unfold delete. rewrite HL, Nat.eqb_refl. cbn [negb]. rewrite <- HL.
  rewrite (delete_descend_root s fl) by done. rewrite Hl. cbn [obind load].
  rewrite Hn. cbn [obind negb andb].
  destruct (bool_decide (right n ≠ None) || bool_decide (left n ≠ None)) eqn:Hb.
  2:{ exfalso. apply Hch. by apply (childless_node s fl _ l n). }
  rewrite Hval, bool_decide_true by done. unfold store. rewrite Hn. cbn [obind].
  destruct (wf_set_value s fl _ l n None Hwf Hl Hn) as (Hwf' & _ & Hview').
  eauto.
Qed.

Lemma delete_blank s fl (key mask : bytes) :
  wf s fl → length key = length mask → key ≠ [] →
  view s (pbits key mask) = Some None →
  ¬ childless (view s) (pbits key mask) →
  delete s key mask false = Ret (Some ErrNotFound, s).
Proof.
  intros Hwf HL Hkey Hv Hch.
  apply view_Some_node in Hv as (l & n & Hl & Hn & Hval).
  unfold delete. rewrite HL, Nat.eqb_refl. cbn [negb]. rewrite <- HL.
  rewrite (delete_descend_root s fl) by done. rewrite Hl. cbn [obind load].
  rewrite Hn. cbn [obind negb andb].
  destruct (bool_decide (right n ≠ None) || bool_decide (left n ≠ None)) eqn:Hb.
  2:{ exfalso. apply Hch. by apply (childless_node s fl _ l n). }
  rewrite Hval. by rewrite bool_decide_false by (by intros ?).
Qed.

(** The trim loop starts by reading the parent of the node: on the root,
    whose parent is nil, that is a nil dereference. *)
Lemma delete_root_fault s fl (key mask : bytes) sub :
  wf s fl → length key = length mask → key ≠ [] →
  pbits key mask = [] →
  sub = true ∨ childless (view s) [] →
  delete s key mask sub = Fault NilDeref.
Proof.
  intros Hwf HL Hkey HP Hcase.
  destruct (wf_root _ _ Hwf) as (r & n & Hr & Hn & Hpar).
  assert (tree_at s [] = Some r) as Hr0 by done.
  unfold delete. rewrite HL, Nat.eqb_refl. cbn [negb]. rewrite <- HL.
  rewrite (delete_descend_root s fl) by done. rewrite HP, Hr0.
  cbn [obind load]. rewrite Hn. cbn [obind].
  assert (negb sub && (bool_decide (right n ≠ None)
                       || bool_decide (left n ≠ None)) = false) as ->.
  { destruct Hcase as [->|Hc]; [done|].
    apply (childless_node s fl _ r n Hwf Hr0 Hn) in Hc. rewrite Hc.
    apply andb_false_r. }
  cbn [delete_trim load]. rewrite Hn. cbn [obind]. rewrite Hpar. done.
Qed.

Lemma delete_trim_case s fl (key mask : bytes) sub :
  wf s fl → length key = length mask → key ≠ [] →
  pbits key mask ≠ [] → view s (pbits key mask) ≠ None →
  sub = true ∨ childless (view s) (pbits key mask) →
  ∃ s' fl' c,
    delete s key mask sub = Ret (None, s') ∧ wf s' fl' ∧
    c ≠ [] ∧ c `prefix_of` pbits key mask ∧
    (∀ x, view s' x = if decide (c `prefix_of` x) then None else view s x) ∧
    (∀ c0 bc, c = c0 ++ [bc] →
       c0 = [] ∨ (∃ a, view s' c0 = Some (Some a)) ∨
       ¬ childless (view s') c0).
Proof.
  intros Hwf HL Hkey HP Hv Hcase.
  destruct (view s (pbits key mask)) as [o|] eqn:Hvo; [|done].
  apply view_Some_node in Hvo as (l & n & Hl & Hn & Hval).
  unfold delete. rewrite HL, Nat.eqb_refl. cbn [negb]. rewrite <- HL.
  rewrite (delete_descend_root s fl) by done. rewrite Hl.
  cbn [obind load]. rewrite Hn. cbn [obind].
  assert (negb sub && (bool_decide (right n ≠ None)
                       || bool_decide (left n ≠ None)) = false) as ->.
  { destruct Hcase as [->|Hc]; [done|].
    apply (childless_node s fl _ l n Hwf Hl Hn) in Hc. rewrite Hc.
    apply andb_false_r. }
  destruct (pbits key mask) as [|b0 P0 _] eqn:HPeq using rev_ind; [done|].
  assert (length P0 < S (8 * length key)) as Hlen.
  { pose proof (path_from_length key mask 0 (8 * length key)) as Hle.
    fold (pbits key mask) in Hle. rewrite HPeq, length_app in Hle.
    cbn in Hle. lia. }
  destruct (delete_trim_spec (S (8 * length key)) P0 b0 s fl l Hwf Hl Hlen)
    as (s' & fl' & c & -> & Hwf' & Hroot' & Hc & Hcpre & Htree' & Hview' & Hkept).
  cbn [obind]. exists s', fl', c. split; [done|]. split; [done|].
  split; [done|]. split; [done|]. split; [done|].
  intros c0 bc Heq. destruct (Hkept c0 bc Heq) as [?|[?|[b2 Hb2]]]; auto.
  right. right. intros Hch. apply Hb2.
  apply (view_None _ _ _ Hwf'), Hch.
Qed.

(** *** The transitions of the view *)

Lemma insert_nil s (val : option V) overwrite :
  insert s [] [] val overwrite = Fault IndexOutOfRange.
Proof. done. Qed.

Lemma delete_nil s fl sub :
  wf s fl → delete s [] [] sub = Fault IndexOutOfRange.
Proof.
  intros Hwf. destruct (wf_root _ _ Hwf) as (r & n & Hr & _).
  unfold delete. cbn. by rewrite Hr.
Qed.

Lemma insert_cases s fl (key mask : bytes) ov overwrite e s' :
  wf s fl → insert s key mask ov overwrite = Ret (e, s') →
  (s' = s ∧ e ≠ None) ∨
  (e = None ∧ length key = length mask ∧ key ≠ [] ∧
   ¬ busy s key mask overwrite ∧
   ∃ fl', wf s' fl' ∧
     ∀ x, view s' x = vinsert (pbits key mask) ov (view s) x).
Proof.
  intros Hwf Hins.
  destruct (decide (length key = length mask)) as [HL|HL].
  2:{ unfold insert in Hins. apply Nat.eqb_neq in HL. rewrite HL in Hins.
      injection Hins as <- <-. by left. }
  destruct (decide (key = [])) as [->|Hkey].
  { destruct mask; [|done]. by rewrite insert_nil in Hins. }
  destruct (insert_spec s fl key mask ov overwrite Hwf HL Hkey)
    as [[Hb Heq]|[Hb (s1 & fl1 & Heq & Hwf1 & Hview)]];
    rewrite Heq in Hins; injection Hins as <- <-.
  - by left.
  - right. split_and!; try done. eauto.
Qed.

Lemma delete_cases s fl (key mask : bytes) sub e s' :
  wf s fl → delete s key mask sub = Ret (e, s') →
  (s' = s ∧ e ≠ None) ∨
  (e = None ∧ sub = false ∧ ¬ childless (view s) (pbits key mask) ∧
   (∃ a, view s (pbits key mask) = Some (Some a)) ∧ wf s' fl ∧
   ∀ x, view s' x = vclear (pbits key mask) (view s) x) ∨
  (e = None ∧ pbits key mask ≠ [] ∧
   ∃ fl' c, wf s' fl' ∧ c ≠ [] ∧ c `prefix_of` pbits key mask ∧
     (∀ x, view s' x = vcut c (view s) x) ∧ kept (view s') c).
Proof.
  intros Hwf Hdel.
  destruct (decide (length key = length mask)) as [HL|HL].
  2:{ unfold delete in Hdel. apply Nat.eqb_neq in HL. rewrite HL in Hdel.
      injection Hdel as <- <-. by left. }
  destruct (decide (key = [])) as [->|Hkey].
  { destruct mask; [|done]. by rewrite (delete_nil s fl) in Hdel. }
  assert (∃ o, view s (pbits key mask) = o) as [o Hv] by eauto.
  destruct o as [o|].
  2:{ rewrite (delete_missing s fl) in Hdel by done.
      injection Hdel as <- <-. by left. }
  assert (sub = true ∨ childless (view s) (pbits key mask) ∨
          (sub = false ∧ ¬ childless (view s) (pbits key mask))) as Hcase.
  { destruct sub; [by left|]. right.
    apply view_Some_node in Hv as (l & n & Hl & Hn & _).
    destruct (bool_decide (right n ≠ None) || bool_decide (left n ≠ None))
      eqn:Hb.
    - right. split; [done|]. intros Hc.
      apply (childless_node s fl _ l n Hwf Hl Hn) in Hc. congruence.
    - left. by apply (childless_node s fl _ l n Hwf Hl Hn). }
  assert (sub = true ∨ childless (view s) (pbits key mask) →
    (s' = s ∧ e ≠ None) ∨
    (e = None ∧ sub = false ∧ ¬ childless (view s) (pbits key mask) ∧
     (∃ a, view s (pbits key mask) = Some (Some a)) ∧ wf s' fl ∧
     ∀ x, view s' x = vclear (pbits key mask) (view s) x) ∨
    (e = None ∧ pbits key mask ≠ [] ∧
     ∃ fl' c, wf s' fl' ∧ c ≠ [] ∧ c `prefix_of` pbits key mask ∧
       (∀ x, view s' x = vcut c (view s) x) ∧ kept (view s') c)) as Htrim.
  { intros Hc. destruct (decide (pbits key mask = [])) as [HP|HP].
    - rewrite HP in Hc. rewrite (delete_root_fault s fl) in Hdel; done.
    - destruct (delete_trim_case s fl key mask sub Hwf HL Hkey HP)
        as (s1 & fl1 & c & Heq & Hwf1 & Hc1 & Hcpre & Hview & Hkept);
        [by rewrite Hv|done|].
      rewrite Heq in Hdel. injection Hdel as <- <-.
      right. right. split; [done|]. split; [done|]. exists fl1, c.
      exact (conj Hwf1 (conj Hc1 (conj Hcpre (conj Hview Hkept)))). }
  destruct Hcase as [Hs|[Hc|[-> Hc]]];
    [apply Htrim; by left|apply Htrim; by right|].
  destruct o as [a|].
  - destruct (delete_clear s fl key mask a Hwf HL Hkey Hv Hc)
      as (s1 & Heq & Hwf1 & Hview).
    rewrite Heq in Hdel. injection Hdel as <- <-.
    right. left. split_and!; eauto.
  - rewrite (delete_blank s fl) in Hdel by done.
    injection Hdel as <- <-. by left.
Qed.

End operations.

(** ** Sequences of operations *)

Section traces.
Context {V : Type}.
Implicit Types (s : IPSet V) (q x : list bool) (fl : list loc).
Implicit Types (v : list bool → option (option V)) (ov : option V).
Implicit Types (hist ops : list (op V)) (o : op V).

Lemma run_app ops ops' s :
  run (ops ++ ops') s = let* s' := run ops s in run ops' s'.
Proof.
  revert s. induction ops as [|o ops IH]; intros s; [done|].
  cbn [app run]. destruct (exec o s) as [[e s1]|]; [|done]. cbn [obind].
  apply IH.
Qed.

Lemma exec_wf o s fl e s' :
  wf s fl → exec o s = Ret (e, s') → ∃ fl', wf s' fl'.
Proof.
  intros Hwf Hex. destruct o as [c val|c val|c|c]; cbn [exec] in Hex.
  - apply (insert_cases s fl) in Hex as [[-> _]|(_ & _ & _ & _ & fl' & ? & _)];
      eauto.
  - apply (insert_cases s fl) in Hex as [[-> _]|(_ & _ & _ & _ & fl' & ? & _)];
      eauto.
  - apply (delete_cases s fl) in Hex
      as [[-> _]|[(_ & _ & _ & _ & ? & _)|(_ & _ & fl' & c0 & ? & _)]]; eauto.
  - apply (delete_cases s fl) in Hex
      as [[-> _]|[(_ & _ & _ & _ & ? & _)|(_ & _ & fl' & c0 & ? & _)]]; eauto.
Qed.

Lemma run_wf ops : ∀ s fl s', wf s fl → run ops s = Ret s' → ∃ fl', wf s' fl'.
Proof.
  induction ops as [|o ops IH]; intros s fl s' Hwf Hrun.
  - injection Hrun as <-. eauto.
  - cbn [run] in Hrun. destruct (exec o s) as [[e s1]|] eqn:Hex; [|done].
    destruct (exec_wf _ _ _ _ _ Hwf Hex) as [fl1 Hwf1]. by eapply IH.
Qed.

Lemma reachable_wf s : reachable s → ∃ fl, wf s fl.
Proof.
  intros [ops Hrun]. unfold run_new in Hrun.
  destruct (@NewSet_spec V) as (s0 & Hnew & Hwf0 & _).
  rewrite Hnew in Hrun. by eapply run_wf.
Qed.

(** *** Views after a transition *)

Lemma vinsert_child P ov v q :
  q `prefix_of` P → q ≠ P → ¬ childless (vinsert P ov v) q.
Proof.
  intros [k ->] Hne Hc. destruct k as [|b k]; [by rewrite app_nil_r in Hne|].
  specialize (Hc b). unfold vinsert in Hc.
  destruct (decide (q ++ [b] = q ++ b :: k)); [done|].
  rewrite decide_True in Hc; [done|].
  exists k. by rewrite <- app_assoc.
Qed.

Lemma vinsert_other P ov v q :
  ¬ q `prefix_of` P → vinsert P ov v q = v q.
Proof.
  intros Hq. unfold vinsert. rewrite decide_False by (by intros ->).
  by rewrite decide_False.
Qed.

Lemma vinsert_other_child P ov v q (b : bool) :
  ¬ q `prefix_of` P → vinsert P ov v (q ++ [b]) = v (q ++ [b]).
Proof.
  intros Hq. apply vinsert_other. intros Hp. apply Hq.
  etrans; [|done]. by apply prefix_app_r.
Qed.

Lemma vcut_child c v q (b : bool) :
  ¬ c `prefix_of` q → c ≠ q ++ [b] → vcut c v (q ++ [b]) = v (q ++ [b]).
Proof.
  intros Hq Hne. unfold vcut. rewrite decide_False; [done|].
  intros Hp. destruct c as [|bc c0 _] using rev_ind.
  - apply Hq, prefix_nil.
  - apply prefix_snoc_inv in Hp as [?|[-> ->]]; done.
Qed.

Lemma I2_vinsert P (a : V) v : I2 v → I2 (vinsert P (Some a) v).
Proof.
  intros HI q Hq Hv.
  destruct (decide (q `prefix_of` P)) as [Hpre|Hpre].
  - apply vinsert_child; [done|]. intros ->. unfold vinsert in Hv.
    by rewrite decide_True in Hv.
  - rewrite vinsert_other in Hv by done. intros Hc.
    apply (HI q Hq Hv). intros b. rewrite <- (Hc b).
    by rewrite vinsert_other_child.
Qed.

Lemma I2_vclear P v : I2 v → ¬ childless v P → I2 (vclear P v).
Proof.
  intros HI HP q Hq Hv Hc.
  assert (∀ b : bool, v (q ++ [b]) = None) as Hc'.
  { intros b. specialize (Hc b). unfold vclear in Hc.
    by destruct (decide (q ++ [b] = P)). }
  unfold vclear in Hv. destruct (decide (q = P)) as [->|]; [done|].
  by apply (HI q).
Qed.

Lemma I2_vcut c v v' :
  I2 v → (∀ x, v' x = vcut c v x) → kept v' c → I2 v'.
Proof.
  intros HI Hv' Hkept q Hq Hv Hc. rewrite Hv' in Hv. unfold vcut in Hv.
  destruct (decide (c `prefix_of` q)) as [|Hcq]; [done|].
  apply (HI q Hq Hv). intros b.
  destruct (decide (c = q ++ [b])) as [Heq|Hne].
  - destruct (Hkept q b Heq) as [?|[[a Ha]|Hnc]]; [done| |done].
    rewrite Hv' in Ha. unfold vcut in Ha. rewrite decide_False in Ha by done.
    congruence.
  - rewrite <- (vcut_child c v q b Hcq Hne), <- Hv'. apply Hc.
Qed.

Lemma I2_ext v v' : (∀ x, v' x = v x) → I2 v → I2 v'.
Proof.
  intros Hext HI q Hq Hv Hc. rewrite Hext in Hv. apply (HI q Hq Hv).
  intros b. rewrite <- Hext. apply Hc.
Qed.

Lemma exec_I2 o s fl e s' :
  wf s fl → I2 (view s) → payload_present o → exec o s = Ret (e, s') →
  I2 (view s').
Proof.
  intros Hwf HI Hpay Hex.
  assert (∀ (key mask : bytes) (a : V) ow,
    insert s key mask (Some a) ow = Ret (e, s') → I2 (view s')) as Hins.
  { intros key mask a ow Hi.
    apply (insert_cases s fl) in Hi
      as [[-> _]|(_ & _ & _ & _ & fl' & _ & Hview)]; [done| |done].
    eapply I2_ext; [exact Hview|]. by apply I2_vinsert. }
  assert (∀ (key mask : bytes) sub,
    delete s key mask sub = Ret (e, s') → I2 (view s')) as Hdel.
  { intros key mask sub Hd.
    apply (delete_cases s fl) in Hd
      as [[-> _]|[(_ & _ & Hc & _ & _ & Hview)|(_ & _ & fl' & c & _ & _ & _ & Hview & Hk)]];
      [done| | |done].
    - eapply I2_ext; [exact Hview|]. by apply I2_vclear.
    - by eapply I2_vcut. }
  destruct o as [c [a|]|c [a|]|c|c]; cbn [exec payload_present] in *;
    try done; eauto.
Qed.

Lemma I2_new s : @NewSet V = Ret s → I2 (view s).
Proof.
  intros Hnew. destruct (@NewSet_spec V) as (s0 & Hnew0 & _ & Hview).
  rewrite Hnew in Hnew0. injection Hnew0 as <-.
  intros q Hq Hv. rewrite Hview in Hv. by rewrite decide_False in Hv.
Qed.

Lemma run_I2 ops : ∀ s fl s',
  wf s fl → I2 (view s) → Forall payload_present ops → run ops s = Ret s' →
  I2 (view s').
Proof.
  induction ops as [|o ops IH]; intros s fl s' Hwf HI Hpay Hrun.
  - by injection Hrun as <-.
  - cbn [run] in Hrun. destruct (exec o s) as [[e s1]|] eqn:Hex; [|done].
    apply Forall_cons in Hpay as [Ho Hpay].
    destruct (exec_wf _ _ _ _ _ Hwf Hex) as [fl1 Hwf1].
    eapply (IH s1 fl1); try done. exact (exec_I2 _ _ _ _ _ Hwf HI Ho Hex).
Qed.

(** *** Values and leaves sit at inserted prefixes *)

Lemma inserted_app_l hist ops q : inserted hist q → inserted (hist ++ ops) q.
Proof. intros (o & Ho & Hp). exists o. split; [|done]. set_solver. Qed.

Lemma inserted_last hist o q : op_prefix o = Some q → inserted (hist ++ [o]) q.
Proof. intros Hp. exists o. split; [|done]. set_solver. Qed.

Lemma J_mono v hist ops : J v hist → J v (hist ++ ops).
Proof. intros HJ q o Hq Hv Hc. by eapply inserted_app_l, HJ. Qed.

Lemma J_ext v v' hist : (∀ x, v' x = v x) → J v hist → J v' hist.
Proof.
  intros Hext HJ q o Hq Hv Hc. rewrite Hext in Hv. apply (HJ q o Hq Hv).
  destruct Hc as [?|Hc]; [by left|right]. intros b. rewrite <- Hext. apply Hc.
Qed.

Lemma J_vinsert P ov v hist :
  J v hist → inserted hist P → J (vinsert P ov v) hist.
Proof.
  intros HJ HP q o Hq Hv Hc.
  destruct (decide (q = P)) as [->|Hne]; [done|].
  destruct (decide (q `prefix_of` P)) as [Hpre|Hpre].
  - destruct Hc as [Ho|Hc]; [|by apply vinsert_child in Hc].
    unfold vinsert in Hv. rewrite decide_False, decide_True in Hv by done.
    injection Hv as Hv. destruct (v q) as [o'|] eqn:Hvq; [|by subst].
    cbn in Hv. subst o'. apply (HJ q o Hq Hvq). by left.
  - rewrite vinsert_other in Hv by done. apply (HJ q o Hq Hv).
    destruct Hc as [?|Hc]; [by left|right]. intros b.
    rewrite <- (Hc b). by rewrite vinsert_other_child.
Qed.

Lemma J_vclear P v hist : J v hist → ¬ childless v P → J (vclear P v) hist.
Proof.
  intros HJ HP q o Hq Hv Hc.
  assert (childless (vclear P v) q → childless v q) as Hch.
  { intros Hc' b. specialize (Hc' b). unfold vclear in Hc'.
    by destruct (decide (q ++ [b] = P)). }
  unfold vclear in Hv. destruct (decide (q = P)) as [->|Hne].
  - injection Hv as <-. destruct Hc as [?|Hc]; [done|]. by apply Hch in Hc.
  - apply (HJ q o Hq Hv). destruct Hc as [?|Hc]; [by left|right]. by apply Hch.
Qed.

Lemma J_vcut c v v' hist :
  J v hist → (∀ x, v' x = vcut c v x) → kept v' c → J v' hist.
Proof.
  intros HJ Hv' Hkept q o Hq Hv Hc.
  pose proof Hv as Hvq. rewrite Hv' in Hvq. unfold vcut in Hvq.
  destruct (decide (c `prefix_of` q)) as [|Hcq]; [done|].
  apply (HJ q o Hq Hvq). destruct Hc as [?|Hc]; [by left|].
  destruct (decide (o = None)) as [->|Ho]; [|by left]. right. intros b.
  destruct (decide (c = q ++ [b])) as [Heq|Hne].
  - destruct (Hkept q b Heq) as [?|[[a Ha]|Hnc]]; [done|congruence|done].
  - rewrite <- (vcut_child c v q b Hcq Hne), <- Hv'. apply Hc.
Qed.

Lemma exec_J o s fl hist e s' :
  wf s fl → J (view s) hist → exec o s = Ret (e, s') →
  J (view s') (hist ++ [o]).
Proof.
  intros Hwf HJ Hex.
  assert (∀ (key mask : bytes) ov ow,
    op_prefix o = (if decide (length key = length mask)
                   then Some (pbits key mask) else None) →
    insert s key mask ov ow = Ret (e, s') → J (view s') (hist ++ [o])) as Hins.
  { intros key mask ov ow Hop Hi.
    apply (insert_cases s fl) in Hi
      as [[-> _]|(_ & HL & _ & _ & fl' & _ & Hview)]; [by apply J_mono| |done].
    eapply J_ext; [exact Hview|]. rewrite decide_True in Hop by done.
    apply J_vinsert; [by apply J_mono|by apply inserted_last]. }
  assert (∀ (key mask : bytes) sub,
    delete s key mask sub = Ret (e, s') → J (view s') (hist ++ [o])) as Hdel.
  { intros key mask sub Hd.
    apply (delete_cases s fl) in Hd
      as [[-> _]|[(_ & _ & Hc & _ & _ & Hview)|(_ & _ & fl' & c & _ & _ & _ & Hview & Hk)]];
      [by apply J_mono| | |done].
    - eapply J_ext; [exact Hview|]. apply J_vclear; [by apply J_mono|done].
    - eapply J_vcut; [by apply J_mono| |]; done. }
  destruct o as [c val|c val|c|c]; cbn [exec] in Hex; eauto.
Qed.

Lemma run_J ops : ∀ s fl hist s',
  wf s fl → J (view s) hist → run ops s = Ret s' → J (view s') (hist ++ ops).
Proof.
  induction ops as [|o ops IH]; intros s fl hist s' Hwf HJ Hrun.
  - injection Hrun as <-. by rewrite app_nil_r.
  - cbn [run] in Hrun. destruct (exec o s) as [[e s1]|] eqn:Hex; [|done].
    destruct (exec_wf _ _ _ _ _ Hwf Hex) as [fl1 Hwf1].
    replace (hist ++ o :: ops) with ((hist ++ [o]) ++ ops)
      by (by rewrite <- app_assoc).
    apply (IH s1 fl1); [done| |done]. exact (exec_J _ _ _ _ _ _ Hwf HJ Hex).
Qed.

Lemma J_new s : @NewSet V = Ret s → J (view s) [].
Proof.
  intros Hnew. destruct (@NewSet_spec V) as (s0 & Hnew0 & _ & Hview).
  rewrite Hnew in Hnew0. injection Hnew0 as <-.
  intros q o Hq Hv. rewrite Hview in Hv. by rewrite decide_False in Hv.
Qed.

End traces.

(** ** The longest match *)

Section matching.
Context {V : Type}.
Implicit Types (s : IPSet V) (q x P : list bool).
Implicit Types (v : list bool → option (option V)) (best : option V).

Lemma lpm_from_spec v rest : ∀ q best,
  (∃ j a, j ≤ length rest ∧ v (q ++ take j rest) = Some (Some a) ∧
     lpm_from v q rest best = Some a ∧
     ∀ j' a', j' ≤ length rest → v (q ++ take j' rest) = Some (Some a') →
              j' ≤ j) ∨
  (lpm_from v q rest best = best ∧
   ∀ j a, j ≤ length rest → v (q ++ take j rest) ≠ Some (Some a)).
Proof.
  induction rest as [|b rest IH]; intros q best.
  - cbn [lpm_from length]. destruct (v q) as [[a|]|] eqn:Hq.
    + left. exists 0, a. cbn. rewrite app_nil_r. split_and!; done || lia.
    + right. split; [done|]. intros j a _. rewrite take_nil, app_nil_r.
      by rewrite Hq.
    + right. split; [done|]. intros j a _. rewrite take_nil, app_nil_r.
      by rewrite Hq.
  - cbn [lpm_from length].
    assert (∀ j, q ++ take (S j) (b :: rest) = (q ++ [b]) ++ take j rest)
      as Htake by (intros j; by rewrite <- app_assoc).
    destruct (IH (q ++ [b]) (pick (v q) best))
      as [(j & a & Hj & Hv & Hl & Hmax)|[Hl Hnone]].
    + left. exists (S j), a. rewrite Htake. split_and!; try done; [lia|].
      intros [|j'] a' Hj' Hv'; [lia|]. rewrite Htake in Hv'.
      apply le_n_S. eapply Hmax; [|done]. lia.
    + destruct (v q) as [[a|]|] eqn:Hq.
      * left. exists 0, a. cbn [take]. rewrite app_nil_r.
        split_and!; try done; [lia|].
        intros [|j'] a' Hj' Hv'; [lia|]. rewrite Htake in Hv'.
        exfalso. eapply Hnone; [|done]. lia.
      * right. split; [done|]. intros [|j] a Hj.
        -- cbn [take]. rewrite app_nil_r. by rewrite Hq.
        -- rewrite Htake. apply Hnone. lia.
      * right. split; [done|]. intros [|j] a Hj.
        -- cbn [take]. rewrite app_nil_r. by rewrite Hq.
        -- rewrite Htake. apply Hnone. lia.
Qed.

Lemma prefix_as_take x P :
  x `prefix_of` P → x = take (length x) P ∧ length x ≤ length P.
Proof.
  intros [k ->]. rewrite take_app_length, length_app. split; [done|lia].
Qed.

(** [lpm] returns the value at the longest prefix of [P] that has one. *)
Lemma lpm_spec v P :
  match lpm v P with
  | Some a =>
    ∃ x, x `prefix_of` P ∧ v x = Some (Some a) ∧
      ∀ y a', y `prefix_of` P → v y = Some (Some a') → length y ≤ length x
  | None => ∀ x a, x `prefix_of` P → v x ≠ Some (Some a)
  end.
Proof.
  unfold lpm.
  destruct (lpm_from_spec v P [] None)
    as [(j & a & Hj & Hv & -> & Hmax)|[-> Hnone]]; cbn [app] in *.
  - exists (take j P). split; [apply prefix_take|]. split; [done|].
    intros y a' Hy Hvy. apply prefix_as_take in Hy as [Hy Hle].
    rewrite Hy in Hvy. rewrite length_take. specialize (Hmax _ _ Hle Hvy). lia.
  - intros x a Hx. apply prefix_as_take in Hx as [Hx Hle]. rewrite Hx.
    by apply Hnone.
Qed.

Lemma lpm_self v P a : v P = Some (Some a) → lpm v P = Some a.
Proof.
  intros HP. pose proof (lpm_spec v P) as Hs.
  destruct (lpm v P) as [a'|].
  - destruct Hs as (x & Hx & Hvx & Hmax).
    specialize (Hmax P a (reflexivity P) HP).
    assert (x = P) as ->.
    { destruct Hx as [k ->]. rewrite length_app in Hmax.
      destruct k; [by rewrite app_nil_r|cbn in Hmax; lia]. }
    congruence.
  - by specialize (Hs P a (reflexivity P)).
Qed.

Lemma lpm_only v P Q a :
  Q `prefix_of` P → v Q = Some (Some a) →
  (∀ x a', x `prefix_of` P → v x = Some (Some a') → x = Q) →
  lpm v P = Some a.
Proof.
  intros HQ Hv Hone. pose proof (lpm_spec v P) as Hs.
  destruct (lpm v P) as [a'|].
  - destruct Hs as (x & Hx & Hvx & _). rewrite (Hone _ _ Hx Hvx) in Hvx.
    congruence.
  - by specialize (Hs Q a HQ).
Qed.

Lemma lpm_none v P :
  (∀ x a, x `prefix_of` P → v x ≠ Some (Some a)) → lpm v P = None.
Proof.
  intros Hnone. pose proof (lpm_spec v P) as Hs.
  destruct (lpm v P) as [a'|]; [|done].
  destruct Hs as (x & Hx & Hvx & _). by apply Hnone in Hvx.
Qed.

Lemma lpm_from_ext v v' rest : ∀ q best,
  (∀ x b, pick (v x) b = pick (v' x) b) →
  lpm_from v q rest best = lpm_from v' q rest best.
Proof.
  induction rest as [|b rest IH]; intros q best Hext; cbn [lpm_from].
  - apply Hext.
  - rewrite Hext. by apply IH.
Qed.

End matching.

(** ** Full masks *)

Lemma getbit_full L d : d < 8 * L → getbit (replicate L 255%Z) d = true.
Proof.
  intros Hd. unfold getbit.
  assert (d / 8 < L) as Hlt by (apply Nat.Div0.div_lt_upper_bound; lia).
  rewrite lookup_replicate_2 by done.
  assert (d mod 8 < 8) as Hm by (apply Nat.mod_upper_bound; lia).
  destruct (d mod 8) as [|[|[|[|[|[|[|[|k]]]]]]]]; try reflexivity; lia.
Qed.

Lemma path_from_full (key : bytes) L n : ∀ d,
  d + n ≤ 8 * L →
  path_from key (replicate L 255%Z) d n = map (getbit key) (seq d n).
Proof.
  induction n as [|n IH]; intros d Hd; [done|].
  rewrite path_from_S, getbit_full by lia. cbn [seq map]. f_equal.
  apply IH. lia.
Qed.

Lemma pbits_full (ip : bytes) :
  pbits ip (replicate (length ip) 255%Z) = addr_bits ip.
Proof. unfold pbits, addr_bits. by apply path_from_full. Qed.

Lemma addr_bits_length (ip : bytes) : length (addr_bits ip) = 8 * length ip.
Proof. unfold addr_bits. by rewrite length_map, length_seq. Qed.

Lemma pbits_length (key mask : bytes) : length (pbits key mask) ≤ 8 * length key.
Proof. apply path_from_length. Qed.

(** ** The properties of the specification *)

Section claims.
Context {V : Type}.
Implicit Types (s : IPSet V) (q x : list bool) (fl : list loc).
Implicit Types (v : list bool → option (option V)) (ov : option V).
Implicit Types (M : gmap (list bool) V).

Lemma find_no_bad_ip s (key mask : bytes) r :
  length key = length mask → find s key mask ≠ Ret (r, Some ErrBadIP).
Proof.
  intros HL. unfold find. rewrite HL, Nat.eqb_refl. cbn [negb].
  by destruct (find_loop _ _ _ _ _ _ _ _).
Qed.

Lemma find_bad_ip s (key mask : bytes) :
  length key ≠ length mask → find s key mask = Ret (None, Some ErrBadIP).
Proof. intros HL. unfold find. apply Nat.eqb_neq in HL. by rewrite HL. Qed.

(** C7. Every operation answers ErrBadIP, before any traversal and with
    the structure unchanged, when the address and the mask differ in
    length; GetByIP answers ErrBadIP exactly when the address has neither
    4 nor 16 bytes. *)
Theorem bad_address s (key mask : bytes) (val : option V)
    (overwrite sub : bool) :
  length key ≠ length mask →
  insert s key mask val overwrite = Ret (Some ErrBadIP, s) ∧
  delete s key mask sub = Ret (Some ErrBadIP, s) ∧
  find s key mask = Ret (None, Some ErrBadIP) ∧
  Add s (mkIPNet key mask) val = Ret (Some ErrBadIP, s) ∧
  Set_ s (mkIPNet key mask) val = Ret (Some ErrBadIP, s) ∧
  Remove s (mkIPNet key mask) = Ret (Some ErrBadIP, s) ∧
  Sub s (mkIPNet key mask) = Ret (Some ErrBadIP, s) ∧
  Get s (mkIPNet key mask) = Ret (None, Some ErrBadIP) ∧
  ∀ ip : bytes,
    (∃ r, GetByIP s ip = Ret (r, Some ErrBadIP)) ↔
    (length ip ≠ IPv4len ∧ length ip ≠ IPv6len).
Proof.
  intros HL. pose proof HL as HL'. apply Nat.eqb_neq in HL'.
  unfold Add, Set_, Remove, Sub, Get. cbn [IP Mask].
  unfold insert, delete. rewrite HL'. cbn [negb].
  split_and!; try done; try by apply find_bad_ip.
  intros ip. unfold GetByIP. split.
  - intros [r Hr]. destruct (Nat.eqb_spec (length ip) IPv4len) as [H4|H4].
    + by apply find_no_bad_ip in Hr.
    + split; [done|]. intros H16. by apply find_no_bad_ip in Hr.
  - intros [H4 H16]. exists None. apply Nat.eqb_neq in H4. rewrite H4.
    by apply find_bad_ip.
Qed.

Lemma arena_ok_wf s fl : wf s fl → arena_ok s.
Proof.
  intros Hwf. split; [apply (wf_pool_le _ _ Hwf)|].
  split; [apply (wf_pool_zero _ _ Hwf)|].
  intros l Hl. apply (flist_lookup _ _ _ _ (wf_free _ _ Hwf)).
  pose proof (wf_free _ _ Hwf) as Hfl. rewrite Hl in Hfl.
  destruct fl as [|l' fl']; [done|]. destruct Hfl as [[= <-] _]. left.
Qed.

Lemma arena_ok_reachable s : reachable s → arena_ok s.
Proof. intros Hr. destruct (reachable_wf s Hr) as [fl Hwf]. by eapply arena_ok_wf. Qed.

(** The set of [NewSet] before its call of [newNode]. *)
Lemma arena_ok_empty : arena_ok (mkSet (V:=V) None None (mkSlice 0 0 0) ∅).
Proof. split; [done|]. split; [|done]. cbn. intros i Hi. lia. Qed.

(** C9. Wherever [newNode] is called (the slots of the pool block past its
    length still zeroed as [make] left them and the head of the free list
    an allocated node, as in every reachable state, between the iterations
    of an insertion and in [NewSet]), it returns, and the node it hands out
    has its left, right and parent links and its value cleared; when the
    free list is not empty that node is the head of the free list, a node
    an earlier deletion released. *)
Theorem newNode_cleared s :
  arena_ok s →
  ∃ (p : loc) s',
    newNode s = Ret (p, s') ∧
    heap s' !! p = Some (mkNode None None None None) ∧
    (∀ p0, free s = Some p0 → p = p0).
Proof.
  intros (Hle & Hzero & Hfree). unfold newNode.
  destruct (free s) as [p0|] eqn:Hf.
  - destruct (Hfree p0 eq_refl) as [n Hn].
    unfold load, store. rewrite Hn. cbn [obind heap]. rewrite Hn. cbn [obind].
    rewrite !lookup_insert_eq. cbn [obind]. rewrite !lookup_insert_eq.
    cbn [obind]. rewrite !lookup_insert_eq. cbn [obind].
    eexists _, _. split; [done|]. split.
    + cbn [heap set_heap]. by rewrite lookup_insert_eq.
    + by intros p [= <-].
  - destruct (Nat.eqb_spec (len (pool s)) (cap (pool s))) as [Hfull|Hroom].
    + eexists _, _. split; [done|]. split; [|done]. cbn [heap].
      rewrite alloc_block_lookup. cbn [fst snd].
      rewrite decide_True; [done|]. pose proof ALLOC_LEN_pos. lia.
    + eexists _, _. split; [done|]. split; [|done]. cbn [heap].
      apply Hzero. lia.
Qed.

Lemma run_new_inv ops s :
  run_new ops = Ret s → ∃ fl, wf s fl ∧ J (view s) ops.
Proof.
  unfold run_new. intros Hrun.
  destruct (@NewSet_spec V) as (s0 & Hnew & Hwf0 & _).
  rewrite Hnew in Hrun. cbn [obind] in Hrun.
  destruct (run_wf _ _ _ _ Hwf0 Hrun) as [fl Hwf]. exists fl. split; [done|].
  apply (run_J ops s0 [] [] s Hwf0); [by apply J_new|done].
Qed.

Lemma run_new_I2 ops s :
  Forall payload_present ops → run_new ops = Ret s → I2 (view s).
Proof.
  unfold run_new. intros Hpay Hrun.
  destruct (@NewSet_spec V) as (s0 & Hnew & Hwf0 & _).
  rewrite Hnew in Hrun. cbn [obind] in Hrun.
  apply (run_I2 ops s0 [] s Hwf0); [by apply I2_new|done|done].
Qed.


(** C8, for payloads that are not nil. After every sequence of Add, Set,
    Remove and Sub whose payloads are not nil, every node reachable from
    the root other than the root itself that has no child has a value. *)
Theorem cleanup_invariant (ops : list (op V)) s q (l : loc) (n : node V) :
  Forall payload_present ops → run_new ops = Ret s →
  q ≠ [] → tree_at s q = Some l → heap s !! l = Some n →
  left n = None → right n = None →
  value n ≠ None.
Proof.
  intros Hpay Hrun Hq Hl Hn Hleft Hright Hval.
  destruct (run_new_inv ops s Hrun) as (fl & Hwf & _).
  pose proof (run_new_I2 ops s Hpay Hrun) as HI.
  apply (HI q Hq).
  - unfold view. by rewrite Hl, Hn, <- Hval.
  - intros b. apply (view_None _ _ _ Hwf).
    rewrite (tree_at_child _ _ b _ _ Hl Hn). by destruct b.
Qed.

Lemma delete_not_found_unchanged s (key mask : bytes) sub s' :
  delete s key mask sub = Ret (Some ErrNotFound, s') → s' = s.
Proof.
  unfold delete. destruct (negb (length key =? length mask)); [done|].
  destruct (delete_descend _ _ _ _ _ _ _) as [[l|]|]; cbn [obind]; [| |done].
  2:{ by intros [= <-]. }
  destruct (load (heap s) (Some l)) as [n|]; cbn [obind]; [|done].
  destruct (negb sub && _).
  - destruct (bool_decide (value n ≠ None)).
    + by destruct (store _ _ _).
    + by intros [= <-].
  - by destruct (delete_trim _ _ _).
Qed.

(** C2, for [Remove], and for [Sub] where no node exists. In every
    reachable state, [Remove] of a prefix of non-zero length that was
    never inserted fails with ErrNotFound and leaves the structure as it
    was; [Sub] of such a prefix does so when the tree has no node at the
    prefix, and succeeds when it has one (a branch point of longer
    prefixes); and whenever the deletion of any prefix answers
    ErrNotFound the structure is the one it was given. *)
Theorem remove_not_found (ops : list (op V)) s (c : IPNet) :
  run_new ops = Ret s →
  length (IP c) = length (Mask c) → IP c ≠ [] →
  pbits (IP c) (Mask c) ≠ [] →
  ¬ inserted ops (pbits (IP c) (Mask c)) →
  Remove s c = Ret (Some ErrNotFound, s) ∧
  (tree_at s (pbits (IP c) (Mask c)) = None →
   Sub s c = Ret (Some ErrNotFound, s)) ∧
  (tree_at s (pbits (IP c) (Mask c)) ≠ None →
   ∃ s', Sub s c = Ret (None, s')) ∧
  (∀ (key mask : bytes) sub s',
     delete s key mask sub = Ret (Some ErrNotFound, s') → s' = s).
Proof.
  intros Hrun HL Hkey HP Hnever.
  destruct (run_new_inv ops s Hrun) as (fl & Hwf & HJ).
  unfold Remove, Sub. split_and!.
  - destruct (view s (pbits (IP c) (Mask c))) as [o|] eqn:Hv.
    + assert (o = None ∧ ¬ childless (view s) (pbits (IP c) (Mask c)))
        as [-> Hch].
      { split.
        - destruct o as [a|]; [|done]. exfalso. apply Hnever.
          apply (HJ _ _ HP Hv). by left.
        - intros Hch. apply Hnever. apply (HJ _ _ HP Hv). by right. }
      by apply (delete_blank s fl).
    + by apply (delete_missing s fl).
  - intros Hnone. apply (delete_missing s fl); try done.
    by apply (view_None _ _ _ Hwf).
  - intros Hsome.
    destruct (delete_trim_case s fl (IP c) (Mask c) true Hwf HL Hkey HP)
      as (s' & fl' & c0 & Heq & _); [|by left|by eauto].
    intros Hv. by apply (view_None _ _ _ Hwf) in Hv.
  - intros key mask sub s'. apply delete_not_found_unchanged.
Qed.

(** C10, away from full-length lookups. In every reachable state and for
    every prefix that holds no value: [Add] of the prefix with a nil
    payload succeeds and stores no value, so a later [Add] of the prefix
    with any payload succeeds too; every lookup returns what it returned
    before, except one whose walk ends, at the full length of its
    address, on the path of the prefix; and [Remove] of the prefix
    reports ErrNotFound when its node has a child. *)
Theorem nil_payload s (c : IPNet) :
  reachable s → length (IP c) = length (Mask c) → IP c ≠ [] →
  (∀ a, view s (pbits (IP c) (Mask c)) ≠ Some (Some a)) →
  ∃ s1,
    Add s c None = Ret (None, s1) ∧
    (∀ val, ∃ s2, Add s1 c val = Ret (None, s2)) ∧
    (∀ key mask : bytes,
       length key = length mask → key ≠ [] →
       ¬ (pbits key mask `prefix_of` pbits (IP c) (Mask c) ∧
          length (pbits key mask) = 8 * length key) →
       find s1 key mask = find s key mask) ∧
    ((∃ b : bool, tree_at s1 (pbits (IP c) (Mask c) ++ [b]) ≠ None) →
     Remove s1 c = Ret (Some ErrNotFound, s1)).
Proof.
  intros Hreach HL Hkey Hfree. destruct (reachable_wf s Hreach) as [fl Hwf].
  unfold Add, Remove. set (P := pbits (IP c) (Mask c)) in *.
  destruct (insert_spec s fl (IP c) (Mask c) None false Hwf HL Hkey)
    as [[[_ [a Ha]] _]|[_ (s1 & fl1 & Heq & Hwf1 & Hview)]];
    [by apply Hfree in Ha|].
  fold P in Hview.
  assert (view s1 P = Some None) as HvP.
  { rewrite Hview. by rewrite decide_True. }
  exists s1. split; [done|]. split_and!.
  - intros val.
    destruct (insert_spec s1 fl1 (IP c) (Mask c) val false Hwf1 HL Hkey)
      as [[[_ [a Ha]] _]|[_ (s2 & fl2 & Heq2 & _)]]; [|by eauto].
    fold P in Ha. congruence.
  - intros key mask HLq Hkq Hq.
    rewrite (find_spec s1 fl1), (find_spec s fl) by done.
    assert (lpm (view s1) (pbits key mask) = lpm (view s) (pbits key mask))
      as ->.
    { apply lpm_from_ext. intros x b. rewrite Hview.
      destruct (decide (x = P)) as [->|Hx].
      - pose proof (Hfree) as Hf. unfold pick.
        destruct (view s P) as [[a|]|]; [|done|done].
        by specialize (Hf a).
      - destruct (decide (x `prefix_of` P)); [|done].
        by destruct (view s x) as [[a|]|]. }
    destruct (Nat.eqb_spec (length (pbits key mask)) (8 * length key))
      as [Hfull|Hfull]; [|done].
    assert (¬ pbits key mask `prefix_of` P) as Hnp by (intros ?; by apply Hq).
    rewrite Hview. rewrite decide_False by (by intros Hx; rewrite Hx in Hnp).
    by rewrite decide_False.
  - intros [b Hb]. apply (delete_blank s1 fl1); try done.
    intros Hch. apply Hb. apply (view_None _ _ _ Hwf1), Hch.
Qed.

Lemma prefix_strict_not (P Q : list bool) :
  P `prefix_of` Q → P ≠ Q → ¬ Q `prefix_of` P.
Proof.
  intros HPQ Hne HQP. apply Hne. by apply (anti_symm prefix).
Qed.

(** The view after inserting [P] and a longer [Q] below it, in any order. *)
Lemma vinsert_two (P Q : list bool) (vP vQ : V) (order : bool)
    (v0 : list bool → option (option V)) x :
  P `prefix_of` Q → P ≠ Q →
  (∀ y, v0 y = if decide (y = []) then Some None else None) →
  (if order then vinsert Q (Some vQ) (vinsert P (Some vP) v0)
   else vinsert P (Some vP) (vinsert Q (Some vQ) v0)) x =
  if decide (x = Q) then Some (Some vQ)
  else if decide (x = P) then Some (Some vP)
  else if decide (x `prefix_of` Q) then Some None else None.
Proof.
  intros HPQ Hne Hv0. pose proof (prefix_strict_not P Q HPQ Hne) as HQP.
  assert (Q ≠ []) as HQ0.
  { intros ->. apply prefix_nil_inv in HPQ. congruence. }
  assert (∀ y, touch (v0 y) = Some None) as Ht.
  { intros y. rewrite Hv0. by destruct (decide (y = [])). }
  assert (∀ y, ¬ y `prefix_of` Q → v0 y = None) as Hout.
  { intros y Hy. rewrite Hv0. rewrite decide_False; [done|].
    intros ->. apply Hy, prefix_nil. }
  assert (∀ y, y `prefix_of` P → y `prefix_of` Q) as Htr.
  { intros y Hy. by etrans. }
  destruct order; unfold vinsert; repeat case_decide; subst;
    rewrite ?Ht; try done; try (by apply Hout);
    try (exfalso; by eauto using prefix_nil).
Qed.

Lemma GetByIP_spec s fl (ip : bytes) :
  wf s fl → length ip = IPv4len ∨ length ip = IPv6len →
  GetByIP s ip =
  Ret (if is_blank (view s (addr_bits ip)) then None
       else lpm (view s) (addr_bits ip), None).
Proof.
  intros Hwf Hlen. unfold GetByIP.
  assert (ip ≠ []) as Hne by (by intros ->; destruct Hlen).
  assert ((if length ip =? IPv4len then find s ip MASK_32
           else find s ip MASK_128)
          = find s ip (replicate (length ip) 255%Z)) as ->.
  { destruct Hlen as [->| ->]; done. }
  rewrite (find_spec s fl) by (by rewrite ?length_replicate).
  rewrite pbits_full, addr_bits_length, Nat.eqb_refl. done.
Qed.

Lemma add_fresh s fl (c : IPNet) (val : option V) :
  wf s fl → length (IP c) = length (Mask c) → IP c ≠ [] →
  (∀ a, view s (pbits (IP c) (Mask c)) ≠ Some (Some a)) →
  ∃ s1 fl1, Add s c val = Ret (None, s1) ∧ wf s1 fl1 ∧
    ∀ x, view s1 x = vinsert (pbits (IP c) (Mask c)) val (view s) x.
Proof.
  intros Hwf HL Hkey Hfree. unfold Add.
  destruct (insert_spec s fl (IP c) (Mask c) val false Hwf HL Hkey)
    as [[[_ [a Ha]] _]|[_ (s1 & fl1 & Heq & Hwf1 & Hview)]];
    [by apply Hfree in Ha|].
  by exists s1, fl1.
Qed.

Lemma vinsert_ext P ov (v v' : list bool → option (option V)) x :
  (∀ y, v y = v' y) → vinsert P ov v x = vinsert P ov v' x.
Proof. intros Hext. unfold vinsert. by rewrite Hext. Qed.

(** C4. Insert a prefix P and a strictly more specific prefix Q of it
    into a new set (in either order) and remove P: every step succeeds,
    and then GetByIP of an address that Q matches returns the value of Q,
    and GetByIP of an address that Q does not match, matched by P or not,
    returns none. *)
Theorem remove_keeps_descendants (P Q : IPNet) (vP vQ : V) (order : bool)
    (ip : bytes) :
  length (IP P) = length (Mask P) → IP P ≠ [] →
  length (IP Q) = length (Mask Q) → IP Q ≠ [] →
  pbits (IP P) (Mask P) `prefix_of` pbits (IP Q) (Mask Q) →
  pbits (IP P) (Mask P) ≠ pbits (IP Q) (Mask Q) →
  length ip = IPv4len ∨ length ip = IPv6len →
  ∃ s0 s1 s2 s3 : IPSet V,
    NewSet = Ret s0 ∧
    (if order
     then Add s0 P (Some vP) = Ret (None, s1) ∧
          Add s1 Q (Some vQ) = Ret (None, s2)
     else Add s0 Q (Some vQ) = Ret (None, s1) ∧
          Add s1 P (Some vP) = Ret (None, s2)) ∧
    Remove s2 P = Ret (None, s3) ∧
    (pbits (IP Q) (Mask Q) `prefix_of` addr_bits ip →
     GetByIP s3 ip = Ret (Some vQ, None)) ∧
    (¬ pbits (IP Q) (Mask Q) `prefix_of` addr_bits ip →
     GetByIP s3 ip = Ret (None, None)).
Proof.
  intros HLP HkP HLQ HkQ Hpre Hne Hlen.
  set (p := pbits (IP P) (Mask P)) in *. set (q := pbits (IP Q) (Mask Q)) in *.
  pose proof (prefix_strict_not p q Hpre Hne) as Hqp.
  assert (q ≠ []) as Hq0.
  { intros Hq. rewrite Hq in Hpre. apply prefix_nil_inv in Hpre. congruence. }
  destruct (@NewSet_spec V) as (s0 & Hnew & Hwf0 & Hv0).
  set (F := λ x : list bool,
         if decide (x = q) then Some (Some vQ)
         else if decide (x = p) then Some (Some vP)
         else if decide (x `prefix_of` q) then Some None else @None (option V)).
  assert (∃ s1 s2 fl2,
    (if order
     then Add s0 P (Some vP) = Ret (None, s1) ∧
          Add s1 Q (Some vQ) = Ret (None, s2)
     else Add s0 Q (Some vQ) = Ret (None, s1) ∧
          Add s1 P (Some vP) = Ret (None, s2)) ∧
    wf s2 fl2 ∧ ∀ x, view s2 x = F x) as (s1 & s2 & fl2 & Hadds & Hwf2 & Hv2).
  { assert (∀ x a, view s0 x ≠ Some (Some a)) as Hfree0.
    { intros x a. rewrite Hv0. by destruct (decide (x = [])). }
    destruct order.
    - destruct (add_fresh s0 [] P (Some vP) Hwf0 HLP HkP)
        as (s1 & fl1 & Hadd1 & Hwf1 & Hv1); [by intros a|].
      destruct (add_fresh s1 fl1 Q (Some vQ) Hwf1 HLQ HkQ)
        as (s2 & fl2 & Hadd2 & Hwf2 & Hv2).
      { intros a. rewrite Hv1. fold p q. rewrite vinsert_other by done.
        apply Hfree0. }
      exists s1, s2, fl2. split; [done|]. split; [done|]. intros x.
      rewrite Hv2. fold p q.
      rewrite (vinsert_ext _ _ _ (vinsert p (Some vP) (view s0))) by done.
      by rewrite (vinsert_two p q vP vQ true (view s0) x).
    - destruct (add_fresh s0 [] Q (Some vQ) Hwf0 HLQ HkQ)
        as (s1 & fl1 & Hadd1 & Hwf1 & Hv1); [by intros a|].
      destruct (add_fresh s1 fl1 P (Some vP) Hwf1 HLP HkP)
        as (s2 & fl2 & Hadd2 & Hwf2 & Hv2).
      { intros a. rewrite Hv1. fold p q. unfold vinsert.
        rewrite decide_False, decide_True by done. rewrite Hv0.
        by destruct (decide (p = [])). }
      exists s1, s2, fl2. split; [done|]. split; [done|]. intros x.
      rewrite Hv2. fold p q.
      rewrite (vinsert_ext _ _ _ (vinsert q (Some vQ) (view s0))) by done.
      by rewrite (vinsert_two p q vP vQ false (view s0) x). }
  assert (view s2 p = Some (Some vP)) as HvP.
  { rewrite Hv2. unfold F. by rewrite decide_False, decide_True. }
  assert (¬ childless (view s2) p) as Hch.
  { intros Hch. destruct Hpre as [k Hk]. destruct k as [|b k].
    { rewrite app_nil_r in Hk. congruence. }
    specialize (Hch b). rewrite Hv2 in Hch. unfold F in Hch.
    destruct (decide (p ++ [b] = q)); [done|].
    destruct (decide (p ++ [b] = p)); [done|].
    rewrite decide_True in Hch; [done|]. exists k. by rewrite <- app_assoc. }
  destruct (delete_clear s2 fl2 (IP P) (Mask P) vP Hwf2 HLP HkP HvP Hch)
    as (s3 & Hrem & Hwf3 & Hv3). fold p in Hv3.
  exists s0, s1, s2, s3. split; [done|]. split; [done|]. split; [done|].
  assert (∀ x a, view s3 x = Some (Some a) → x = q ∧ a = vQ) as Hval.
  { intros x a. rewrite Hv3, Hv2. unfold F.
    destruct (decide (x = p)); [done|].
    destruct (decide (x = q)); [by intros [= <-]|].
    by destruct (decide (x `prefix_of` q)). }
  assert (view s3 q = Some (Some vQ)) as HvQ.
  { rewrite Hv3, Hv2. unfold F. rewrite decide_False by done.
    by rewrite decide_True. }
  rewrite (GetByIP_spec s3 fl2) by done. split.
  - intros HqA.
    assert (is_blank (view s3 (addr_bits ip)) = false) as ->.
    { rewrite Hv3, Hv2. unfold F.
      destruct (decide (addr_bits ip = p)) as [Heq|_].
      { exfalso. apply Hqp. by rewrite <- Heq. }
      destruct (decide (addr_bits ip = q)); [done|].
      destruct (decide (addr_bits ip `prefix_of` q)) as [HAq|]; [|done].
      exfalso. by apply n, (anti_symm prefix). }
    rewrite (lpm_only _ _ q vQ); [done|done|done|].
    intros x a _ Hx. by apply Hval in Hx as [-> _].
  - intros HqA. destruct (is_blank _); [done|].
    rewrite lpm_none; [done|]. intros x a Hx Hv.
    apply Hval in Hv as [-> _]. done.
Qed.

(** *** Longest-prefix match against the stored prefixes *)

Lemma agrees_vinsert P (a : V) v M :
  agrees v M → agrees (vinsert P (Some a) v) (<[P := a]> M).
Proof.
  intros Hag q. unfold vinsert. destruct (decide (q = P)) as [->|Hne].
  - by rewrite lookup_insert_eq.
  - rewrite lookup_insert_ne by done. rewrite <- Hag.
    destruct (decide (q `prefix_of` P)); [|done].
    by destruct (v q) as [[?|]|].
Qed.

Lemma bounded_vinsert P ov v D :
  length P ≤ D → bounded v D → bounded (vinsert P ov v) D.
Proof.
  intros HP Hb q. unfold vinsert. destruct (decide (q = P)) as [->|_]; [done|].
  destruct (decide (q `prefix_of` P)) as [Hpre|_]; [|apply Hb].
  intros _. apply prefix_length in Hpre. lia.
Qed.

Lemma agrees_ext v v' M : (∀ x, v' x = v x) → agrees v M → agrees v' M.
Proof. intros Hext Hag q. by rewrite Hext. Qed.

Lemma bounded_ext v v' D : (∀ x, v' x = v x) → bounded v D → bounded v' D.
Proof. intros Hext Hb q. rewrite Hext. apply Hb. Qed.

Lemma exec_stored L o s fl M :
  0 < L → insert_op L o →
  wf s fl → I2 (view s) → agrees (view s) M → bounded (view s) (8 * L) →
  ∃ e s' fl',
    exec o s = Ret (e, s') ∧ wf s' fl' ∧ I2 (view s') ∧
    agrees (view s') (stored_step M o) ∧ bounded (view s') (8 * L).
Proof.
  intros HL Hop Hwf HI Hag Hbd.
  assert (∀ (c : IPNet) (a : V) ow,
    length (IP c) = L →
    ∃ e s' fl',
      insert s (IP c) (Mask c) (Some a) ow = Ret (e, s') ∧ wf s' fl' ∧
      I2 (view s') ∧ bounded (view s') (8 * L) ∧
      agrees (view s')
        (if decide (length (IP c) = length (Mask c)) then
           if ow then <[pbits (IP c) (Mask c) := a]> M
           else match M !! pbits (IP c) (Mask c) with
                | Some _ => M
                | None => <[pbits (IP c) (Mask c) := a]> M
                end
         else M)) as Hins.
  { intros c a ow Hlen.
    destruct (decide (length (IP c) = length (Mask c))) as [Heq|Hne].
    2:{ exists (Some ErrBadIP), s, fl. split_and!; try done.
        unfold insert. apply Nat.eqb_neq in Hne. by rewrite Hne. }
    assert (IP c ≠ []) as Hkey by (intros Hk; rewrite Hk in Hlen; cbn in Hlen; lia).
    destruct (insert_spec s fl (IP c) (Mask c) (Some a) ow Hwf Heq Hkey)
      as [[[-> [a' Ha']] Hret]|[Hnb (s1 & fl1 & Hret & Hwf1 & Hview)]].
    - exists (Some ErrNodeBusy), s, fl. split_and!; try done.
      rewrite <- Hag, Ha'. done.
    - exists None, s1, fl1. split; [done|]. split; [done|].
      split; [eapply I2_ext; [exact Hview|by apply I2_vinsert]|].
      split.
      { eapply bounded_ext; [exact Hview|]. apply bounded_vinsert; [|done].
        rewrite <- Hlen. apply pbits_length. }
      eapply agrees_ext; [exact Hview|].
      assert (ow = false → M !! pbits (IP c) (Mask c) = None) as Hfree.
      { intros ->. rewrite <- Hag.
        destruct (view s (pbits (IP c) (Mask c))) as [[a'|]|] eqn:Hv; try done.
        exfalso. apply Hnb. split; eauto. }
      destruct ow; [by apply agrees_vinsert|].
      rewrite Hfree by done. by apply agrees_vinsert. }
  destruct o as [c [a|]|c [a|]|c|c]; cbn [insert_op] in Hop; try done.
  - destruct (Hins c a false Hop) as (e & s' & fl' & ? & ? & ? & ? & Hag').
    exists e, s', fl'. split_and!; try done.
  - destruct (Hins c a true Hop) as (e & s' & fl' & ? & ? & ? & ? & Hag').
    exists e, s', fl'. split_and!; try done.
Qed.

Lemma run_stored L ops : ∀ s fl M,
  0 < L → Forall (insert_op L) ops →
  wf s fl → I2 (view s) → agrees (view s) M → bounded (view s) (8 * L) →
  ∃ s' fl',
    run ops s = Ret s' ∧ wf s' fl' ∧ I2 (view s') ∧
    agrees (view s') (foldl stored_step M ops) ∧ bounded (view s') (8 * L).
Proof.
  induction ops as [|o ops IH]; intros s fl M HL Hops Hwf HI Hag Hbd.
  - by exists s, fl.
  - apply Forall_cons in Hops as [Ho Hops].
    destruct (exec_stored L o s fl M HL Ho Hwf HI Hag Hbd)
      as (e & s1 & fl1 & Hex & Hwf1 & HI1 & Hag1 & Hbd1).
    cbn [run foldl]. rewrite Hex. cbn [obind]. by apply (IH s1 fl1).
Qed.

Lemma lpm_longest_match v M P :
  agrees v M → longest_match M P (lpm v P).
Proof.
  intros Hag. pose proof (lpm_spec v P) as Hs.
  assert (∀ q a, M !! q = Some a ↔ v q = Some (Some a)) as Hiff.
  { intros q a. rewrite <- Hag. destruct (v q) as [[a'|]|]; cbn; split;
      (congruence || done). }
  destruct (lpm v P) as [a|]; cbn.
  - destruct Hs as (x & Hx & Hvx & Hmax). exists x.
    split; [by apply Hiff|]. split; [done|].
    intros q' a' Hq' Hpre. apply Hiff in Hq'. by eapply Hmax.
  - intros q a Hq Hpre. apply Hiff in Hq. by eapply Hs.
Qed.

Lemma no_blank_full (v : list bool → option (option V)) D P :
  I2 v → bounded v D → 0 < D → length P = D → is_blank (v P) = false.
Proof.
  intros HI Hb HD HP. destruct (v P) as [[a|]|] eqn:Hv; try done.
  exfalso. apply (HI P).
  - intros ->. cbn in HP. lia.
  - done.
  - intros b. destruct (v (P ++ [b])) as [o|] eqn:Hc; [|done].
    assert (length (P ++ [b]) ≤ D) as Hle by (apply Hb; congruence).
    rewrite length_app in Hle. cbn in Hle. lia.
Qed.

(** C1, for one address length and payloads that are not nil. For every
    sequence of Add and Set calls on a new set whose addresses all have
    the byte length of the query and whose payloads are not nil, [find]
    returns the value of the longest stored prefix that is a prefix of
    the query (the bits of the address under the query mask), or none
    when no stored prefix is; for GetByIP the query is the whole address.
    With 10.0.0.0/8 mapped to A and 10.1.0.0/16 to B, 10.1.5.5 yields B
    and 10.2.5.5 yields A. *)
Theorem longest_prefix_match (L : nat) (ops : list (op V))
    (key mask : bytes) :
  0 < L → Forall (insert_op L) ops → length key = L → length mask = L →
  (∃ s,
     run_new ops = Ret s ∧
     (∃ r, find s key mask = Ret (r, None) ∧
           Get s (mkIPNet key mask) = Ret (r, None) ∧
           longest_match (stored ops) (pbits key mask) r) ∧
     (L = IPv4len ∨ L = IPv6len →
      ∃ r, GetByIP s key = Ret (r, None) ∧
           longest_match (stored ops) (addr_bits key) r)) ∧
  (∀ A B : V,
     ∃ s, run_new [OpAdd net8 (Some A); OpAdd net16 (Some B)] = Ret s ∧
       GetByIP s [10; 1; 5; 5]%Z = Ret (Some B, None) ∧
       GetByIP s [10; 2; 5; 5]%Z = Ret (Some A, None)).
Proof.
  intros HL Hops Hkey Hmask. split.
  - destruct (@NewSet_spec V) as (s0 & Hnew & Hwf0 & Hv0).
    destruct (run_stored L ops s0 [] ∅ HL Hops Hwf0)
      as (s & fl & Hrun & Hwf & HI & Hag & Hbd).
    { by apply I2_new. }
    { intros q. rewrite Hv0, lookup_empty. by destruct (decide (q = [])). }
    { intros q. rewrite Hv0. destruct (decide (q = [])) as [->|]; [|done].
      cbn. lia. }
    fold (stored ops) in Hag.
    exists s. split; [unfold run_new; by rewrite Hnew|].
    assert (key ≠ []) as Hk by (intros Hk; rewrite Hk in Hkey; cbn in Hkey; lia).
    split.
    + eexists. unfold Get. cbn [IP Mask].
      rewrite (find_spec s fl) by congruence.
      split; [done|]. split; [done|].
      assert ((length (pbits key mask) =? 8 * length key)
              && is_blank (view s (pbits key mask)) = false) as ->.
      { destruct (Nat.eqb_spec (length (pbits key mask)) (8 * length key))
          as [Hfull|]; [|done].
        apply (no_blank_full _ (8 * L)); try done; lia. }
      by apply lpm_longest_match.
    + intros HL4. eexists. rewrite (GetByIP_spec s fl) by (done || lia).
      split; [done|].
      rewrite (no_blank_full _ (8 * L)); try done; try lia.
      * by apply lpm_longest_match.
      * rewrite addr_bits_length. lia.
  - intros A B. eexists. split; [vm_compute; reflexivity|].
    split; vm_compute; reflexivity.
Qed.

End claims.

(** ** The examples, and where the code departs from the specification *)

(** In every reachable state, [Sub] of a zero-length prefix dereferences
    the nil parent of the root. *)
Lemma sub_zero_prefix_faults {V} (s : IPSet V) (c : IPNet) :
  reachable s → length (IP c) = length (Mask c) → IP c ≠ [] →
  pbits (IP c) (Mask c) = [] →
  Sub s c = Fault NilDeref.
Proof.
  intros Hreach HL Hkey HP. destruct (reachable_wf s Hreach) as [fl Hwf].
  apply (delete_root_fault s fl); try done. by left.
Qed.

(** Away from the root the deletion returns, with Ok or ErrNotFound. *)
Lemma delete_returns {V} (s : IPSet V) (c : IPNet) (sub : bool) :
  reachable s → length (IP c) = length (Mask c) → IP c ≠ [] →
  pbits (IP c) (Mask c) ≠ [] →
  ∃ e s', delete s (IP c) (Mask c) sub = Ret (e, s') ∧
          (e = None ∨ e = Some ErrNotFound).
Proof.
  intros Hreach HL Hkey HP. destruct (reachable_wf s Hreach) as [fl Hwf].
  destruct (view s (pbits (IP c) (Mask c))) as [o|] eqn:Hv.
  2:{ exists (Some ErrNotFound), s. split; [|by right].
      by apply (delete_missing s fl). }
  assert (sub = true ∨ childless (view s) (pbits (IP c) (Mask c)) ∨
          (sub = false ∧ ¬ childless (view s) (pbits (IP c) (Mask c))))
    as [Hs|[Hc|[-> Hc]]].
  { destruct sub; [by left|]. right.
    pose proof Hv as Hv'. apply view_Some_node in Hv' as (l & n & Hl & Hn & _).
    destruct (bool_decide (right n ≠ None) || bool_decide (left n ≠ None))
      eqn:Hb.
    - right. split; [done|]. intros Hc.
      apply (childless_node s fl _ l n Hwf Hl Hn) in Hc. congruence.
    - left. by apply (childless_node s fl _ l n Hwf Hl Hn). }
  - destruct (delete_trim_case s fl (IP c) (Mask c) sub Hwf HL Hkey HP)
      as (s' & fl' & c0 & Heq & _); [by rewrite Hv|by left|].
    exists None, s'. split; [done|by left].
  - destruct (delete_trim_case s fl (IP c) (Mask c) sub Hwf HL Hkey HP)
      as (s' & fl' & c0 & Heq & _); [by rewrite Hv|by right|].
    exists None, s'. split; [done|by left].
  - destruct o as [a|].
    + destruct (delete_clear s fl (IP c) (Mask c) a Hwf HL Hkey Hv Hc)
        as (s' & Heq & _).
      exists None, s'. split; [done|by left].
    + exists (Some ErrNotFound), s. split; [|by right].
      by apply (delete_blank s fl).
Qed.

(** C3. The trim loop reads [node.parent.right] before it tests the parent
    for nil: Remove and Sub of 0.0.0.0/0 on a new set, and Remove of
    0.0.0.0/0 after it was added, end in a nil dereference; an empty
    address with an empty mask ends in an index out of range. *)
Theorem delete_root_panics :
  (let* s := @NewSet nat in Remove s default_route) = Fault NilDeref ∧
  (let* s := @NewSet nat in Sub s default_route) = Fault NilDeref ∧
  (let* s := @NewSet nat in
   let* (e, s) := Add s default_route (Some 1) in
   Remove s default_route) = Fault NilDeref ∧
  (let* s := @NewSet nat in Remove s (mkIPNet [] [])) = Fault IndexOutOfRange.
Proof. split_and!; vm_compute; reflexivity. Qed.

(** C5, with the result of [Get] as the code gives it. With 10.0.0.0/8
    mapped to A and 10.1.0.0/16 to B, after Remove(10.1.0.0/16) both
    GetByIP(10.1.5.5) and Get(10.1.0.0/16) return A, the value of the
    covering prefix. *)
Theorem remove_falls_back {V} (A B : V) :
  ∃ s2 s3,
    run_new [OpAdd net8 (Some A); OpAdd net16 (Some B)] = Ret s2 ∧
    Remove s2 net16 = Ret (None, s3) ∧
    GetByIP s3 [10; 1; 5; 5]%Z = Ret (Some A, None) ∧
    Get s3 net16 = Ret (Some A, None).
Proof.
  eexists _, _. split; [vm_compute; reflexivity|].
  split; [vm_compute; reflexivity|]. split; vm_compute; reflexivity.
Qed.

(** Against C5: Get(10.1.0.0/16) after the removal is not none. *)
Lemma get_after_remove_not_none :
  ∃ s2 s3 : IPSet nat,
    run_new [OpAdd net8 (Some 1); OpAdd net16 (Some 2)] = Ret s2 ∧
    Remove s2 net16 = Ret (None, s3) ∧
    Get s3 net16 ≠ Ret (None, None).
Proof.
  eexists _, _. split; [vm_compute; reflexivity|].
  split; [vm_compute; reflexivity|]. vm_compute. discriminate.
Qed.

(** Against C1.  (1) With 10.0.0.0/8 and an IPv6 prefix of 33 bits
    that starts with the bits of 10.1.5.5 in one set, GetByIP(10.1.5.5)
    is none although 10.0.0.0/8 is stored and covers it.  (2) The same
    after Add(10.1.5.5/32, nil).  (3) A query with a short mask,
    10.1.5.5 under 255.0.0.0, yields the value of 10.0.0.0/8 although the
    stored 10.1.0.0/16 covers the address 10.1.5.5. *)
Lemma lpm_counterexample :
  (∃ s : IPSet nat,
     run_new [OpAdd net8 (Some 1); OpAdd net33 (Some 2)] = Ret s ∧
     stored [OpAdd net8 (Some 1); OpAdd net33 (Some 2)]
       !! pbits (IP net8) (Mask net8) = Some 1 ∧
     pbits (IP net8) (Mask net8) `prefix_of` addr_bits [10; 1; 5; 5]%Z ∧
     GetByIP s [10; 1; 5; 5]%Z = Ret (None, None)) ∧
  (∃ s : IPSet nat,
     run_new [OpAdd net8 (Some 1); OpAdd host32 None] = Ret s ∧
     pbits (IP net8) (Mask net8) `prefix_of` addr_bits [10; 1; 5; 5]%Z ∧
     GetByIP s [10; 1; 5; 5]%Z = Ret (None, None)) ∧
  (∃ s : IPSet nat,
     run_new [OpAdd net8 (Some 1); OpAdd net16 (Some 2)] = Ret s ∧
     stored [OpAdd net8 (Some 1); OpAdd net16 (Some 2)]
       !! pbits (IP net16) (Mask net16) = Some 2 ∧
     pbits (IP net16) (Mask net16) `prefix_of` addr_bits [10; 1; 5; 5]%Z ∧
     find s [10; 1; 5; 5]%Z [255; 0; 0; 0]%Z = Ret (Some 1, None)).
Proof.
  split_and!; eexists; split_and!;
    try (vm_compute; reflexivity);
    apply (bool_decide_unpack _); vm_compute; exact I.
Qed.

(** Against C8: after Add(10.0.0.0/8, nil) the node of the prefix
    is attached below the root with no child and no value. *)
Lemma nil_leaf_attached :
  ∃ (s : IPSet nat) (l : loc) (n : node nat),
    run_new [OpAdd net8 None] = Ret s ∧
    pbits (IP net8) (Mask net8) ≠ [] ∧
    tree_at s (pbits (IP net8) (Mask net8)) = Some l ∧
    heap s !! l = Some n ∧
    left n = None ∧ right n = None ∧ value n = None.
Proof.
  eexists _, (1, 8), (mkNode None None (Some (1, 7)) None).
  split_and!; try (vm_compute; reflexivity). vm_compute. discriminate.
Qed.

(** Against C2: 10.0.0.0/8 was never inserted, yet with
    10.1.0.0/16 stored Sub(10.0.0.0/8) succeeds and the lookup of 10.1.5.5
    changes from the value of 10.1.0.0/16 to none. *)
Lemma sub_never_inserted_succeeds :
  ∃ s s' : IPSet nat,
    run_new [OpAdd net16 (Some 2)] = Ret s ∧
    ¬ inserted [OpAdd net16 (Some 2)] (pbits (IP net8) (Mask net8)) ∧
    Sub s net8 = Ret (None, s') ∧
    GetByIP s [10; 1; 5; 5]%Z = Ret (Some 2, None) ∧
    GetByIP s' [10; 1; 5; 5]%Z = Ret (None, None).
Proof.
  eexists _, _. split; [vm_compute; reflexivity|]. split.
  { intros (o & Ho & Hp). apply list_elem_of_singleton in Ho. subst o.
    vm_compute in Hp. discriminate. }
  split; [vm_compute; reflexivity|]. split; vm_compute; reflexivity.
Qed.

(** Against C10: with 10.0.0.0/8 mapped to 1, Add(10.1.5.5/32, nil)
    succeeds and changes the lookup of 10.1.5.5 from 1 to none. *)
Lemma nil_payload_shadows :
  ∃ s s1 : IPSet nat,
    run_new [OpAdd net8 (Some 1)] = Ret s ∧
    GetByIP s [10; 1; 5; 5]%Z = Ret (Some 1, None) ∧
    Add s host32 None = Ret (None, s1) ∧
    GetByIP s1 [10; 1; 5; 5]%Z = Ret (None, None).
Proof.
  eexists _, _. split; [vm_compute; reflexivity|].
  split; [vm_compute; reflexivity|]. split; vm_compute; reflexivity.
Qed.

(** ** The theorems at concrete inputs *)

Lemma bad_address_witness :
  length [10; 0; 0; 0]%Z ≠ length [255; 0]%Z ∧
  insert (state_of []) [10; 0; 0; 0]%Z [255; 0]%Z (Some 1) false
    = Ret (Some ErrBadIP, state_of []).
Proof.
  assert (length [10; 0; 0; 0]%Z ≠ length [255; 0]%Z) as H by (cbn; lia).
  split; [exact H|].
  exact (proj1 (bad_address (state_of []) [10; 0; 0; 0]%Z [255; 0]%Z
                            (Some 1) false false H)).
Defined.

Lemma newNode_cleared_witness :
  arena_ok (state_of [OpAdd net8 (Some 1); OpRemove net8]) ∧
  free (state_of [OpAdd net8 (Some 1); OpRemove net8]) = Some (1, 1) ∧
  ∃ (p : loc) s',
    newNode (state_of [OpAdd net8 (Some 1); OpRemove net8]) = Ret (p, s') ∧
    heap s' !! p = Some (mkNode None None None None) ∧
    (∀ p0, free (state_of [OpAdd net8 (Some 1); OpRemove net8]) = Some p0 →
           p = p0).
Proof.
  assert (arena_ok (state_of [OpAdd net8 (Some 1); OpRemove net8])) as H.
  { apply arena_ok_reachable.
    exists [OpAdd net8 (Some 1); OpRemove net8]. vm_compute. reflexivity. }
  split; [exact H|]. split; [vm_compute; reflexivity|].
  exact (newNode_cleared _ H).
Defined.


Lemma cleanup_invariant_witness :
  Forall payload_present
    [OpAdd net8 (Some 1); OpAdd net16 (Some 2); OpRemove net16] ∧
  run_new [OpAdd net8 (Some 1); OpAdd net16 (Some 2); OpRemove net16]
    = Ret (state_of [OpAdd net8 (Some 1); OpAdd net16 (Some 2);
                     OpRemove net16]) ∧
  value (mkNode None None (Some (1, 7)) (Some 1)) ≠ None.
Proof.
  assert (Forall payload_present
    [OpAdd net8 (Some 1); OpAdd net16 (Some 2); OpRemove net16]) as Hpay.
  { repeat constructor. }
  assert (run_new [OpAdd net8 (Some 1); OpAdd net16 (Some 2); OpRemove net16]
    = Ret (state_of [OpAdd net8 (Some 1); OpAdd net16 (Some 2);
                     OpRemove net16])) as Hrun.
  { vm_compute. reflexivity. }
  split; [exact Hpay|]. split; [exact Hrun|].
  apply (cleanup_invariant _ _ (pbits (IP net8) (Mask net8)) (1, 8) _
           Hpay Hrun).
  - vm_compute. discriminate.
  - vm_compute. reflexivity.
  - vm_compute. reflexivity.
  - reflexivity.
  - reflexivity.
Defined.

Lemma remove_not_found_witness :
  run_new [OpAdd net16 (Some 2)] = Ret (state_of [OpAdd net16 (Some 2)]) ∧
  ¬ inserted [OpAdd net16 (Some 2)] (pbits (IP net8) (Mask net8)) ∧
  Remove (state_of [OpAdd net16 (Some 2)]) net8
    = Ret (Some ErrNotFound, state_of [OpAdd net16 (Some 2)]).
Proof.
  assert (run_new [OpAdd net16 (Some 2)]
          = Ret (state_of [OpAdd net16 (Some 2)])) as Hrun.
  { vm_compute. reflexivity. }
  assert (¬ inserted [OpAdd net16 (Some 2)] (pbits (IP net8) (Mask net8)))
    as Hnever.
  { intros (o & Ho & Hp). apply list_elem_of_singleton in Ho. subst o.
    vm_compute in Hp. discriminate. }
  split; [exact Hrun|]. split; [exact Hnever|].
  refine (proj1 (remove_not_found _ _ net8 Hrun _ _ _ Hnever)).
  - reflexivity.
  - discriminate.
  - vm_compute. discriminate.
Defined.

Lemma nil_payload_witness :
  reachable (state_of []) ∧
  ∃ s1, Add (state_of []) net8 None = Ret (None, s1) ∧
        ∀ val, ∃ s2, Add s1 net8 val = Ret (None, s2).
Proof.
  assert (reachable (state_of [])) as H.
  { exists []. vm_compute. reflexivity. }
  split; [exact H|].
  destruct (nil_payload (state_of []) net8 H) as (s1 & Hadd & Hagain & _).
  - reflexivity.
  - discriminate.
  - intros a. vm_compute. discriminate.
  - exists s1. split; [exact Hadd|exact Hagain].
Defined.

Lemma remove_keeps_descendants_witness :
  pbits (IP net8) (Mask net8) `prefix_of` pbits (IP net16) (Mask net16) ∧
  pbits (IP net8) (Mask net8) ≠ pbits (IP net16) (Mask net16) ∧
  ∃ s0 s1 s2 s3 : IPSet nat,
    NewSet = Ret s0 ∧
    (Add s0 net8 (Some 1) = Ret (None, s1) ∧
     Add s1 net16 (Some 2) = Ret (None, s2)) ∧
    Remove s2 net8 = Ret (None, s3) ∧
    (pbits (IP net16) (Mask net16) `prefix_of` addr_bits [10; 2; 5; 5]%Z →
     GetByIP s3 [10; 2; 5; 5]%Z = Ret (Some 2, None)) ∧
    (¬ pbits (IP net16) (Mask net16) `prefix_of` addr_bits [10; 2; 5; 5]%Z →
     GetByIP s3 [10; 2; 5; 5]%Z = Ret (None, None)).
Proof.
  assert (pbits (IP net8) (Mask net8)
            `prefix_of` pbits (IP net16) (Mask net16)) as Hpre.
  { apply (bool_decide_unpack _). vm_compute. exact I. }
  assert (pbits (IP net8) (Mask net8) ≠ pbits (IP net16) (Mask net16)) as Hne.
  { vm_compute. discriminate. }
  split; [exact Hpre|]. split; [exact Hne|].
  refine (remove_keeps_descendants net8 net16 1 2 true [10; 2; 5; 5]%Z
            _ _ _ _ Hpre Hne _).
  - reflexivity.
  - discriminate.
  - reflexivity.
  - discriminate.
  - left. reflexivity.
Defined.

Lemma longest_prefix_match_witness :
  Forall (insert_op 4) [OpAdd net8 (Some 1); OpAdd net16 (Some 2)] ∧
  ∃ s,
    run_new [OpAdd net8 (Some 1); OpAdd net16 (Some 2)] = Ret s ∧
    (∃ r, find s [10; 1; 5; 5]%Z MASK_32 = Ret (r, None) ∧
          Get s (mkIPNet [10; 1; 5; 5]%Z MASK_32) = Ret (r, None) ∧
          longest_match (stored [OpAdd net8 (Some 1); OpAdd net16 (Some 2)])
                        (pbits [10; 1; 5; 5]%Z MASK_32) r) ∧
    (4 = IPv4len ∨ 4 = IPv6len →
     ∃ r, GetByIP s [10; 1; 5; 5]%Z = Ret (r, None) ∧
          longest_match (stored [OpAdd net8 (Some 1); OpAdd net16 (Some 2)])
                        (addr_bits [10; 1; 5; 5]%Z) r).
Proof.
  assert (Forall (insert_op 4) [OpAdd net8 (Some 1); OpAdd net16 (Some 2)])
    as Hops.
  { repeat constructor. }
  split; [exact Hops|].
  refine (proj1 (longest_prefix_match 4 _ [10; 1; 5; 5]%Z MASK_32
                   _ Hops _ _)).
  - lia.
  - reflexivity.
  - reflexivity.
Defined.

(** * Further properties

    What the code does beyond the statements above: the effect of each
    call on the entries of the set, round trips, the history of a set as
    a dictionary, panics, the shape of the tree and the use of the
    arena. *)

(** ** The nodes a deletion unlinks *)

Section chains.
Context {V : Type}.
Implicit Types (h : gmap loc (node V)) (s : IPSet V).
Implicit Types (p : option loc) (l : loc) (q x : list bool) (fl : list loc).

Lemma flist_inj h p fl fl' : flist h p fl → flist h p fl' → fl = fl'.
Proof.
  revert p fl'. induction fl as [|l fl IH]; intros p fl' Hfl Hfl'.
  - cbn in Hfl. subst p. destruct fl' as [|l' fl']; [done|]. by destruct Hfl'.
  - destruct Hfl as [-> (n & Hn & Hfl)]. destruct fl' as [|l' fl']; [done|].
    destruct Hfl' as [[= <-] (n' & Hn' & Hfl')].
    rewrite Hn in Hn'. injection Hn' as <-. f_equal. by eapply IH.
Qed.

(** Where a path leaves another one. *)
Lemma diverge (x P : list bool) :
  ¬ x `prefix_of` P →
  ∃ y b, y `prefix_of` P ∧ (y ++ [b]) `prefix_of` x ∧ ¬ (y ++ [b]) `prefix_of` P.
Proof.
  induction x as [|b x IH] using rev_ind; intros Hx.
  - exfalso. apply Hx, prefix_nil.
  - destruct (decide (x `prefix_of` P)) as [Hp|Hp].
    + by exists x, b.
    + destruct (IH Hp) as (y & b' & Hy & Hyx & Hn). exists y, b'.
      split; [done|]. split; [|done]. etrans; [done|]. by apply prefix_app_r.
Qed.

Lemma prefix_snoc_cases (c y : list bool) (b : bool) :
  c `prefix_of` (y ++ [b]) → c `prefix_of` y ∨ c = y ++ [b].
Proof.
  intros Hc. destruct c as [|bc c0 _] using rev_ind; [left; apply prefix_nil|].
  apply prefix_snoc_inv in Hc as [Hc|[-> ->]]; [by left|by right].
Qed.

Lemma delete_trim_chain fuel :
  ∀ q b s fl l,
    wf s fl → tree_at s (q ++ [b]) = Some l → length q < fuel →
    ∃ s' c chain,
      delete_trim fuel s (Some l) = Ret s' ∧ wf s' (chain ++ fl) ∧
      pool s' = pool s ∧ root s' = root s ∧
      c ≠ [] ∧ c `prefix_of` (q ++ [b]) ∧
      (∀ x, tree_at s' x = if decide (c `prefix_of` x) then None
                           else tree_at s x) ∧
      (∀ x, view s' x = if decide (c `prefix_of` x) then None else view s x) ∧
      (∀ c0 bc, c = c0 ++ [bc] →
         c0 = [] ∨ (∃ a, view s' c0 = Some (Some a)) ∨
         (∃ b2, tree_at s' (c0 ++ [b2]) ≠ None)) ∧
      (∀ m, m ∈ chain ↔
            ∃ x, c `prefix_of` x ∧ x `prefix_of` (q ++ [b]) ∧
                 tree_at s x = Some m) ∧
      length chain + length c = S (length (q ++ [b])) ∧
      (∀ x, c `prefix_of` x → x `prefix_of` q →
         view s x = Some None ∧
         ∀ b' : bool, (x ++ [b']) `prefix_of` (q ++ [b]) ∨
                      view s (x ++ [b']) = None).
Proof.
  induction fuel as [|fuel IH]; intros q b s fl l Hwf Hl Hfuel; [lia|].
  destruct (unlink_spec s fl q b l Hwf Hl)
    as (lp & np & n & Hq & Hnp & Hn & Hwf1 & Htree1 & Hview1 & Hlp1 & Hcode).
  rewrite Hcode. clear Hcode. cbn zeta.
  set (s1 := mkSet _ _ _ _) in *. set (n' := set_child b None np) in *.
  assert (tree_at s1 q = Some lp) as Hq1.
  { rewrite Htree1, decide_False; [done|]. intros Hpre.
    apply prefix_length in Hpre. rewrite length_app in Hpre. cbn in Hpre. lia. }
  assert (∀ c0 bc, q ++ [b] = c0 ++ [bc] → c0 = q) as Hc0.
  { intros c0 bc Heq. by apply app_inj_tail in Heq as [-> _]. }
  assert (∀ m, m ∈ [l] ↔
            ∃ x, (q ++ [b]) `prefix_of` x ∧ x `prefix_of` (q ++ [b]) ∧
                 tree_at s x = Some m) as Hone.
  { intros m. rewrite list_elem_of_singleton. split.
    - intros ->. exists (q ++ [b]). done.
    - intros (x & H1 & H2 & Hx).
      assert (x = q ++ [b]) as -> by (by apply (anti_symm prefix)).
      congruence. }
  assert (∀ x, (q ++ [b]) `prefix_of` x → x `prefix_of` q → False) as Hno.
  { intros x H1 H2. apply prefix_length in H1, H2.
    rewrite length_app in H1. cbn in H1. lia. }
  destruct (bool_decide (right n' ≠ None) || bool_decide (left n' ≠ None)
            || bool_decide (value n' ≠ None)) eqn:Hkeep.
  { exists s1, (q ++ [b]), [l]. split; [done|]. split; [done|].
    split; [done|]. split; [done|]. split; [by destruct q|]. split; [done|].
    split; [done|]. split; [done|]. split; [|split; [done|split]].
    - intros c0 bc Heq. rewrite (Hc0 _ _ Heq). right.
      apply orb_true_iff in Hkeep as [Hkeep|Hv].
      + right. apply orb_true_iff in Hkeep as [Hr|Hr];
          apply bool_decide_eq_true in Hr.
        * exists true. by rewrite (tree_at_child _ _ true _ _ Hq1 Hlp1).
        * exists false. by rewrite (tree_at_child _ _ false _ _ Hq1 Hlp1).
      + left. apply bool_decide_eq_true in Hv.
        destruct (value n') as [a|] eqn:Ha; [|done]. exists a.
        unfold view. by rewrite Hq1, Hlp1, <- Ha.
    - cbn. lia.
    - intros x H1 H2. destruct (Hno x H1 H2). }
  assert (parent n' = parent np) as Hpar by (by destruct b).
  destruct (bool_decide (parent n' = None)) eqn:Hroot.
  { apply bool_decide_eq_true in Hroot. rewrite Hpar in Hroot.
    exists s1, (q ++ [b]), [l]. split; [done|]. split; [done|].
    split; [done|]. split; [done|]. split; [by destruct q|]. split; [done|].
    split; [done|]. split; [done|]. split; [|split; [done|split]].
    - intros c0 bc Heq. rewrite (Hc0 _ _ Heq). left.
      destruct q as [|b' q' _] using rev_ind; [done|]. exfalso.
      rewrite (wf_parent _ _ Hwf _ _ _ _ Hq Hnp) in Hroot.
      assert (q' `prefix_of` q' ++ [b']) as Hpre by (by apply prefix_app_r).
      destruct (tree_at_prefix_Some _ _ _ _ Hq Hpre) as [? ?]. congruence.
    - cbn. lia.
    - intros x H1 H2. destruct (Hno x H1 H2). }
  apply bool_decide_eq_false in Hroot. rewrite Hpar in Hroot.
  (* the parent is left with no child and no value *)
  apply orb_false_iff in Hkeep as [Hkeep Hval].
  apply bool_decide_eq_false in Hval.
  assert (view s1 q = Some None) as Hblank1.
  { unfold view. rewrite Hq1, Hlp1. cbn. f_equal.
    destruct (value n'); [by destruct Hval|done]. }
  assert (childless (view s1) q) as Hch1.
  { by apply (childless_node s1 (l :: fl) q lp n' Hwf1 Hq1 Hlp1). }
  destruct q as [|b' q' _] using rev_ind.
  { exfalso. apply Hroot.
    destruct (wf_root _ _ Hwf) as (r & nr & Hr & Hnr & Hp).
    unfold tree_at in Hq. cbn in Hq. congruence. }
  rewrite length_app in Hfuel. cbn in Hfuel.
  destruct (IH q' b' s1 (l :: fl) lp Hwf1 Hq1)
    as (s' & c & chain & -> & Hwf' & Hpool' & Hroot' & Hcne & Hcpre & Htree'
        & Hview' & Hkept & Hchain & Hlen & Hblank);
    [lia|].
  assert (∀ x, (q' ++ [b']) ++ [b] `prefix_of` x → c `prefix_of` x) as Hsub.
  { intros x Hx. etrans; [done|]. etrans; [|done]. by apply prefix_app_r. }
  assert (∀ x, x `prefix_of` q' ++ [b'] →
               ¬ (q' ++ [b']) ++ [b] `prefix_of` x) as Hshort.
  { intros x H1 H2. apply prefix_length in H1, H2.
    rewrite !length_app in *. cbn in *. lia. }
  exists s', c, (chain ++ [l]). split; [done|].
  split; [by rewrite <- app_assoc|]. split; [done|]. split; [done|].
  split; [done|]. split; [|split; [|split; [|split; [done|split; [|split]]]]].
  - etrans; [done|]. by apply prefix_app_r.
  - intros x. rewrite Htree', Htree1.
    destruct (decide (c `prefix_of` x)) as [|Hx]; [done|].
    rewrite decide_False; [done|]. intros Hp. by apply Hx, Hsub.
  - intros x. rewrite Hview', Hview1.
    destruct (decide (c `prefix_of` x)) as [|Hx]; [done|].
    rewrite decide_False; [done|]. intros Hp. by apply Hx, Hsub.
  - intros m. rewrite elem_of_app, Hchain, list_elem_of_singleton. split.
    + intros [(x & H1 & H2 & Hx)| ->].
      * exists x. split; [done|]. split; [etrans; [done|]; by apply prefix_app_r|].
        rewrite Htree1 in Hx. rewrite decide_False in Hx by (by apply Hshort).
        done.
      * exists ((q' ++ [b']) ++ [b]). split; [|done].
        etrans; [done|]. by apply prefix_app_r.
    + intros (x & H1 & H2 & Hx).
      apply prefix_snoc_cases in H2 as [H2| ->]; [|right; congruence].
      left. exists x. split; [done|]. split; [done|].
      rewrite Htree1. by rewrite decide_False by (by apply Hshort).
  - rewrite !length_app in *. cbn in *. lia.
  - intros x H1 H2.
    assert (view s1 x = view s x) as Hvx.
    { rewrite Hview1. by rewrite decide_False by (by apply Hshort). }
    apply prefix_snoc_cases in H2 as [H2| ->].
    + destruct (Hblank x H1 H2) as [Hb Hoth]. rewrite <- Hvx. split; [done|].
      intros b2. destruct (Hoth b2) as [Hp|Hnone].
      * left. etrans; [done|]. by apply prefix_app_r.
      * right. rewrite Hview1 in Hnone.
        rewrite decide_False in Hnone; [done|]. intros Hp.
        apply prefix_length in Hp, H2. rewrite !length_app in Hp. cbn in Hp.
        lia.
    + rewrite <- Hvx. split; [done|]. intros b2.
      destruct (decide (b2 = b)) as [->|Hne]; [by left|]. right.
      specialize (Hch1 b2). rewrite Hview1 in Hch1.
      rewrite decide_False in Hch1; [done|].
      intros Hp. apply prefix_snoc_inv in Hp as [Hp|[_ ->]]; [|done].
      by apply (Hshort (q' ++ [b'])).
Qed.

End chains.

(** ** Every way a call returns *)

Section outcomes.
Context {V : Type}.
Implicit Types (h : gmap loc (node V)) (s : IPSet V).
Implicit Types (p : option loc) (l : loc) (q x : list bool) (fl : list loc).

Lemma delete_trim_pool fuel : ∀ s p s',
  delete_trim fuel s p = Ret s' → pool s' = pool s ∧ root s' = root s.
Proof.
  induction fuel as [|fuel IH]; intros s p s'; [done|]. cbn [delete_trim].
  destruct (load (heap s) p) as [n|]; [|done]. cbn [obind].
  destruct (load (heap s) (parent n)) as [pn|]; [|done]. cbn [obind].
  destruct (if bool_decide (right pn = p) then _ else _) as [h1|]; [|done].
  cbn [obind]. destruct (store h1 p _) as [h2|]; [|done]. cbn [obind heap].
  destruct (load h2 p) as [n2|]; [|done]. cbn [obind].
  destruct (load h2 (parent n2)) as [n3|]; [|done]. cbn [obind].
  destruct (_ || _ || _); [by intros [= <-]|].
  destruct (bool_decide _); [by intros [= <-]|].
  intros Hrec. by apply IH in Hrec.
Qed.

Lemma delete_pool s (key mask : bytes) sub e s' :
  delete s key mask sub = Ret (e, s') → pool s' = pool s ∧ root s' = root s.
Proof.
  unfold delete. destruct (negb _); [by intros [= <- <-]|].
  destruct (delete_descend _ _ _ _ _ _ _) as [[l|]|]; cbn [obind]; [| |done].
  2:{ by intros [= <- <-]. }
  destruct (load (heap s) (Some l)) as [n|]; cbn [obind]; [|done].
  destruct (negb sub && _).
  - destruct (bool_decide (value n ≠ None)); [|by intros [= <- <-]].
    destruct (store _ _ _); cbn [obind]; [|done]. by intros [= <- <-].
  - destruct (delete_trim _ _ _) as [s1|] eqn:Ht; cbn [obind]; [|done].
    intros [= <- <-]. by apply delete_trim_pool in Ht.
Qed.

Lemma childless_dec s fl q l (n : node V) :
  wf s fl → tree_at s q = Some l → heap s !! l = Some n →
  childless (view s) q ∨ ¬ childless (view s) q.
Proof.
  intros Hwf Hl Hn.
  destruct (bool_decide (right n ≠ None) || bool_decide (left n ≠ None)) eqn:Hb.
  - right. intros Hc. apply (childless_node s fl _ l n Hwf Hl Hn) in Hc.
    congruence.
  - left. by apply (childless_node s fl _ l n Hwf Hl Hn).
Qed.

(** Every way [delete] returns. *)
Lemma delete_outcome s fl (key mask : bytes) sub e s' :
  wf s fl → delete s key mask sub = Ret (e, s') →
  (length key ≠ length mask ∧ e = Some ErrBadIP ∧ s' = s) ∨
  (length key = length mask ∧ key ≠ [] ∧
   ((view s (pbits key mask) = None ∧ e = Some ErrNotFound ∧ s' = s) ∨
    (sub = false ∧ view s (pbits key mask) = Some None ∧
     ¬ childless (view s) (pbits key mask) ∧
     e = Some ErrNotFound ∧ s' = s) ∨
    (sub = false ∧ (∃ a, view s (pbits key mask) = Some (Some a)) ∧
     ¬ childless (view s) (pbits key mask) ∧
     e = None ∧ wf s' fl ∧
     ∀ x, view s' x = vclear (pbits key mask) (view s) x) ∨
    (pbits key mask ≠ [] ∧ view s (pbits key mask) ≠ None ∧
     (sub = true ∨ childless (view s) (pbits key mask)) ∧ e = None ∧
     ∃ c chain,
       wf s' (chain ++ fl) ∧ c ≠ [] ∧ c `prefix_of` pbits key mask ∧
       (∀ x, view s' x = vcut c (view s) x) ∧
       (∀ x, tree_at s' x = if decide (c `prefix_of` x) then None
                            else tree_at s x) ∧
       kept (view s') c ∧ bare_path (view s) c (pbits key mask) ∧
       (∀ m, m ∈ chain ↔
             ∃ x, c `prefix_of` x ∧ x `prefix_of` pbits key mask ∧
                  tree_at s x = Some m) ∧
       length chain + length c = S (length (pbits key mask))))).
Proof.
  intros Hwf Hdel.
  destruct (decide (length key = length mask)) as [HL|HL].
  2:{ left. unfold delete in Hdel. pose proof HL as HL'.
      apply Nat.eqb_neq in HL'. rewrite HL' in Hdel.
      by injection Hdel as <- <-. }
  destruct (decide (key = [])) as [->|Hkey].
  { destruct mask; [|done]. by rewrite (delete_nil s fl) in Hdel. }
  right. split; [done|]. split; [done|].
  assert (∃ o, view s (pbits key mask) = o) as [o Hv] by eauto.
  destruct o as [o|].
  2:{ rewrite (delete_missing s fl) in Hdel by done.
      injection Hdel as <- <-. by left. }
  right.
  pose proof Hv as Hv'. apply view_Some_node in Hv' as (l & n & Hl & Hn & Hval).
  assert (sub = true ∨ childless (view s) (pbits key mask) ∨
          (sub = false ∧ ¬ childless (view s) (pbits key mask))) as Hcase.
  { destruct sub; [by left|]. right.
    destruct (childless_dec s fl _ l n Hwf Hl Hn); [by left|by right]. }
  assert (sub = true ∨ childless (view s) (pbits key mask) →
    pbits key mask ≠ [] ∧ view s (pbits key mask) ≠ None ∧
    (sub = true ∨ childless (view s) (pbits key mask)) ∧ e = None ∧
    ∃ c chain,
      wf s' (chain ++ fl) ∧ c ≠ [] ∧ c `prefix_of` pbits key mask ∧
      (∀ x, view s' x = vcut c (view s) x) ∧
      (∀ x, tree_at s' x = if decide (c `prefix_of` x) then None
                           else tree_at s x) ∧
      kept (view s') c ∧ bare_path (view s) c (pbits key mask) ∧
      (∀ m, m ∈ chain ↔
            ∃ x, c `prefix_of` x ∧ x `prefix_of` pbits key mask ∧
                 tree_at s x = Some m) ∧
      length chain + length c = S (length (pbits key mask))) as Htrim.
  { intros Hc. destruct (decide (pbits key mask = [])) as [HP|HP].
    { rewrite HP in Hc. rewrite (delete_root_fault s fl) in Hdel; done. }
    split; [done|]. split; [by rewrite Hv|]. split; [done|].
    revert Hdel. unfold delete. rewrite HL, Nat.eqb_refl. cbn [negb].
    rewrite <- HL. rewrite (delete_descend_root s fl) by done. rewrite Hl.
    cbn [obind load]. rewrite Hn. cbn [obind].
    assert (negb sub && (bool_decide (right n ≠ None)
                         || bool_decide (left n ≠ None)) = false) as ->.
    { destruct Hc as [->|Hc]; [done|].
      apply (childless_node s fl _ l n Hwf Hl Hn) in Hc. rewrite Hc.
      apply andb_false_r. }
    destruct (pbits key mask) as [|b0 P0 _] eqn:HPeq using rev_ind; [done|].
    assert (length P0 < S (8 * length key)) as Hlen.
    { pose proof (path_from_length key mask 0 (8 * length key)) as Hle.
      fold (pbits key mask) in Hle. rewrite HPeq, length_app in Hle.
      cbn in Hle. lia. }
    destruct (delete_trim_chain (S (8 * length key)) P0 b0 s fl l Hwf Hl Hlen)
      as (s1 & c & chain & -> & Hwf1 & Hpool1 & Hroot1 & Hc1 & Hcpre & Htree1
          & Hview1 & Hkept & Hchain & Hclen & Hbare).
    cbn [obind]. intros [= <- <-]. split; [done|].
    exists c, chain. split_and!; try done.
    - intros c0 bc Heq. destruct (Hkept c0 bc Heq) as [?|[?|[b2 Hb2]]]; auto.
      right. right. intros Hch. apply Hb2.
      apply (view_None _ _ _ Hwf1), Hch.
    - intros x H1 H2 H3. apply Hbare; [done|].
      apply prefix_snoc_cases in H2 as [H2|H2]; done. }
  destruct Hcase as [Hs|[Hc|[-> Hc]]].
  - right. right. apply Htrim. by left.
  - right. right. apply Htrim. by right.
  - destruct o as [a|].
    + destruct (delete_clear s fl key mask a Hwf HL Hkey Hv Hc)
        as (s1 & Heq & Hwf1 & Hview).
      rewrite Heq in Hdel. injection Hdel as <- <-.
      right. left. split_and!; eauto.
    + rewrite (delete_blank s fl) in Hdel by done.
      injection Hdel as <- <-. left. done.
Qed.

(** Every way [insert] returns. *)
Lemma insert_outcome s fl (key mask : bytes) (val : option V) ow e s' :
  wf s fl → insert s key mask val ow = Ret (e, s') →
  (length key ≠ length mask ∧ e = Some ErrBadIP ∧ s' = s) ∨
  (length key = length mask ∧ key ≠ [] ∧
   ((ow = false ∧ (∃ a, view s (pbits key mask) = Some (Some a)) ∧
     e = Some ErrNodeBusy ∧ s' = s) ∨
    ((ow = true ∨ ∀ a, view s (pbits key mask) ≠ Some (Some a)) ∧
     e = None ∧
     ∃ fl', wf s' fl' ∧
       ∀ x, view s' x = vinsert (pbits key mask) val (view s) x))).
Proof.
  intros Hwf Hins.
  destruct (decide (length key = length mask)) as [HL|HL].
  2:{ left. unfold insert in Hins. pose proof HL as HL'.
      apply Nat.eqb_neq in HL'. rewrite HL' in Hins.
      by injection Hins as <- <-. }
  destruct (decide (key = [])) as [->|Hkey].
  { destruct mask; [|done]. by rewrite insert_nil in Hins. }
  right. split; [done|]. split; [done|].
  destruct (insert_spec s fl key mask val ow Hwf HL Hkey)
    as [[[-> Hb] Heq]|[Hb (s1 & fl1 & Heq & Hwf1 & Hview)]];
    rewrite Heq in Hins; injection Hins as <- <-.
  - by left.
  - right. split; [|split; [done|by exists fl1]].
    destruct ow; [by left|]. right. intros a Ha. apply Hb. split; eauto.
Qed.

(** Below a cut, off the subtree of [P], the tree held no value. *)
Lemma cut_holds_nothing s fl (c P : list bool) x :
  wf s fl → c `prefix_of` P → bare_path (view s) c P →
  c `prefix_of` x → ¬ P `prefix_of` x →
  view s x = if decide (x `prefix_of` P) then Some None else None.
Proof.
  intros Hwf HcP Hbare Hcx HPx.
  destruct (decide (x `prefix_of` P)) as [HxP|HxP].
  - apply Hbare; [done|done|]. intros ->. by apply HPx.
  - destruct (diverge x P HxP) as (y & b & HyP & Hyx & Hyb).
    assert (c `prefix_of` y) as Hcy.
    { destruct (prefix_weak_total c (y ++ [b]) x Hcx Hyx) as [H1|H1].
      - apply prefix_snoc_cases in H1 as [H1| ->]; [done|]. by destruct Hyb.
      - destruct Hyb. by etrans. }
    assert (y ≠ P) as HyneP.
    { intros ->. apply HPx. etrans; [|done]. by apply prefix_app_r. }
    destruct (Hbare y Hcy HyP HyneP) as [_ Hoth].
    destruct (Hoth b) as [Hp|Hn]; [done|].
    apply (view_None _ _ _ Hwf). apply (view_None _ _ _ Hwf) in Hn.
    by apply (tree_at_prefix_None _ _ _ Hn).
Qed.

End outcomes.

(** ** The calls as operations on a dictionary *)

Section dictionary.
Context {V : Type}.
Implicit Types (s : IPSet V) (q x : list bool) (fl : list loc).
Implicit Types (v : list bool → option (option V)) (ov : option V).
Implicit Types (M : gmap (list bool) V).

Lemma entry_view s q : entry s q = pick (view s q) None.
Proof.
  unfold entry, view. destruct (tree_at s q) as [l|]; [|done]. cbn.
  destruct (heap s !! l) as [n|]; [|done]. cbn. by destruct (value n).
Qed.

Lemma pick_touch (o : option (option V)) : pick (touch o) None = pick o None.
Proof. by destruct o as [[a|]|]. Qed.

Lemma pick_vinsert P ov v q :
  pick (vinsert P ov v q) None = if decide (q = P) then ov else pick (v q) None.
Proof.
  unfold vinsert. destruct (decide (q = P)); [by destruct ov|].
  destruct (decide (q `prefix_of` P)); [apply pick_touch|done].
Qed.

Lemma pick_vclear P v q :
  pick (vclear P v q) None = if decide (q = P) then None else pick (v q) None.
Proof. unfold vclear. by destruct (decide (q = P)). Qed.

Lemma view_below_None s fl q x :
  wf s fl → view s q = None → q `prefix_of` x → view s x = None.
Proof.
  intros Hwf Hq Hpre. apply (view_None _ _ _ Hwf).
  apply (view_None _ _ _ Hwf) in Hq. by eapply tree_at_prefix_None.
Qed.

Lemma childless_below s fl q x :
  wf s fl → childless (view s) q → q `prefix_of` x → x ≠ q → view s x = None.
Proof.
  intros Hwf Hch [k ->] Hne. destruct k as [|b k].
  - by rewrite app_nil_r in Hne.
  - apply (view_below_None s fl (q ++ [b])); [done|apply Hch|].
    rewrite (cons_middle b q k), app_assoc. by apply prefix_app_r.
Qed.

(** After a cut made by [Sub]: the entries under the prefix are gone, the
    others are as before. *)
Lemma pick_vcut_sub s fl (c P : list bool) x :
  wf s fl → c `prefix_of` P → bare_path (view s) c P →
  pick (vcut c (view s) x) None =
  if decide (P `prefix_of` x) then None else pick (view s x) None.
Proof.
  intros Hwf HcP Hbare. unfold vcut.
  destruct (decide (P `prefix_of` x)) as [HPx|HPx].
  - rewrite decide_True; [done|]. by etrans.
  - destruct (decide (c `prefix_of` x)) as [Hcx|Hcx]; [|done].
    rewrite (cut_holds_nothing s fl c P x) by done. by case_decide.
Qed.

(** After a cut made by [Remove], whose prefix had no child: only the
    entry of the prefix is gone. *)
Lemma pick_vcut_remove s fl (c P : list bool) x :
  wf s fl → c `prefix_of` P → bare_path (view s) c P →
  childless (view s) P →
  pick (vcut c (view s) x) None =
  if decide (x = P) then None else pick (view s x) None.
Proof.
  intros Hwf HcP Hbare Hch. rewrite (pick_vcut_sub s fl c P) by done.
  destruct (decide (x = P)) as [->|Hne]; [by rewrite decide_True|].
  destruct (decide (P `prefix_of` x)) as [HPx|HPx]; [|done].
  by rewrite (childless_below s fl P x).
Qed.

Lemma exec_dict o s fl e s' M :
  wf s fl → agrees (view s) M → exec o s = Ret (e, s') →
  agrees (view s') (dict_step M o).
Proof.
  intros Hwf Hag Hex.
  assert (∀ q a, view s q = Some (Some a) → M !! q = Some a) as Hval.
  { intros q a Hq. by rewrite <- Hag, Hq. }
  assert (∀ q, (∀ a, view s q ≠ Some (Some a)) → M !! q = None) as Hnone.
  { intros q Hq. rewrite <- Hag. destruct (view s q) as [[a|]|]; try done.
    by destruct (Hq a). }
  destruct o as [c val|c val|c|c]; cbn [exec dict_step] in *.
  - (* Add *)
    destruct (insert_outcome s fl _ _ _ _ _ _ Hwf Hex)
      as [(HL & -> & ->)|(HL & Hkey & [(_ & [a Ha] & -> & ->)
                                       |(Hfree & -> & fl' & Hwf' & Hview)])].
    + by rewrite decide_False.
    + rewrite decide_True by done. by rewrite (Hval _ _ Ha).
    + rewrite decide_True by done. destruct Hfree as [|Hfree]; [done|].
      rewrite (Hnone _ Hfree). intros q. rewrite Hview, pick_vinsert.
      destruct val as [a|].
      * destruct (decide (q = _)) as [->|Hne];
          [by rewrite lookup_insert_eq|by rewrite lookup_insert_ne].
      * destruct (decide (q = _)) as [->|Hne]; [by rewrite Hnone|done].
  - (* Set *)
    destruct (insert_outcome s fl _ _ _ _ _ _ Hwf Hex)
      as [(HL & -> & ->)|(HL & Hkey & [(? & _)
                                       |(_ & -> & fl' & Hwf' & Hview)])];
      [|done|].
    + by rewrite decide_False.
    + rewrite decide_True by done. intros q. rewrite Hview, pick_vinsert.
      destruct val as [a|]; destruct (decide (q = _)) as [->|Hne].
      * by rewrite lookup_insert_eq.
      * by rewrite lookup_insert_ne.
      * by rewrite lookup_delete_eq.
      * by rewrite lookup_delete_ne.
  - (* Remove *)
    destruct (delete_outcome s fl _ _ _ _ _ Hwf Hex)
      as [(HL & -> & ->)|(HL & Hkey & Hcase)].
    { by rewrite decide_False. }
    rewrite decide_True by done.
    assert (M !! pbits (IP c) (Mask c) = None → agrees (view s)
              (base.delete (pbits (IP c) (Mask c)) M)) as Hsame.
    { intros HP q. destruct (decide (q = pbits (IP c) (Mask c))) as [->|Hne].
      - by rewrite lookup_delete_eq, Hag.
      - by rewrite lookup_delete_ne. }
    destruct Hcase as [(Hv & -> & ->)|[(_ & Hv & _ & -> & ->)
      |[(_ & [a Ha] & Hch & -> & Hwf' & Hview)
       |(HP & Hv & [?|Hch] & -> & c0 & chain & Hwf' & Hc0 & Hpre & Hview & _
         & _ & Hbare & _)]]]; [| | |done|].
    + apply Hsame, Hnone. intros a. by rewrite Hv.
    + apply Hsame, Hnone. intros a. by rewrite Hv.
    + intros q. rewrite Hview, pick_vclear.
      destruct (decide (q = _)) as [->|Hne];
        [by rewrite lookup_delete_eq|by rewrite lookup_delete_ne].
    + intros q. rewrite Hview.
      rewrite (pick_vcut_remove s fl c0 (pbits (IP c) (Mask c))) by done.
      destruct (decide (q = _)) as [->|Hne];
        [by rewrite lookup_delete_eq|by rewrite lookup_delete_ne].
  - (* Sub *)
    destruct (delete_outcome s fl _ _ _ _ _ Hwf Hex)
      as [(HL & -> & ->)|(HL & Hkey & Hcase)].
    { by rewrite decide_False. }
    rewrite decide_True by done.
    assert (∀ q, (filter (λ kv : list bool * V,
                     ¬ pbits (IP c) (Mask c) `prefix_of` kv.1) M) !! q
                 = if decide (pbits (IP c) (Mask c) `prefix_of` q) then None
                   else M !! q) as Hfilter.
    { intros q. rewrite map_lookup_filter. destruct (M !! q) as [a|]; cbn.
      - case_guard as Hg; cbn in Hg; case_decide; done.
      - by case_decide. }
    destruct Hcase as [(Hv & -> & ->)|[(? & _)|[(? & _)
       |(HP & Hv & _ & -> & c0 & chain & Hwf' & Hc0 & Hpre & Hview & _
         & _ & Hbare & _)]]]; [|done|done|].
    + intros q. rewrite Hfilter. case_decide as Hq; [|done].
      by rewrite (view_below_None s fl _ q Hwf Hv Hq).
    + intros q. rewrite Hview.
      rewrite (pick_vcut_sub s fl c0 (pbits (IP c) (Mask c)) q), Hfilter by done.
      by case_decide.
Qed.

Lemma run_dict ops : ∀ s fl s' M,
  wf s fl → agrees (view s) M → run ops s = Ret s' →
  agrees (view s') (foldl dict_step M ops).
Proof.
  induction ops as [|o ops IH]; intros s fl s' M Hwf Hag Hrun.
  - cbn in Hrun. by injection Hrun as <-.
  - cbn [run] in Hrun. destruct (exec o s) as [[e s1]|] eqn:Hex; [|done].
    cbn [obind] in Hrun. destruct (exec_wf o s fl e s1 Hwf Hex) as [fl1 Hwf1].
    cbn [foldl]. eapply (IH s1 fl1); [done| |done].
    exact (exec_dict o s fl e s1 M Hwf Hag Hex).
Qed.

Lemma agrees_new s : @NewSet V = Ret s → agrees (view s) ∅.
Proof.
  intros Hnew. destruct (@NewSet_spec V) as (s0 & Hnew0 & _ & Hv0).
  rewrite Hnew in Hnew0. injection Hnew0 as <-.
  intros q. rewrite Hv0, lookup_empty. by case_decide.
Qed.

End dictionary.

(** ** Entries, round trips and lookups after any calls *)

Section effects.
Context {V : Type}.
Implicit Types (s : IPSet V) (q x : list bool) (fl : list loc).
Implicit Types (v : list bool → option (option V)) (ov : option V).
Implicit Types (M : gmap (list bool) V).

Lemma find_nil s fl : wf s fl → find s [] [] = Fault IndexOutOfRange.
Proof.
  intros Hwf. destruct (wf_root _ _ Hwf) as (r & n & Hr & Hn & _).
  unfold find. cbn. rewrite Hr. cbn. by rewrite Hn.
Qed.

(** Sets with the same view answer every lookup alike. *)
Lemma find_ext s fl s' fl' (key mask : bytes) :
  wf s fl → wf s' fl' → (∀ x, view s' x = view s x) →
  find s' key mask = find s key mask.
Proof.
  intros Hwf Hwf' Hview.
  destruct (decide (length key = length mask)) as [HL|HL].
  2:{ by rewrite !find_bad_ip. }
  destruct (decide (key = [])) as [->|Hkey].
  { destruct mask; [|done]. by rewrite (find_nil s fl), (find_nil s' fl'). }
  rewrite (find_spec s fl), (find_spec s' fl') by done.
  rewrite Hview. f_equal. f_equal. destruct (_ && _); [done|].
  apply lpm_from_ext. intros x b. by rewrite Hview.
Qed.

Lemma delete_total s fl (key mask : bytes) sub :
  wf s fl → length key = length mask → key ≠ [] → pbits key mask ≠ [] →
  ∃ e s', delete s key mask sub = Ret (e, s').
Proof.
  intros Hwf HL Hkey HP.
  destruct (view s (pbits key mask)) as [o|] eqn:Hv.
  2:{ rewrite (delete_missing s fl) by done. eauto. }
  pose proof Hv as Hv'. apply view_Some_node in Hv' as (l & n & Hl & Hn & _).
  assert (sub = true ∨ childless (view s) (pbits key mask) ∨
          (sub = false ∧ ¬ childless (view s) (pbits key mask)))
    as [Hs|[Hc|[-> Hc]]].
  { destruct sub; [by left|]. right.
    destruct (childless_dec s fl _ l n Hwf Hl Hn); [by left|by right]. }
  - destruct (delete_trim_case s fl key mask sub Hwf HL Hkey HP)
      as (s' & fl' & c0 & Heq & _); [by rewrite Hv|by left|eauto].
  - destruct (delete_trim_case s fl key mask sub Hwf HL Hkey HP)
      as (s' & fl' & c0 & Heq & _); [by rewrite Hv|by right|eauto].
  - destruct o as [a|].
    + destruct (delete_clear s fl key mask a Hwf HL Hkey Hv Hc)
        as (s' & Heq & _). eauto.
    + rewrite (delete_blank s fl) by done. eauto.
Qed.

Lemma has_child v q : ¬ childless v q → ∃ b : bool, v (q ++ [b]) ≠ None.
Proof.
  intros Hch. destruct (v (q ++ [true])) as [o|] eqn:Ht; [exists true; congruence|].
  destruct (v (q ++ [false])) as [o|] eqn:Hf; [exists false; congruence|].
  destruct Hch. by intros [].
Qed.

Lemma view_above_Some s fl q x :
  wf s fl → view s x ≠ None → q `prefix_of` x → view s q ≠ None.
Proof.
  intros Hwf Hx Hpre Hq. apply Hx. by eapply view_below_None.
Qed.

(** The first node that the path of [P] lacks. *)
Lemma frontier v (P : list bool) :
  v [] ≠ None → v P = None →
  ∃ q0 b0, (q0 ++ [b0]) `prefix_of` P ∧ v q0 ≠ None ∧ v (q0 ++ [b0]) = None.
Proof.
  intros H0. induction P as [|b P IH] using rev_ind; intros HP; [done|].
  destruct (v P) as [o|] eqn:HvP.
  - exists P, b. split; [done|]. split; [congruence|done].
  - destruct (IH eq_refl) as (q0 & b0 & Hpre & Hq0 & Hb0). exists q0, b0.
    split; [|done]. etrans; [done|]. by apply prefix_app_r.
Qed.

Lemma prefix_same_length (a b P : list bool) :
  a `prefix_of` P → b `prefix_of` P → length a = length b → a = b.
Proof.
  intros Ha Hb Hlen.
  destruct (prefix_weak_total a b P Ha Hb) as [[k ->]|[k ->]];
    rewrite length_app in Hlen; destruct k; cbn in Hlen;
    rewrite ?app_nil_r; done || lia.
Qed.

(** Where an insertion at a new prefix [P] is undone by a removal, the cut
    is at the first node the insertion had to create. *)
Lemma cut_at_frontier v v2 (P c q0 : list bool) (b0 : bool) (a : V) :
  I2 v → (q0 ++ [b0]) `prefix_of` P → v q0 ≠ None →
  (∀ x, (q0 ++ [b0]) `prefix_of` x → v x = None) →
  c ≠ [] → c `prefix_of` P →
  bare_path (vinsert P (Some a) v) c P →
  (∀ x, v2 x = vcut c (vinsert P (Some a) v) x) → kept v2 c →
  c = q0 ++ [b0].
Proof.
  intros HI HF Hq0 Hbelow Hc HcP Hbare Hv2 Hkept.
  assert (v (q0 ++ [b0]) = None) as HvF by (by apply Hbelow).
  destruct (prefix_weak_total c (q0 ++ [b0]) P HcP HF) as [H1|H1].
  - apply prefix_snoc_cases in H1 as [H1|H1]; [|done]. exfalso.
    assert (q0 `prefix_of` P) as Hq0P.
    { transitivity (q0 ++ [b0]); [by apply prefix_app_r|done]. }
    assert (q0 ≠ P) as Hne.
    { intros ->. apply prefix_length in HF. rewrite length_app in HF.
      cbn in HF. lia. }
    destruct (Hbare q0 H1 Hq0P Hne) as [Hblank Hoth].
    unfold vinsert in Hblank. rewrite decide_False, decide_True in Hblank by done.
    assert (v q0 = Some None) as Hvq0.
    { destruct (v q0) as [[?|]|]; done. }
    assert (q0 ≠ []) as Hq0ne.
    { intros ->. apply prefix_nil_inv in H1. done. }
    destruct (has_child v q0 (HI q0 Hq0ne Hvq0)) as [b' Hb'].
    destruct (Hoth b') as [Hp|Hn].
    + assert (q0 ++ [b'] = q0 ++ [b0]) as Heq.
      { apply (prefix_same_length _ _ P); [done|done|].
        by rewrite !length_app. }
      rewrite Heq in Hb'. done.
    + unfold vinsert in Hn. destruct (decide (q0 ++ [b'] = P)); [done|].
      destruct (decide (q0 ++ [b'] `prefix_of` P)) as [Hp|Hp]; [|done].
      by destruct (v (q0 ++ [b'])).
  - destruct (decide (c = q0 ++ [b0])) as [|Hne]; [done|]. exfalso.
    destruct c as [|bc c0 _] using rev_ind; [done|].
    apply prefix_snoc_cases in H1 as [H1|H1]; [|done].
    assert (c0 `prefix_of` P) as Hc0P.
    { transitivity (c0 ++ [bc]); [by apply prefix_app_r|done]. }
    assert (c0 ≠ P) as Hc0ne.
    { intros ->. apply prefix_length in HcP. rewrite length_app in HcP.
      cbn in HcP. lia. }
    assert (¬ (c0 ++ [bc]) `prefix_of` c0) as Hlong.
    { intros Hp. apply prefix_length in Hp. rewrite length_app in Hp.
      cbn in Hp. lia. }
    assert (v2 c0 = Some None) as Hv2c0.
    { rewrite Hv2. unfold vcut, vinsert.
      rewrite decide_False by done. rewrite decide_False by done.
      rewrite decide_True by done. by rewrite (Hbelow c0 H1). }
    destruct (Hkept c0 bc eq_refl) as [->|[[a' Ha']|Hch]].
    + apply prefix_nil_inv in H1. by destruct q0.
    + congruence.
    + apply Hch. intros b. rewrite Hv2. unfold vcut, vinsert.
      destruct (decide (c0 ++ [bc] `prefix_of` c0 ++ [b])) as [|Hnp]; [done|].
      assert (¬ (c0 ++ [b]) `prefix_of` P) as HnP.
      { intros Hp. apply Hnp.
        rewrite (prefix_same_length (c0 ++ [bc]) (c0 ++ [b]) P); try done.
        by rewrite !length_app. }
      rewrite decide_False by (intros Heq; rewrite Heq in HnP; by apply HnP).
      rewrite decide_False by done. apply Hbelow.
      transitivity c0; [done|by apply prefix_app_r].
Qed.

(** X1. In every reachable state, a call of [Add] or [Set] that succeeds
    changes the entry of its prefix to the payload and no other entry. *)
Theorem insert_sets_one_entry s (key mask : bytes) (val : option V)
    (overwrite : bool) s' :
  reachable s → insert s key mask val overwrite = Ret (None, s') →
  ∀ q, entry s' q = if decide (q = pbits key mask) then val else entry s q.
Proof.
  intros Hreach Hins q. destruct (reachable_wf s Hreach) as [fl Hwf].
  destruct (insert_outcome s fl _ _ _ _ _ _ Hwf Hins)
    as [(_ & ? & _)|(_ & _ & [(_ & _ & ? & _)|(_ & _ & fl' & _ & Hview)])];
    try done.
  by rewrite !entry_view, Hview, pick_vinsert.
Qed.

(** X2. In every reachable state, a call of [Remove] that succeeds removes
    the entry of its prefix and no other entry. *)
Theorem remove_deletes_one_entry s (c : IPNet) s' :
  reachable s → Remove s c = Ret (None, s') →
  ∀ q, entry s' q =
       if decide (q = pbits (IP c) (Mask c)) then None else entry s q.
Proof.
  intros Hreach Hdel q. destruct (reachable_wf s Hreach) as [fl Hwf].
  rewrite !entry_view.
  destruct (delete_outcome s fl _ _ _ _ _ Hwf Hdel)
    as [(_ & ? & _)|(_ & _ & [(_ & ? & _)|[(_ & _ & _ & ? & _)
        |[(_ & _ & _ & _ & _ & Hview)
         |(_ & _ & [?|Hch] & _ & c0 & chain & _ & _ & Hpre & Hview & _ & _
           & Hbare & _)]]])]; try done.
  - by rewrite Hview, pick_vclear.
  - by rewrite Hview, (pick_vcut_remove s fl c0 (pbits (IP c) (Mask c))).
Qed.

(** X3. In every reachable state, a call of [Sub] that succeeds removes the
    node of its prefix with everything below it, hence the entries of the
    prefixes it is a prefix of, and no other entry. *)
Theorem sub_removes_subtree s (c : IPNet) s' :
  reachable s → Sub s c = Ret (None, s') →
  (∀ q, pbits (IP c) (Mask c) `prefix_of` q → tree_at s' q = None) ∧
  (∀ q, entry s' q =
        if decide (pbits (IP c) (Mask c) `prefix_of` q) then None
        else entry s q).
Proof.
  intros Hreach Hdel. destruct (reachable_wf s Hreach) as [fl Hwf].
  destruct (delete_outcome s fl _ _ _ _ _ Hwf Hdel)
    as [(_ & ? & _)|(_ & _ & [(_ & ? & _)|[(_ & _ & _ & ? & _)
        |[(? & _)
         |(_ & _ & _ & _ & c0 & chain & _ & _ & Hpre & Hview & Htree & _
           & Hbare & _)]]])]; try done.
  split.
  - intros q Hq. rewrite Htree. rewrite decide_True; [done|]. by etrans.
  - intros q. rewrite !entry_view.
    by rewrite Hview, (pick_vcut_sub s fl c0 (pbits (IP c) (Mask c))).
Qed.

(** X4. A deletion that succeeded is not repeatable: [Remove] after a
    [Remove] of the same prefix, and [Remove] or [Sub] after a [Sub],
    answer ErrNotFound and leave the set as it is. *)
Theorem delete_twice_not_found s (key mask : bytes) (sub sub' : bool) s1 :
  reachable s → delete s key mask sub = Ret (None, s1) →
  sub = true ∨ sub' = false →
  delete s1 key mask sub' = Ret (Some ErrNotFound, s1).
Proof.
  intros Hreach Hdel Hsub. destruct (reachable_wf s Hreach) as [fl Hwf].
  destruct (delete_outcome s fl _ _ _ _ _ Hwf Hdel)
    as [(_ & ? & _)|(HL & Hkey & [(_ & ? & _)|[(_ & _ & _ & ? & _)
        |[(-> & _ & Hch & _ & Hwf1 & Hview)
         |(_ & _ & _ & _ & c0 & chain & Hwf1 & _ & Hpre & Hview & _)]]])];
    try done.
  - destruct Hsub as [?| ->]; [done|].
    apply (delete_blank s1 fl); try done.
    + rewrite Hview. unfold vclear. by rewrite decide_True.
    + intros Hch1. apply Hch. intros b. specialize (Hch1 b).
      rewrite Hview in Hch1. unfold vclear in Hch1.
      rewrite decide_False in Hch1; [done|]. apply snoc_ne_self.
  - apply (delete_missing s1 (chain ++ fl)); try done.
    rewrite Hview. unfold vcut. by rewrite decide_True.
Qed.

(** X5. After calls with payloads that are not nil, [Add] of a prefix that
    holds no value followed by [Remove] of the prefix leaves the tree with
    the nodes and values it had, and every lookup with the result it
    had. *)
Theorem add_then_remove_restores (ops : list (op V)) s (c : IPNet) (a : V) :
  Forall payload_present ops → run_new ops = Ret s →
  length (IP c) = length (Mask c) → IP c ≠ [] →
  pbits (IP c) (Mask c) ≠ [] → entry s (pbits (IP c) (Mask c)) = None →
  ∃ s1 s2,
    Add s c (Some a) = Ret (None, s1) ∧ Remove s1 c = Ret (None, s2) ∧
    (∀ q, view s2 q = view s q) ∧
    (∀ key mask : bytes, find s2 key mask = find s key mask).
Proof.
  intros Hpay Hrun HL Hkey HP Hent.
  destruct (run_new_inv ops s Hrun) as (fl & Hwf & _).
  pose proof (run_new_I2 ops s Hpay Hrun) as HI.
  set (P := pbits (IP c) (Mask c)) in *. rewrite entry_view in Hent.
  assert (∀ a', view s P ≠ Some (Some a')) as Hfree.
  { intros a' Ha'. by rewrite Ha' in Hent. }
  destruct (add_fresh s fl c (Some a) Hwf HL Hkey Hfree)
    as (s1 & fl1 & Hadd & Hwf1 & Hview1).
  fold P in Hview1.
  assert (view s1 P = Some (Some a)) as Hv1P.
  { rewrite Hview1. unfold vinsert. by rewrite decide_True. }
  assert (∀ b : bool, view s1 (P ++ [b]) = view s (P ++ [b])) as Hkids.
  { intros b. rewrite Hview1. unfold vinsert.
    rewrite decide_False by apply snoc_ne_self.
    rewrite decide_False; [done|]. intros Hp. apply prefix_length in Hp.
    rewrite length_app in Hp. cbn in Hp. lia. }
  destruct (delete_total s1 fl1 (IP c) (Mask c) false Hwf1 HL Hkey HP)
    as (e & s2 & Hdel).
  assert (∃ fl2, wf s2 fl2 ∧ e = None ∧ ∀ q, view s2 q = view s q)
    as (fl2 & Hwf2 & -> & Hview2).
  { destruct (delete_outcome s1 fl1 _ _ _ _ _ Hwf1 Hdel)
      as [(? & _)|(_ & _ & [(Hv & _)|[(_ & Hv & _)
          |[(_ & _ & Hch & -> & Hwf2 & Hview2)
           |(_ & _ & [?|Hch] & -> & c0 & chain & Hwf2 & Hc0 & Hpre & Hview2
             & _ & Hkept & Hbare & _)]]])]; try done.
    - fold P in Hv. congruence.
    - fold P in Hv. congruence.
    - (* the prefix was a node with children: its value is cleared *)
      fold P in Hch, Hview2. exists fl1. split; [done|]. split; [done|].
      destruct (has_child _ _ Hch) as [b Hb]. rewrite Hkids in Hb.
      assert (view s P ≠ None) as HPs.
      { apply (view_above_Some s fl P (P ++ [b])); [done|done|].
        by apply prefix_app_r. }
      assert (view s P = Some None) as HPn.
      { destruct (view s P) as [[a'|]|]; try done. }
      intros q. rewrite Hview2. unfold vclear.
      destruct (decide (q = P)) as [->|Hne]; [done|].
      rewrite Hview1. unfold vinsert. rewrite decide_False by done.
      destruct (decide (q `prefix_of` P)) as [Hq|Hq]; [|done].
      pose proof (view_above_Some s fl q P Hwf HPs Hq).
      by destruct (view s q).
    - (* the prefix was a leaf: the nodes the insertion created are cut *)
      fold P in Hch, Hview2, Hpre, Hbare. exists (chain ++ fl1).
      split; [done|]. split; [done|].
      assert (childless (view s) P) as Hchs.
      { intros b. rewrite <- Hkids. apply Hch. }
      assert (view s P = None) as HPnone.
      { destruct (view s P) as [[a'|]|] eqn:HvP; [by destruct (Hfree a')| |done].
        by destruct (HI P HP HvP). }
      destruct (root_tree_at s fl Hwf) as (r & Hr & Hr0).
      assert (view s [] ≠ None) as Hroot.
      { intros Hn. apply (view_None _ _ _ Hwf) in Hn. congruence. }
      destruct (frontier (view s) P Hroot HPnone) as (q0 & b0 & HF & Hq0 & Hb0).
      assert (∀ x, (q0 ++ [b0]) `prefix_of` x → view s x = None) as Hbelow.
      { intros x Hx. by apply (view_below_None s fl (q0 ++ [b0])). }
      assert (bare_path (vinsert P (Some a) (view s)) c0 P) as Hbare'.
      { intros x H1 H2 H3. destruct (Hbare x H1 H2 H3) as [Hb1 Hb2].
        rewrite Hview1 in Hb1. split; [done|]. intros b.
        destruct (Hb2 b) as [?|Hn]; [by left|right]. by rewrite Hview1 in Hn. }
      assert (∀ x, view s2 x = vcut c0 (vinsert P (Some a) (view s)) x)
        as Hview2'.
      { intros x. rewrite Hview2. unfold vcut. by rewrite Hview1. }
      pose proof (cut_at_frontier (view s) (view s2) P c0 q0 b0 a HI HF Hq0
                    Hbelow Hc0 Hpre Hbare' Hview2' Hkept) as ->.
      intros q. rewrite Hview2'. unfold vcut, vinsert.
      destruct (decide (q0 ++ [b0] `prefix_of` q)) as [Hq|Hq];
        [by rewrite Hbelow|].
      rewrite decide_False by (by intros ->).
      destruct (decide (q `prefix_of` P)) as [HqP|HqP]; [|done].
      destruct (prefix_weak_total q (q0 ++ [b0]) P HqP HF) as [H1|H1]; [|done].
      apply prefix_snoc_cases in H1 as [H1| ->];
        [|by destruct Hq].
      pose proof (view_above_Some s fl q q0 Hwf Hq0 H1).
      by destruct (view s q). }
  exists s1, s2. split; [done|]. split; [done|]. split; [done|].
  intros key mask. by apply (find_ext s fl s2 fl2).
Qed.

(** X6. In every reachable state, [Remove] of a prefix that holds a value
    followed by [Add] of the prefix with that value leaves the tree with
    the nodes and values it had, and every lookup with the result it
    had. *)
Theorem remove_then_add_restores s (c : IPNet) (a : V) s1 :
  reachable s → entry s (pbits (IP c) (Mask c)) = Some a →
  Remove s c = Ret (None, s1) →
  ∃ s2,
    Add s1 c (Some a) = Ret (None, s2) ∧
    (∀ q, view s2 q = view s q) ∧
    (∀ key mask : bytes, find s2 key mask = find s key mask).
Proof.
  intros Hreach Hent Hdel. destruct (reachable_wf s Hreach) as [fl Hwf].
  set (P := pbits (IP c) (Mask c)) in *. rewrite entry_view in Hent.
  assert (view s P = Some (Some a)) as HvP.
  { destruct (view s P) as [[a'|]|]; cbn in Hent; congruence. }
  assert (∀ x, x `prefix_of` P → touch (view s x) = view s x) as Htouch.
  { intros x Hx.
    assert (view s x ≠ None) as Hne.
    { apply (view_above_Some s fl x P); [done|congruence|done]. }
    by destruct (view s x). }
  assert (∃ fl1, wf s1 fl1 ∧ length (IP c) = length (Mask c) ∧ IP c ≠ [] ∧
            (∀ a', view s1 P ≠ Some (Some a')) ∧
            ∀ q, vinsert P (Some a) (view s1) q = view s q)
    as (fl1 & Hwf1 & HL & Hkey & Hfree & Hback).
  { destruct (delete_outcome s fl _ _ _ _ _ Hwf Hdel)
      as [(_ & ? & _)|(HL & Hkey & [(_ & ? & _)|[(_ & _ & _ & ? & _)
          |[(_ & _ & Hch & _ & Hwf1 & Hview1)
           |(_ & _ & [?|Hch] & _ & c0 & chain & Hwf1 & Hc0 & Hpre & Hview1
             & _ & _ & Hbare & _)]]])]; try done.
    - fold P in Hview1. exists fl. split_and!; try done.
      + intros a'. rewrite Hview1. unfold vclear. by rewrite decide_True.
      + intros q. unfold vinsert. destruct (decide (q = P)) as [->|Hne];
          [done|].
        rewrite Hview1. unfold vclear. destruct (decide (q = P)); [done|].
        destruct (decide (q `prefix_of` P)); [by apply Htouch|done].
    - fold P in Hview1, Hpre, Hbare, Hch. exists (chain ++ fl).
      split_and!; try done.
      + intros a'. rewrite Hview1. unfold vcut. by rewrite decide_True.
      + intros q. unfold vinsert. destruct (decide (q = P)) as [->|Hne];
          [done|].
        rewrite Hview1. unfold vcut.
        destruct (decide (c0 `prefix_of` q)) as [Hcq|Hcq].
        * destruct (decide (P `prefix_of` q)) as [HPq|HPq].
          -- rewrite decide_False.
             ++ symmetry. by apply (childless_below s fl P q).
             ++ intros HqP. apply Hne. by apply (anti_symm prefix).
          -- rewrite (cut_holds_nothing s fl c0 P q) by done.
             by case_decide.
        * destruct (decide (q `prefix_of` P)); [by apply Htouch|done]. }
  destruct (add_fresh s1 fl1 c (Some a) Hwf1 HL Hkey Hfree)
    as (s2 & fl2 & Hadd & Hwf2 & Hview2).
  fold P in Hview2.
  assert (∀ q, view s2 q = view s q) as Hview.
  { intros q. by rewrite Hview2, Hback. }
  exists s2. split; [done|]. split; [done|].
  intros key mask. by apply (find_ext s fl s2 fl2).
Qed.

(** X7. After every sequence of calls of Add, Set, Remove and Sub on a new
    set that returns, the entries of the set are those of the dictionary
    that the calls describe. *)
Theorem entries_follow_dictionary (ops : list (op V)) s :
  run_new ops = Ret s → ∀ q, entry s q = dict ops !! q.
Proof.
  intros Hrun q. unfold run_new in Hrun.
  destruct (@NewSet_spec V) as (s0 & Hnew & Hwf0 & _).
  rewrite Hnew in Hrun. cbn [obind] in Hrun. rewrite entry_view.
  apply (run_dict ops s0 [] s ∅ Hwf0); [by apply agrees_new|done].
Qed.

Lemma exec_bounded L o s fl e s' :
  wf s fl → op_len L o → bounded (view s) (8 * L) →
  exec o s = Ret (e, s') → bounded (view s') (8 * L).
Proof.
  intros Hwf Hlen Hbd Hex.
  assert (∀ (c : IPNet) val ow,
    length (IP c) = L → insert s (IP c) (Mask c) val ow = Ret (e, s') →
    bounded (view s') (8 * L)) as Hins.
  { intros c val ow HLc Hi.
    destruct (insert_outcome s fl _ _ _ _ _ _ Hwf Hi)
      as [(_ & _ & ->)|(_ & _ & [(_ & _ & _ & ->)|(_ & _ & fl' & _ & Hview)])];
      try done.
    eapply bounded_ext; [exact Hview|]. apply bounded_vinsert; [|done].
    rewrite <- HLc. apply pbits_length. }
  assert (∀ (c : IPNet) sub,
    delete s (IP c) (Mask c) sub = Ret (e, s') →
    bounded (view s') (8 * L)) as Hdel.
  { intros c sub Hd.
    destruct (delete_outcome s fl _ _ _ _ _ Hwf Hd)
      as [(_ & _ & ->)|(_ & _ & [(_ & _ & ->)|[(_ & _ & _ & _ & ->)
          |[(_ & [a Ha] & _ & _ & _ & Hview)
           |(_ & _ & _ & _ & c0 & chain & _ & _ & _ & Hview & _)]]])];
      try done.
    - intros q. rewrite Hview. unfold vclear.
      destruct (decide (q = _)) as [->|]; [|apply Hbd].
      intros _. apply Hbd. congruence.
    - intros q. rewrite Hview. unfold vcut.
      destruct (decide (c0 `prefix_of` q)); [done|apply Hbd]. }
  destruct o as [c val|c val|c|c]; cbn [exec op_len] in *; eauto.
Qed.

Lemma run_bounded L ops : ∀ s fl s',
  wf s fl → Forall (op_len L) ops → bounded (view s) (8 * L) →
  run ops s = Ret s' → bounded (view s') (8 * L).
Proof.
  induction ops as [|o ops IH]; intros s fl s' Hwf Hops Hbd Hrun.
  - cbn in Hrun. by injection Hrun as <-.
  - apply Forall_cons in Hops as [Ho Hops]. cbn [run] in Hrun.
    destruct (exec o s) as [[e s1]|] eqn:Hex; [|done]. cbn [obind] in Hrun.
    destruct (exec_wf o s fl e s1 Hwf Hex) as [fl1 Hwf1].
    apply (IH s1 fl1 s' Hwf1 Hops); [|done].
    exact (exec_bounded L o s fl e s1 Hwf Ho Hbd Hex).
Qed.

(** X8. After every sequence of calls of Add, Set, Remove and Sub on a new
    set that returns, with addresses of one length and payloads that are
    not nil, a lookup with an address of that length returns the value
    that the dictionary of the calls holds for the longest prefix of the
    query, or none when it holds no prefix of it. *)
Theorem lookup_after_any_calls (L : nat) (ops : list (op V)) s
    (key mask : bytes) :
  0 < L → Forall payload_present ops → Forall (op_len L) ops →
  run_new ops = Ret s → length key = L → length mask = L →
  (∃ r, find s key mask = Ret (r, None) ∧
        longest_match (dict ops) (pbits key mask) r) ∧
  (L = IPv4len ∨ L = IPv6len →
   ∃ r, GetByIP s key = Ret (r, None) ∧
        longest_match (dict ops) (addr_bits key) r).
Proof.
  intros HL Hpay Hops Hrun Hkey Hmask.
  destruct (run_new_inv ops s Hrun) as (fl & Hwf & _).
  pose proof (run_new_I2 ops s Hpay Hrun) as HI.
  assert (agrees (view s) (dict ops)) as Hag.
  { unfold run_new in Hrun.
    destruct (@NewSet_spec V) as (s0 & Hnew & Hwf0 & _).
    rewrite Hnew in Hrun. cbn [obind] in Hrun.
    apply (run_dict ops s0 [] s ∅ Hwf0); [by apply agrees_new|done]. }
  assert (bounded (view s) (8 * L)) as Hbd.
  { unfold run_new in Hrun.
    destruct (@NewSet_spec V) as (s0 & Hnew & Hwf0 & Hv0).
    rewrite Hnew in Hrun. cbn [obind] in Hrun.
    apply (run_bounded L ops s0 [] s Hwf0 Hops); [|done].
    intros q. rewrite Hv0. destruct (decide (q = [])) as [->|]; [|done].
    cbn. lia. }
  assert (key ≠ []) as Hk by (intros Hk; rewrite Hk in Hkey; cbn in Hkey; lia).
  split.
  - eexists. rewrite (find_spec s fl) by congruence. split; [done|].
    assert ((length (pbits key mask) =? 8 * length key)
            && is_blank (view s (pbits key mask)) = false) as ->.
    { destruct (Nat.eqb_spec (length (pbits key mask)) (8 * length key))
        as [Hfull|]; [|done].
      apply (no_blank_full _ (8 * L)); try done; lia. }
    by apply lpm_longest_match.
  - intros HL4. eexists. rewrite (GetByIP_spec s fl) by (done || lia).
    split; [done|].
    rewrite (no_blank_full _ (8 * L)); try done; try lia.
    + by apply lpm_longest_match.
    + rewrite addr_bits_length. lia.
Qed.

End effects.

(** ** Errors, panics and invariants *)

Section edges.
Context {V : Type}.
Implicit Types (s : IPSet V) (q x : list bool) (fl : list loc).
Implicit Types (v : list bool → option (option V)) (ov : option V).

Lemma not_both_empty (key mask : bytes) :
  ¬ (key = [] ∧ mask = []) → length key = length mask → key ≠ [].
Proof. intros Hne HL ->. destruct mask; [by apply Hne|done]. Qed.

Lemma insert_total s fl (key mask : bytes) (val : option V) ow :
  wf s fl → ¬ (key = [] ∧ mask = []) →
  ∃ e s', insert s key mask val ow = Ret (e, s').
Proof.
  intros Hwf Hne. destruct (decide (length key = length mask)) as [HL|HL].
  - pose proof (not_both_empty key mask Hne HL) as Hkey.
    destruct (insert_spec s fl key mask val ow Hwf HL Hkey)
      as [[_ ->]|[_ (s' & fl' & -> & _)]]; eauto.
  - unfold insert. apply Nat.eqb_neq in HL. rewrite HL. cbn. eauto.
Qed.

Lemma find_total s fl (key mask : bytes) :
  wf s fl → ¬ (key = [] ∧ mask = []) → ∃ r e, find s key mask = Ret (r, e).
Proof.
  intros Hwf Hne. destruct (decide (length key = length mask)) as [HL|HL].
  - pose proof (not_both_empty key mask Hne HL) as Hkey.
    rewrite (find_spec s fl) by done. eauto.
  - rewrite find_bad_ip by done. eauto.
Qed.

Lemma childless_root s fl :
  wf s fl → childless (view s) [] ↔ ∀ b : bool, tree_at s [b] = None.
Proof.
  intros Hwf. unfold childless. cbn [app].
  split; intros H b; by apply (view_None _ _ _ Hwf).
Qed.

Lemma insert_error s (key mask : bytes) (val : option V) ow e s' :
  insert s key mask val ow = Ret (Some e, s') →
  s' = s ∧
  ((e = ErrBadIP ∧ length key ≠ length mask) ∨
   (e = ErrNodeBusy ∧ ow = false ∧ length key = length mask)).
Proof.
  unfold insert. destruct (Nat.eqb_spec (length key) (length mask)) as [HL|HL];
    cbn [negb].
  2:{ intros [= <- <-]. split; [done|by left]. }
  destruct (insert_descend _ _ _ _ _ _ _ _) as [[[[i bm] nd] [nx|]]|];
    cbn [obind]; [| |done].
  - destruct (load (heap s) nd) as [n|]; cbn [obind]; [|done].
    destruct (bool_decide (value n ≠ None) && negb ow) eqn:Hb.
    + intros [= <- <-]. split; [done|]. right.
      apply andb_true_iff in Hb as [_ Hb]. by destruct ow.
    + by destruct (store _ _ _).
  - destruct (insert_extend _ _ _ _ _ _ _) as [[s1 nd1]|]; cbn [obind]; [|done].
    by destruct (store _ _ _).
Qed.

Lemma delete_error s (key mask : bytes) sub e s' :
  delete s key mask sub = Ret (Some e, s') →
  s' = s ∧
  ((e = ErrBadIP ∧ length key ≠ length mask) ∨
   (e = ErrNotFound ∧ length key = length mask)).
Proof.
  unfold delete. destruct (Nat.eqb_spec (length key) (length mask)) as [HL|HL];
    cbn [negb].
  2:{ intros [= <- <-]. split; [done|by left]. }
  destruct (delete_descend _ _ _ _ _ _ _) as [[l|]|]; cbn [obind]; [| |done].
  2:{ intros [= <- <-]. split; [done|by right]. }
  destruct (load (heap s) (Some l)) as [n|]; cbn [obind]; [|done].
  destruct (negb sub && _).
  - destruct (bool_decide (value n ≠ None)).
    + by destruct (store _ _ _).
    + intros [= <- <-]. split; [done|by right].
  - by destruct (delete_trim _ _ _).
Qed.

(** X9. A call that reports an error leaves the set exactly as it was.  Add
    reports ErrBadIP or ErrNodeBusy, Set only ErrBadIP, Remove and Sub
    ErrBadIP or ErrNotFound; ErrBadIP is reported only when the address
    and the mask differ in length. *)
Theorem failed_call_changes_nothing (o : op V) s (e : error) s' :
  exec o s = Ret (Some e, s') →
  s' = s ∧
  match o with
  | OpAdd c _ =>
    (e = ErrBadIP ∧ length (IP c) ≠ length (Mask c)) ∨
    (e = ErrNodeBusy ∧ length (IP c) = length (Mask c))
  | OpSet c _ => e = ErrBadIP ∧ length (IP c) ≠ length (Mask c)
  | OpRemove c | OpSub c =>
    (e = ErrBadIP ∧ length (IP c) ≠ length (Mask c)) ∨
    (e = ErrNotFound ∧ length (IP c) = length (Mask c))
  end.
Proof.
  destruct o as [c val|c val|c|c]; cbn [exec]; intros Hex.
  - apply insert_error in Hex as [-> [?|(? & _ & ?)]]; auto.
  - apply insert_error in Hex as [-> [?|(? & ? & ?)]]; auto. done.
  - by apply delete_error in Hex.
  - by apply delete_error in Hex.
Qed.

(** X10. In every reachable state, [insert] and [find] panic exactly when
    the address and the mask are both empty (the index of their first
    byte is out of range), and GetByIP never panics. *)
Theorem insert_find_panic_only_on_empty s (key mask : bytes)
    (val : option V) (overwrite : bool) :
  reachable s →
  (key = [] ∧ mask = [] →
   insert s key mask val overwrite = Fault IndexOutOfRange ∧
   find s key mask = Fault IndexOutOfRange) ∧
  (¬ (key = [] ∧ mask = []) →
   (∃ e s', insert s key mask val overwrite = Ret (e, s')) ∧
   (∃ r e, find s key mask = Ret (r, e))) ∧
  (∀ ip : bytes, ∃ r e, GetByIP s ip = Ret (r, e)).
Proof.
  intros Hreach. destruct (reachable_wf s Hreach) as [fl Hwf]. split_and!.
  - intros [-> ->]. split; [apply insert_nil|by apply (find_nil s fl)].
  - intros Hne. split; [by apply (insert_total s fl)|by apply (find_total s fl)].
  - intros ip. unfold GetByIP.
    destruct (Nat.eqb_spec (length ip) IPv4len) as [H4|H4];
      apply (find_total s fl); try done.
    + intros [-> _]. done.
    + intros [_ ?]. done.
Qed.

(** X11. In every reachable state, [delete] (Remove with [sub] false, Sub
    with [sub] true) panics in two cases and returns in every other: with
    an empty address and an empty mask the index of the first byte is out
    of range; with a mask that has no leading one bit the trim loop reads
    the parent of the root, unless the call is a Remove and the root has
    a child. *)
Theorem delete_panics_exactly s (key mask : bytes) (sub : bool) :
  reachable s →
  (key = [] ∧ mask = [] → delete s key mask sub = Fault IndexOutOfRange) ∧
  (length key = length mask → key ≠ [] → pbits key mask = [] →
   sub = true ∨ (∀ b : bool, tree_at s [b] = None) →
   delete s key mask sub = Fault NilDeref) ∧
  (¬ (key = [] ∧ mask = []) →
   ¬ (length key = length mask ∧ pbits key mask = [] ∧
      (sub = true ∨ ∀ b : bool, tree_at s [b] = None)) →
   ∃ e s', delete s key mask sub = Ret (e, s')).
Proof.
  intros Hreach. destruct (reachable_wf s Hreach) as [fl Hwf]. split_and!.
  - intros [-> ->]. by apply (delete_nil s fl).
  - intros HL Hkey HP Hcase. apply (delete_root_fault s fl); try done.
    destruct Hcase as [?|Hc]; [by left|right].
    by apply (childless_root s fl).
  - intros Hne Hok. destruct (decide (length key = length mask)) as [HL|HL].
    2:{ unfold delete. apply Nat.eqb_neq in HL. rewrite HL. cbn. eauto. }
    pose proof (not_both_empty key mask Hne HL) as Hkey.
    destruct (decide (pbits key mask = [])) as [HP|HP].
    2:{ by apply (delete_total s fl). }
    destruct sub; [destruct Hok; by auto|].
    destruct (root_tree_at s fl Hwf) as (r & Hr & Hr0).
    destruct (wf_closed _ _ Hwf _ _ Hr0) as [n Hn].
    destruct (childless_dec s fl [] r n Hwf Hr0 Hn) as [Hc|Hc].
    { destruct Hok. split; [done|]. split; [done|]. right.
      by apply (childless_root s fl). }
    rewrite <- HP in Hc.
    destruct (view s (pbits key mask)) as [[a|]|] eqn:Hv.
    + destruct (delete_clear s fl key mask a Hwf HL Hkey Hv Hc)
        as (s' & -> & _). eauto.
    + rewrite (delete_blank s fl) by done. eauto.
    + rewrite (delete_missing s fl) by done. eauto.
Qed.

Lemma exec_total o s fl :
  wf s fl → safe_op o → ∃ e s', exec o s = Ret (e, s').
Proof.
  intros Hwf Hsafe.
  assert (∀ (c : IPNet) sub,
    ¬ (IP c = [] ∧ Mask c = []) →
    (length (IP c) = length (Mask c) → pbits (IP c) (Mask c) ≠ []) →
    ∃ e s', delete s (IP c) (Mask c) sub = Ret (e, s')) as Hdel.
  { intros c sub Hne HP.
    destruct (decide (length (IP c) = length (Mask c))) as [HL|HL].
    - apply (delete_total s fl); try done; [|by apply HP].
      by apply (not_both_empty _ (Mask c)).
    - unfold delete. apply Nat.eqb_neq in HL. rewrite HL. cbn. eauto. }
  destruct o as [c val|c val|c|c]; cbn [exec safe_op] in *.
  - by apply (insert_total s fl).
  - by apply (insert_total s fl).
  - destruct Hsafe. by apply Hdel.
  - destruct Hsafe. by apply Hdel.
Qed.

(** X12. A sequence of calls on a new set returns, without a panic, when no
    call has an empty address with an empty mask and every Remove and Sub
    has a mask with a leading one bit. *)
Theorem safe_calls_return (ops : list (op V)) :
  Forall safe_op ops → ∃ s, run_new ops = Ret s.
Proof.
  intros Hops. unfold run_new.
  destruct (@NewSet_spec V) as (s0 & -> & Hwf0 & _). cbn [obind].
  revert s0 Hwf0. generalize (@nil loc).
  induction Hops as [|o ops Ho Hops IH]; intros fl s Hwf; [by exists s|].
  destruct (exec_total o s fl Hwf Ho) as (e & s1 & Hex).
  destruct (exec_wf o s fl e s1 Hwf Hex) as [fl1 Hwf1].
  cbn [run]. rewrite Hex. cbn [obind]. by apply (IH fl1).
Qed.

(** X13. A new set has a root and nothing else: the root is a cleared node,
    the first slot of a pool block of [ALLOC_LEN] nodes; there is no node
    below it, no entry and no free node; and every lookup returns none. *)
Theorem new_set_is_empty :
  ∃ s : IPSet V,
    NewSet = Ret s ∧
    (∃ r, root s = Some r ∧
          heap s !! r = Some (mkNode None None None None)) ∧
    free s = None ∧ len (pool s) = 1 ∧ cap (pool s) = ALLOC_LEN ∧
    (∀ q, q ≠ [] → tree_at s q = None) ∧
    (∀ q, entry s q = None) ∧
    (∀ key mask : bytes,
       length key = length mask → key ≠ [] →
       find s key mask = Ret (None, None)) ∧
    (∀ ip : bytes,
       length ip = IPv4len ∨ length ip = IPv6len →
       GetByIP s ip = Ret (None, None)).
Proof.
  destruct (@NewSet_spec V) as (s & Hnew & Hwf & Hview).
  exists s. split; [done|].
  assert (s = mkSet (Some (1, 0)) None (mkSlice 1 1 ALLOC_LEN)
                    (alloc_block 1 ALLOC_LEN ∅)) as Hs.
  { assert (Ret s = @NewSet V) as Heq by done. by injection Heq. }
  assert (∀ q, entry s q = None) as Hent.
  { intros q. rewrite entry_view, Hview. by case_decide. }
  assert (∀ P, lpm (view s) P = None) as Hlpm.
  { intros P. apply lpm_none. intros x a _. rewrite Hview. by case_decide. }
  split_and!.
  - exists (1, 0). rewrite Hs. split; [done|]. cbn [heap].
    rewrite alloc_block_lookup. cbn [fst snd].
    rewrite decide_True; [done|]. pose proof ALLOC_LEN_pos. lia.
  - by rewrite Hs.
  - by rewrite Hs.
  - by rewrite Hs.
  - intros q Hq. apply (view_None _ _ _ Hwf). rewrite Hview.
    by rewrite decide_False.
  - done.
  - intros key mask HL Hkey. rewrite (find_spec s []) by done.
    rewrite Hlpm. by destruct (_ && _).
  - intros ip Hip. rewrite (GetByIP_spec s []) by done.
    rewrite Hlpm. by destruct (is_blank _).
Qed.

(** X14. In every reachable state, [Set] of a prefix with a value succeeds
    whatever the prefix held, and [Get] of the prefix then returns that
    value. *)
Theorem set_overwrites s (c : IPNet) (a : V) :
  reachable s → length (IP c) = length (Mask c) → IP c ≠ [] →
  ∃ s1, Set_ s c (Some a) = Ret (None, s1) ∧
        Get s1 c = Ret (Some a, None).
Proof.
  intros Hreach HL Hkey. destruct (reachable_wf s Hreach) as [fl Hwf].
  unfold Set_, Get.
  destruct (insert_spec s fl (IP c) (Mask c) (Some a) true Hwf HL Hkey)
    as [[[? _] _]|[_ (s1 & fl1 & Heq & Hwf1 & Hview)]]; [done|].
  exists s1. split; [done|].
  assert (view s1 (pbits (IP c) (Mask c)) = Some (Some a)) as Hv.
  { rewrite Hview. by rewrite decide_True. }
  rewrite (find_spec s1 fl1) by done. rewrite Hv.
  cbn [is_blank]. rewrite andb_false_r. by rewrite (lpm_self _ _ a).
Qed.

(** X15. The tree identifies a prefix by its bits alone, whatever the length
    of the address: in every reachable state, once [Add] of a prefix has
    stored a value, [Add] of any prefix with the same bits (an IPv6 prefix
    with the bits of an IPv4 one) answers ErrNodeBusy, [Get] of it returns
    the stored value, and a [Remove] of it that succeeds removes the
    entry. *)
Theorem same_bits_same_entry s (c c' : IPNet) (a : V) (val : option V) s1 :
  reachable s →
  length (IP c') = length (Mask c') → IP c' ≠ [] →
  pbits (IP c') (Mask c') = pbits (IP c) (Mask c) →
  Add s c (Some a) = Ret (None, s1) →
  Add s1 c' val = Ret (Some ErrNodeBusy, s1) ∧
  Get s1 c' = Ret (Some a, None) ∧
  (∀ s2, Remove s1 c' = Ret (None, s2) →
         entry s2 (pbits (IP c) (Mask c)) = None).
Proof.
  intros Hreach HL' Hkey' Hbits Hadd.
  destruct (reachable_wf s Hreach) as [fl Hwf]. unfold Add, Get, Remove in *.
  destruct (insert_outcome s fl _ _ _ _ _ _ Hwf Hadd)
    as [(_ & ? & _)|(HL & Hkey & [(_ & _ & ? & _)
                                 |(_ & _ & fl1 & Hwf1 & Hview)])]; try done.
  assert (view s1 (pbits (IP c') (Mask c')) = Some (Some a)) as Hv.
  { rewrite Hbits, Hview. unfold vinsert. by rewrite decide_True. }
  split_and!.
  - destruct (insert_spec s1 fl1 (IP c') (Mask c') val false Hwf1 HL' Hkey')
      as [[_ Heq]|[Hnb _]]; [done|]. destruct Hnb. split; eauto.
  - rewrite (find_spec s1 fl1) by done. rewrite Hv.
    cbn [is_blank]. rewrite andb_false_r. by rewrite (lpm_self _ _ a).
  - intros s2 Hdel. rewrite entry_view, <- Hbits.
    destruct (delete_outcome s1 fl1 _ _ _ _ _ Hwf1 Hdel)
      as [(_ & ? & _)|(_ & _ & [(_ & ? & _)|[(_ & _ & _ & ? & _)
          |[(_ & _ & _ & _ & _ & Hview2)
           |(_ & _ & _ & _ & c0 & chain & _ & _ & Hpre & Hview2 & _)]]])];
      try done.
    + rewrite Hview2. unfold vclear. by rewrite decide_True.
    + rewrite Hview2. unfold vcut. by rewrite decide_True.
Qed.

(** X16. What [find] returns.  In every reachable state [find] follows the
    bits of the address under the leading ones of the mask and returns the
    value of the deepest node on that path that has one, none if no node
    has; except that, when the mask has no zero bit and the node at the
    end of the path exists without a value, it returns none. *)
Theorem find_deepest_value s (key mask : bytes) :
  reachable s → length key = length mask → key ≠ [] →
  ∃ r, find s key mask = Ret (r, None) ∧
    ((length (pbits key mask) = 8 * length key ∧
      tree_at s (pbits key mask) ≠ None ∧ entry s (pbits key mask) = None) →
     r = None) ∧
    (¬ (length (pbits key mask) = 8 * length key ∧
        tree_at s (pbits key mask) ≠ None ∧
        entry s (pbits key mask) = None) →
     match r with
     | Some a =>
       ∃ x, x `prefix_of` pbits key mask ∧ entry s x = Some a ∧
         ∀ y a', y `prefix_of` pbits key mask → entry s y = Some a' →
                 length y ≤ length x
     | None => ∀ x, x `prefix_of` pbits key mask → entry s x = None
     end).
Proof.
  intros Hreach HL Hkey. destruct (reachable_wf s Hreach) as [fl Hwf].
  eexists. rewrite (find_spec s fl) by done. split; [done|].
  set (P := pbits key mask).
  assert (is_blank (view s P) = true ↔
          tree_at s P ≠ None ∧ entry s P = None) as Hblank.
  { rewrite entry_view. rewrite <- (view_None s fl P Hwf).
    destruct (view s P) as [[a|]|]; cbn; split; try done.
    - by intros [_ ?].
    - by intros [? _]. }
  assert (∀ x a, view s x = Some (Some a) ↔ entry s x = Some a) as Hval.
  { intros x a. rewrite entry_view.
    destruct (view s x) as [[a'|]|]; cbn; split; congruence. }
  split.
  - intros (Hfull & Hb). apply Hblank in Hb. rewrite Hb.
    apply Nat.eqb_eq in Hfull. by rewrite Hfull.
  - intros Hnot.
    assert ((length P =? 8 * length key) && is_blank (view s P) = false) as ->.
    { destruct (Nat.eqb_spec (length P) (8 * length key)) as [Hfull|]; [|done].
      destruct (is_blank (view s P)) eqn:Hb; [|done].
      destruct Hnot. split; [done|]. by apply Hblank. }
    pose proof (lpm_spec (view s) P) as Hs.
    destruct (lpm (view s) P) as [a|].
    + destruct Hs as (x & Hx & Hvx & Hmax). exists x. split; [done|].
      split; [by apply Hval|]. intros y a' Hy Hvy. apply Hval in Hvy.
      by eapply Hmax.
    + intros x Hx. destruct (entry s x) as [a|] eqn:He; [|done].
      apply Hval in He. by destruct (Hs x a Hx).
Qed.

(** X17. The shape of the tree in every reachable state: the root exists and
    has no parent; every left or right link leads to an allocated node
    whose parent link points back; and no node is reached by two
    different paths, so the links form a tree. *)
Theorem tree_shape s :
  reachable s →
  (∃ r n, root s = Some r ∧ heap s !! r = Some n ∧ parent n = None) ∧
  (∀ q l n (b : bool) m,
     tree_at s q = Some l → heap s !! l = Some n → child b n = Some m →
     ∃ nm, heap s !! m = Some nm ∧ parent nm = Some l) ∧
  (∀ q q' l, tree_at s q = Some l → tree_at s q' = Some l → q = q').
Proof.
  intros Hreach. destruct (reachable_wf s Hreach) as [fl Hwf]. split_and!.
  - apply (wf_root _ _ Hwf).
  - intros q l n b m Hq Hn Hm.
    assert (tree_at s (q ++ [b]) = Some m) as Hqb.
    { by rewrite (tree_at_child _ _ b _ _ Hq Hn). }
    destruct (wf_closed _ _ Hwf _ _ Hqb) as [nm Hnm]. exists nm.
    split; [done|]. rewrite (wf_parent _ _ Hwf _ _ _ _ Hqb Hnm). done.
  - apply (wf_inj _ _ Hwf).
Qed.

(** X18. The arena in every reachable state: the free list is a chain of
    distinct allocated nodes linked through [right] and ended by nil, none
    of them a node of the tree; the pool slice is within its capacity, and
    the slots past its length are zeroed, in no tree and on no list. *)
Theorem arena_shape s :
  reachable s →
  ∃ fl,
    flist (heap s) (free s) fl ∧ NoDup fl ∧
    (∀ l q, l ∈ fl → tree_at s q ≠ Some l) ∧
    len (pool s) ≤ cap (pool s) ∧
    (∀ i, len (pool s) ≤ i < cap (pool s) →
          heap s !! (blk (pool s), i) = Some (mkNode None None None None) ∧
          ((blk (pool s), i) ∉ fl) ∧
          ∀ q, tree_at s q ≠ Some (blk (pool s), i)).
Proof.
  intros Hreach. destruct (reachable_wf s Hreach) as [fl Hwf]. exists fl.
  split_and!.
  - apply (wf_free _ _ Hwf).
  - apply (wf_free_nodup _ _ Hwf).
  - apply (wf_free_tree _ _ Hwf).
  - apply (wf_pool_le _ _ Hwf).
  - intros i Hi. split_and!.
    + by apply (wf_pool_zero _ _ Hwf).
    + by apply (wf_pool_free _ _ Hwf).
    + intros q. by apply (wf_pool_tree _ _ Hwf).
Qed.

End edges.

(** ** Only the bits of the prefix matter

    Two calls whose masks start with the same number of one bits and whose
    addresses agree on those bits run the loops in lockstep. *)

Section lockstep.
Context {V : Type}.
Variables (key mask key' mask' : bytes) (n : nat).
Hypothesis HL : length key = length mask.
Hypothesis HL' : length key' = length mask'.
Hypothesis Hlen : length key' = length key.
Hypothesis Hn : n ≤ 8 * length key.
Hypothesis Hbits : ∀ d, d < n →
  getbit mask d = true ∧ getbit mask' d = true ∧ getbit key' d = getbit key d.
Hypothesis Hend : n < 8 * length key →
  getbit mask n = false ∧ getbit mask' n = false.

Implicit Types (h : gmap loc (node V)) (s : IPSet V).

Lemma lockstep_cases d :
  d ≤ n → d < 8 * length key →
  (d < n ∧ getbit mask d = true ∧ getbit mask' d = true ∧
   getbit key' d = getbit key d) ∨
  (d = n ∧ getbit mask d = false ∧ getbit mask' d = false).
Proof using All.
  intros Hd Hd8. destruct (decide (d = n)) as [->|Hne].
  - right. split; [done|]. by apply Hend.
  - left. split; [lia|]. apply Hbits. lia.
Qed.

Lemma lockstep_insert_descend fuel h : ∀ d nd nx,
  d ≤ n → d < 8 * length key →
  insert_descend fuel h key' mask' (d / 8) (cursor_bitmap d) nd nx =
  insert_descend fuel h key mask (d / 8) (cursor_bitmap d) nd nx.
Proof using All.
  induction fuel as [|fuel IH]; intros d nd nx Hd Hd8; [done|].
  rewrite !insert_descend_step by (done || lia). rewrite Hlen.
  destruct (lockstep_cases d Hd Hd8) as [(Hlt & -> & -> & ->)|(-> & -> & ->)];
    [|done].
  destruct (load h nd) as [nn|]; [|done]. cbn [obind].
  destruct (child (getbit key d) nn) as [c|]; [|done].
  destruct (Nat.eqb_spec (S d) (8 * length key)); [done|].
  apply IH; lia.
Qed.

(** Where the descent stops short of a node it is at a bit of the prefix. *)
Lemma insert_descend_cursor fuel h : ∀ d nd nx i bm nd',
  d ≤ n → d < 8 * length key →
  insert_descend fuel h key mask (d / 8) (cursor_bitmap d) nd nx
    = Ret (i, bm, nd', None) →
  ∃ d', d' ≤ n ∧ d' < 8 * length key ∧ i = d' / 8 ∧ bm = cursor_bitmap d'.
Proof using All.
  induction fuel as [|fuel IH]; intros d nd nx i bm nd' Hd Hd8; [done|].
  rewrite insert_descend_step by (done || lia).
  destruct (lockstep_cases d Hd Hd8) as [(Hlt & -> & _)|(-> & -> & _)].
  2:{ intros [= <- <- <- ->]. by exists n. }
  destruct (load h nd) as [nn|]; [|done]. cbn [obind].
  destruct (child (getbit key d) nn) as [c|].
  2:{ intros [= <- <- <-]. exists d. split_and!; done || lia. }
  destruct (Nat.eqb_spec (S d) (8 * length key)); [done|].
  apply IH; lia.
Qed.

Lemma lockstep_insert_extend fuel : ∀ d s nd,
  d ≤ n → d < 8 * length key →
  insert_extend fuel s key' mask' (d / 8) (cursor_bitmap d) nd =
  insert_extend fuel s key mask (d / 8) (cursor_bitmap d) nd.
Proof using All.
  induction fuel as [|fuel IH]; intros d s nd Hd Hd8; [done|].
  rewrite !insert_extend_step by (done || lia). rewrite Hlen.
  destruct (lockstep_cases d Hd Hd8) as [(Hlt & -> & -> & ->)|(-> & -> & ->)];
    [|done].
  destruct (newNode s) as [[p s1]|]; [|done]. cbn [obind].
  destruct (store (heap s1) (Some p) _) as [h1|]; [|done]. cbn [obind].
  destruct (store h1 nd _) as [h2|]; [|done]. cbn [obind].
  destruct (Nat.eqb_spec (S d) (8 * length key)); [done|].
  apply IH; lia.
Qed.

Lemma lockstep_delete_descend fuel h : ∀ d nd,
  d ≤ n → d < 8 * length key →
  delete_descend fuel h key' mask' (d / 8) (cursor_bitmap d) nd =
  delete_descend fuel h key mask (d / 8) (cursor_bitmap d) nd.
Proof using All.
  induction fuel as [|fuel IH]; intros d nd Hd Hd8; [done|].
  rewrite !delete_descend_step by (done || lia). rewrite Hlen.
  destruct nd as [l|]; [|done].
  destruct (lockstep_cases d Hd Hd8) as [(Hlt & -> & -> & ->)|(-> & -> & ->)];
    [|done].
  destruct (load h (Some l)) as [nn|]; [|done]. cbn [obind].
  destruct (Nat.eqb_spec (S d) (8 * length key)); [done|].
  apply IH; lia.
Qed.

Lemma lockstep_find_loop fuel h : ∀ d nd val,
  d ≤ n → d < 8 * length key →
  find_loop fuel h key' mask' (d / 8) (cursor_bitmap d) nd val =
  find_loop fuel h key mask (d / 8) (cursor_bitmap d) nd val.
Proof using All.
  induction fuel as [|fuel IH]; intros d nd val Hd Hd8; [done|].
  rewrite !find_loop_step by (done || lia). rewrite Hlen.
  destruct nd as [l|]; [|done].
  destruct (load h (Some l)) as [nn|]; [|done]. cbn [obind].
  destruct (lockstep_cases d Hd Hd8) as [(Hlt & -> & -> & ->)|(-> & -> & ->)];
    [|done].
  cbn [negb]. destruct (Nat.eqb_spec (S d) (8 * length key)); [done|].
  apply IH; lia.
Qed.

Lemma lockstep_calls s :
  (∀ (val : option V) ow,
     insert s key' mask' val ow = insert s key mask val ow) ∧
  (∀ sub, delete s key' mask' sub = delete s key mask sub) ∧
  find s key' mask' = find s key mask.
Proof using All.
  destruct (decide (key = [])) as [Hk|Hk].
  { assert (key' = []) as Hk' by (apply length_zero_iff_nil; by rewrite Hlen, Hk).
    assert (mask = []) as Hm by (apply length_zero_iff_nil; by rewrite <- HL, Hk).
    assert (mask' = []) as Hm'
      by (apply length_zero_iff_nil; by rewrite <- HL', Hk').
    by rewrite Hk, Hk', Hm, Hm'. }
  pose proof (key_bits_pos key Hk) as Hpos.
  assert (0 ≤ n) as H0 by lia.
  pose proof (λ fuel h, lockstep_insert_descend fuel h 0) as Hid.
  pose proof (λ fuel h, lockstep_delete_descend fuel h 0) as Hdd.
  pose proof (λ fuel h, lockstep_find_loop fuel h 0) as Hfl.
  pose proof (λ fuel h, insert_descend_cursor fuel h 0) as Hic.
  change (0 / 8) with 0 in Hid, Hdd, Hfl, Hic.
  change (cursor_bitmap 0) with START_BYTE in Hid, Hdd, Hfl, Hic.
  split_and!.
  - intros val ow. unfold insert. rewrite <- HL, <- HL', Hlen.
    rewrite Hid by done.
    destruct (insert_descend _ _ key mask _ _ _ _) as [[[[i bm] nd] [nx|]]|]
      eqn:Hdesc; cbn [obind]; [done| |done].
    destruct (Hic _ _ _ _ _ _ _ H0 Hpos Hdesc) as (d' & Hd' & Hd8 & -> & ->).
    by rewrite lockstep_insert_extend.
  - intros sub. unfold delete. rewrite <- HL, <- HL', Hlen.
    by rewrite Hdd.
  - unfold find. rewrite <- HL, <- HL', Hlen. by rewrite Hfl.
Qed.

End lockstep.

(** X19. The calls read the mask up to its first zero bit and the address
    under the leading ones only.  When two masks of one length start with
    the same number [n] of one bits and two addresses agree on their
    first [n] bits, [insert], [delete] and [find] with one pair return
    what they return with the other, in every state: the host bits of the
    address and the bits of the mask after its first zero bit are
    ignored. *)
Theorem only_prefix_bits_matter {V} (s : IPSet V)
    (key mask key' mask' : bytes) (n : nat) :
  length key = length mask → length key' = length mask' →
  length key' = length key → n ≤ 8 * length key →
  (∀ d, d < n →
     getbit mask d = true ∧ getbit mask' d = true ∧
     getbit key' d = getbit key d) →
  (n < 8 * length key → getbit mask n = false ∧ getbit mask' n = false) →
  (∀ (val : option V) overwrite,
     insert s key' mask' val overwrite = insert s key mask val overwrite) ∧
  (∀ sub, delete s key' mask' sub = delete s key mask sub) ∧
  find s key' mask' = find s key mask.
Proof.
  intros HL HL' Hlen Hn Hbits Hend.
  exact (lockstep_calls key mask key' mask' n HL HL' Hlen Hn Hbits Hend s).
Qed.

(** ** The arena: free list and pool *)

Section arena.
Context {V : Type}.
Implicit Types (h : gmap loc (node V)) (s : IPSet V).
Implicit Types (p : option loc) (l m : loc) (q x : list bool) (fl : list loc).

Lemma newNode_take s fl :
  wf s fl →
  ∃ l s', newNode s = Ret (l, s') ∧ wf s' (tail fl) ∧
    detached s' (tail fl) l ∧ root s' = root s ∧
    (∀ x, tree_at s' x = tree_at s x) ∧
    (fl ≠ [] → pool s' = pool s ∧ head fl = Some l) ∧
    (∀ m, lost s fl m → l ≠ m ∧ lost s' (tail fl) m).
Proof.
  intros Hwf.
  destruct (newNode_spec s fl Hwf)
    as (l & s' & fl' & Hnew & Hwf' & Hdet & Hroot & Htree & _).
  pose proof (wf_free _ _ Hwf) as Hfl. pose proof (wf_free _ _ Hwf') as Hfl'.
  exists l, s'. split; [done|].
  destruct fl as [|l0 fl0]; cbn [tail].
  - (* a slot of the pool *)
    cbn in Hfl. unfold newNode in Hnew. rewrite Hfl in Hnew.
    assert (free s' = None ∧
            ((len (pool s) = cap (pool s) ∧ l = (S (blk (pool s)), 0) ∧
              pool s' = mkSlice (S (blk (pool s))) 1 ALLOC_LEN) ∨
             (len (pool s) < cap (pool s) ∧ l = (blk (pool s), len (pool s)) ∧
              pool s' = mkSlice (blk (pool s)) (len (pool s) + 1)
                                (cap (pool s))))) as [Hfree' Hcase].
    { destruct (Nat.eqb_spec (len (pool s)) (cap (pool s))) as [Hfull|Hroom];
        injection Hnew as <- <-; (split; [done|]).
      - by left.
      - right. pose proof (wf_pool_le _ _ Hwf). split; [lia|done]. }
    rewrite Hfree' in Hfl'.
    assert (fl' = []) as -> by (destruct fl'; [done|by destruct Hfl']).
    split; [done|]. split; [done|]. split; [done|]. split; [done|].
    split; [done|].
    intros m (Hmt & Hmf & Hmb & Hmp).
    destruct Hcase as [(Hfull & -> & Hpool)|(Hroom & -> & Hpool)].
    + split; [intros <-; cbn in Hmb; lia|].
      split_and!; try done.
      * intros q. rewrite Htree. apply Hmt.
      * rewrite Hpool. cbn. lia.
      * rewrite Hpool. cbn. intros i _ ->. cbn in Hmb. lia.
    + split; [intros Heq; apply (Hmp (len (pool s))); [lia|done]|].
      split_and!; try done.
      * intros q. rewrite Htree. apply Hmt.
      * by rewrite Hpool.
      * rewrite Hpool. cbn. intros i Hi. apply Hmp. lia.
  - (* the head of the free list *)
    destruct Hfl as [Hfree (n & Hn & Hfl0)].
    pose proof (wf_free_nodup _ _ Hwf) as Hnd.
    apply NoDup_cons in Hnd as [Hl0 Hnd].
    unfold newNode in Hnew. rewrite Hfree in Hnew.
    unfold load, store in Hnew. cbn [heap] in Hnew. rewrite Hn in Hnew.
    cbn [obind] in Hnew. rewrite !lookup_insert_eq in Hnew.
    cbn [obind] in Hnew. rewrite !lookup_insert_eq in Hnew.
    cbn [obind] in Hnew. rewrite !lookup_insert_eq in Hnew.
    cbn [obind] in Hnew. injection Hnew as <- <-.
    assert (fl' = fl0) as ->.
    { eapply flist_inj; [exact Hfl'|]. cbn [free set_heap heap].
      eapply flist_agree; [|done]. intros l Hl.
      rewrite !lookup_insert_ne; [done|by intros ->..]. }
    split; [done|]. split; [done|]. split; [done|]. split; [done|].
    split; [done|].
    intros m (Hmt & Hmf & Hmb & Hmp).
    split; [intros <-; apply Hmf; left|].
    split_and!; try done.
    + intros q. rewrite Htree. apply Hmt.
    + intros Hin. apply Hmf. by right.
Qed.


Lemma drop_S_tail {A} k (l : list A) : drop (S k) l = drop k (tail l).
Proof. destruct l; [by destruct k|done]. Qed.

Lemma lookup_S_tail {A} i (l : list A) : l !! S i = tail l !! i.
Proof. by destruct l. Qed.

Lemma lost_link s fl q (b : bool) l m h2 :
  (∀ x, tree_at (set_heap s h2) x =
        if decide (x = q ++ [b]) then Some l else tree_at s x) →
  l ≠ m → lost s fl m → lost (set_heap s h2) fl m.
Proof.
  intros Htree Hne (Hmt & Hmf & Hmb & Hmp). split_and!; try done.
  intros x. rewrite Htree. case_decide; [congruence|apply Hmt].
Qed.

Lemma insert_extend_take (key mask : bytes) n :
  ∀ d s fl q l fuel,
    length key = length mask → d + n = 8 * length key → 0 < n → n ≤ fuel →
    wf s fl → tree_at s q = Some l →
    tree_at s (q ++ [getbit key d]) = None →
    ∃ s' l',
      insert_extend fuel s key mask (d / 8) (cursor_bitmap d) (Some l)
        = Ret (s', Some l') ∧
      wf s' (drop (length (path_from key mask d n)) fl) ∧
      (length (path_from key mask d n) ≤ length fl → pool s' = pool s) ∧
      tree_at s' (q ++ path_from key mask d n) = Some l' ∧
      (∀ x l0, tree_at s x = Some l0 → tree_at s' x = Some l0) ∧
      (∀ i l0, i < length (path_from key mask d n) → fl !! i = Some l0 →
         tree_at s' (q ++ take (S i) (path_from key mask d n)) = Some l0) ∧
      (∀ m, lost s fl m →
            lost s' (drop (length (path_from key mask d n)) fl) m).
Proof.
  induction n as [|n IH]; intros d s fl q l fuel HL Hdn Hn Hfuel Hwf Hq Hnone;
    [lia|].
  destruct fuel as [|fuel]; [lia|].
  rewrite insert_extend_step by (done || lia). rewrite path_from_S.
  destruct (getbit mask d).
  2:{ exists s, l. cbn [length drop]. rewrite app_nil_r.
      split_and!; try done. intros i l0 Hi. lia. }
  set (b := getbit key d) in *.
  destruct (newNode_take s fl Hwf)
    as (m0 & s1 & -> & Hwf1 & Hdet & Hroot1 & Htree1 & Hhead & Hlost1).
  cbn [obind]. rewrite <- Htree1 in Hq, Hnone.
  destruct (wf_closed _ _ Hwf1 _ _ Hq) as [nl Hnl].
  assert (child b nl = None) as Hchild.
  { by rewrite <- (tree_at_child _ _ _ _ _ Hq Hnl). }
  destruct (link_spec s1 (tail fl) q l nl b m0 Hwf1 Hdet Hq Hnl Hchild)
    as (h1 & h2 & -> & Hst2 & Hwf2 & Htree2 & _ & _).
  cbn [obind]. rewrite Hst2. cbn [obind].
  set (s2 := set_heap s1 h2) in *.
  assert (tree_at s2 (q ++ [b]) = Some m0) as Hqb.
  { by rewrite Htree2, decide_True. }
  set (path' := path_from key mask (S d) n).
  assert (∃ s' l',
    (if S d =? 8 * length key then Ret (s2, Some m0)
     else insert_extend fuel s2 key mask (S d / 8) (cursor_bitmap (S d))
                        (Some m0))
      = Ret (s', Some l') ∧
    wf s' (drop (length path') (tail fl)) ∧
    (length path' ≤ length (tail fl) → pool s' = pool s2) ∧
    tree_at s' ((q ++ [b]) ++ path') = Some l' ∧
    (∀ x l0, tree_at s2 x = Some l0 → tree_at s' x = Some l0) ∧
    (∀ i l0, i < length path' → tail fl !! i = Some l0 →
       tree_at s' ((q ++ [b]) ++ take (S i) path') = Some l0) ∧
    (∀ m, lost s2 (tail fl) m → lost s' (drop (length path') (tail fl)) m))
    as Hrest.
  { destruct (Nat.eqb_spec (S d) (8 * length key)) as [Hend|Hend].
    - assert (n = 0) as Hn0 by lia. unfold path'. rewrite Hn0.
      cbn [path_from length drop]. rewrite app_nil_r.
      exists s2, m0. split_and!; try done. intros i l0 Hi. lia.
    - apply (IH (S d) s2 (tail fl) (q ++ [b]) m0 fuel); try done; try lia.
      rewrite Htree2, decide_False by apply snoc_ne_self.
      by apply (tree_at_prefix_None s1 (q ++ [b])); [|apply prefix_app_r]. }
  destruct Hrest as (s' & l' & -> & Hwf' & Hpool' & Hl' & Hmono & Hith & Hlost').
  exists s', l'. cbn [length]. rewrite drop_S_tail.
  assert (∀ x l0, tree_at s x = Some l0 → tree_at s' x = Some l0) as Hmono'.
  { intros x l0 Hx. apply Hmono. rewrite Htree2.
    rewrite decide_False; [by rewrite Htree1|].
    intros ->. rewrite <- Htree1 in Hx. congruence. }
  split; [done|]. split; [done|]. split.
  { intros Hk. destruct fl as [|l0 fl0]; [cbn in Hk; lia|].
    destruct Hhead as [Hp1 _]; [done|]. rewrite <- Hp1.
    apply Hpool'. cbn in *. lia. }
  split.
  { by rewrite (cons_middle b q path'), app_assoc. }
  split; [done|]. split.
  - intros [|i] l0 Hi Hfl.
    + cbn [take]. destruct fl as [|l1 fl0]; [done|].
      destruct Hhead as [_ Hh]; [done|]. cbn in Hh, Hfl. rewrite take_0.
      apply Hmono. congruence.
    + rewrite lookup_S_tail in Hfl. cbn [take].
      rewrite (cons_middle b q (take (S i) path')), app_assoc.
      apply Hith; [lia|done].
  - intros m Hm. apply Hlost'. destruct (Hlost1 m Hm) as [Hne Hm1].
    by apply (lost_link s1 (tail fl) q b m0 m h2).
Qed.

(** An insertion that succeeds creates the nodes its path lacks, taking
    them from the head of the free list. *)
Lemma insert_take s fl (key mask : bytes) (val : option V) ow s' :
  wf s fl → insert s key mask val ow = Ret (None, s') →
  ∃ k q0,
    q0 `prefix_of` pbits key mask ∧
    k + length q0 = length (pbits key mask) ∧
    tree_at s q0 ≠ None ∧
    (∀ x, x `prefix_of` pbits key mask → length q0 < length x →
          tree_at s x = None) ∧
    wf s' (drop k fl) ∧ (k ≤ length fl → pool s' = pool s) ∧
    (∀ x l0, tree_at s x = Some l0 → tree_at s' x = Some l0) ∧
    (∀ i l0, i < k → fl !! i = Some l0 →
       tree_at s' (take (S (length q0 + i)) (pbits key mask)) = Some l0) ∧
    (∀ m, lost s fl m → lost s' (drop k fl) m).
Proof.
  intros Hwf Hins.
  destruct (insert_outcome s fl _ _ _ _ _ _ Hwf Hins)
    as [(_ & ? & _)|(HL & Hkey & _)]; [done|].
  pose proof (key_bits_pos key Hkey) as Hpos.
  destruct (root_tree_at s fl Hwf) as (r & Hr & Hr0).
  revert Hins. unfold insert. rewrite HL, Nat.eqb_refl. cbn [negb].
  rewrite <- HL, Hr.
  pose proof (insert_descend_spec key mask (8 * length key) 0 s fl [] r
                (S (8 * length key)) HL eq_refl Hpos ltac:(lia) Hwf Hr0) as Hd.
  change (0 / 8) with 0 in Hd. change (cursor_bitmap 0) with START_BYTE in Hd.
  destruct Hd
    as [(i' & bm' & l' & -> & Hl')|(j & qj & lj & -> & Hj & Hqj & Hmj & Hnone & Heq)].
  - (* the node of the prefix exists *)
    cbn [obind app] in *. fold (pbits key mask) in Hl'.
    destruct (wf_closed _ _ Hwf _ _ Hl') as [nl Hnl].
    cbn [load]. rewrite Hnl. cbn [obind].
    destruct (bool_decide (value nl ≠ None) && negb ow); [done|].
    unfold store. rewrite Hnl. cbn [obind]. intros [= <-].
    destruct (wf_set_value s fl _ l' nl val Hwf Hl' Hnl)
      as (Hwf' & Htree' & _).
    exists 0, (pbits key mask). cbn [drop]. split_and!; try done.
    + congruence.
    + intros x Hx Hlt. apply prefix_length in Hx. lia.
    + intros x l0. by rewrite Htree'.
    + intros i l0 Hi. lia.
    + intros m (Hmt & Hmf & Hmb & Hmp). split_and!; try done.
      intros x. rewrite Htree'. apply Hmt.
  - (* the path stops at [qj]: extend it *)
    cbn [obind app Nat.add] in *. fold (pbits key mask) in Heq.
    destruct (insert_extend_take key mask (8 * length key - j) j s fl qj lj
                (S (8 * length key)))
      as (s1 & l1 & -> & Hwf1 & Hpool1 & Hl1 & Hmono & Hith & Hlost1);
      try done; try lia.
    cbn [obind]. rewrite Heq in Hl1.
    destruct (wf_closed _ _ Hwf1 _ _ Hl1) as [nl Hnl].
    unfold store. rewrite Hnl. cbn [obind]. intros [= <-].
    destruct (wf_set_value s1 _ _ l1 nl val Hwf1 Hl1 Hnl)
      as (Hwf' & Htree' & _).
    set (path := path_from key mask j (8 * length key - j)) in *.
    exists (length path), qj.
    assert (path ≠ []) as Hpne.
    { unfold path. destruct (8 * length key - j) as [|k] eqn:Hk; [lia|].
      rewrite path_from_S, Hmj. done. }
    assert ((qj ++ [getbit key j]) `prefix_of` pbits key mask) as Hfirst.
    { rewrite <- Heq. unfold path.
      destruct (8 * length key - j) as [|k] eqn:Hk; [lia|].
      rewrite path_from_S, Hmj. by apply prefix_app, prefix_cons, prefix_nil. }
    split_and!.
    + rewrite <- Heq. by apply prefix_app_r.
    + rewrite <- Heq, length_app. lia.
    + congruence.
    + intros x Hx Hlt. apply (tree_at_prefix_None _ _ _ Hnone).
      destruct (prefix_weak_total _ _ _ Hfirst Hx) as [H1|H1]; [done|].
      apply prefix_snoc_cases in H1 as [H1| ->]; [|done].
      apply prefix_length in H1. lia.
    + done.
    + intros Hk. cbn. by apply Hpool1.
    + intros x l0 Hx. rewrite Htree'. by apply Hmono.
    + intros i l0 Hi Hfl. rewrite Htree', <- Heq.
      rewrite take_app_ge by lia.
      replace (S (length qj + i) - length qj) with (S i) by lia.
      by apply Hith.
    + intros m Hm. destruct (Hlost1 m Hm) as (Hmt & Hmf & Hmb & Hmp).
      split_and!; try done. intros x. rewrite Htree'. apply Hmt.
Qed.


Lemma delete_clear_tree s fl (key mask : bytes) a :
  wf s fl → length key = length mask → key ≠ [] →
  view s (pbits key mask) = Some (Some a) →
  ¬ childless (view s) (pbits key mask) →
  ∃ s', delete s key mask false = Ret (None, s') ∧
    ∀ x, tree_at s' x = tree_at s x.
Proof.
  intros Hwf HL Hkey Hv Hch.
  apply view_Some_node in Hv as (l & n & Hl & Hn & Hval).
  unfold delete. rewrite HL, Nat.eqb_refl. cbn [negb]. rewrite <- HL.
  rewrite (delete_descend_root s fl) by done. rewrite Hl. cbn [obind load].
  rewrite Hn. cbn [obind negb andb].
  destruct (bool_decide (right n ≠ None) || bool_decide (left n ≠ None)) eqn:Hb.
  2:{ exfalso. apply Hch. by apply (childless_node s fl _ l n). }
  rewrite Hval, bool_decide_true by done. unfold store. rewrite Hn. cbn [obind].
  destruct (wf_set_value s fl _ l n None Hwf Hl Hn) as (_ & Htree' & _).
  eauto.
Qed.

(** A deletion pushes the nodes it unlinks on the free list and leaves
    the pool alone. *)
Lemma delete_take s fl (key mask : bytes) sub e s' :
  wf s fl → delete s key mask sub = Ret (e, s') →
  pool s' = pool s ∧
  ∃ chain,
    wf s' (chain ++ fl) ∧
    (∀ x l0, tree_at s' x = Some l0 → tree_at s x = Some l0) ∧
    (∀ m, m ∈ chain →
          ∃ x, x `prefix_of` pbits key mask ∧ tree_at s x = Some m ∧
               tree_at s' x = None) ∧
    (∀ m, lost s fl m → lost s' (chain ++ fl) m).
Proof.
  intros Hwf Hdel. destruct (delete_pool _ _ _ _ _ _ Hdel) as [Hpool _].
  split; [done|].
  assert (s' = s → ∃ chain,
    wf s' (chain ++ fl) ∧
    (∀ x l0, tree_at s' x = Some l0 → tree_at s x = Some l0) ∧
    (∀ m, m ∈ chain →
          ∃ x, x `prefix_of` pbits key mask ∧ tree_at s x = Some m ∧
               tree_at s' x = None) ∧
    (∀ m, lost s fl m → lost s' (chain ++ fl) m)) as Hsame.
  { intros ->. exists []. split_and!; try done. intros m Hm.
    by apply elem_of_nil in Hm. }
  destruct (delete_outcome s fl _ _ _ _ _ Hwf Hdel)
    as [(_ & _ & ?)|(HL & Hkey & [(_ & _ & ?)|[(_ & _ & _ & _ & ?)
        |[(-> & [a Ha] & Hch & -> & Hwf' & _)
         |(_ & _ & _ & _ & c0 & chain & Hwf' & _ & Hpre & _ & Htree & _ & _
           & Hchain & _)]]])]; auto.
  - destruct (delete_clear_tree s fl key mask a Hwf HL Hkey Ha Hch)
      as (s1 & Heq & Htree).
    rewrite Heq in Hdel. injection Hdel as <-.
    exists []. split_and!; try done.
    + intros x l0. by rewrite Htree.
    + intros m Hm. by apply elem_of_nil in Hm.
    + intros m (Hmt & Hmf & Hmb & Hmp). unfold lost. rewrite Hpool.
      split_and!; try done.
      intros x. rewrite Htree. apply Hmt.
  - exists chain. split_and!; try done.
    + intros x l0. rewrite Htree. by case_decide.
    + intros m Hm. apply Hchain in Hm as (x & H1 & H2 & Hx).
      exists x. split; [done|]. split; [done|].
      rewrite Htree. by rewrite decide_True.
    + intros m (Hmt & Hmf & Hmb & Hmp). unfold lost. rewrite Hpool.
      split_and!; try done.
      * intros x. rewrite Htree. case_decide; [done|apply Hmt].
      * intros Hin. apply elem_of_app in Hin as [Hin|Hin]; [|done].
        apply Hchain in Hin as (x & _ & _ & Hx). by apply (Hmt x).
Qed.

Lemma exec_lost o s fl e s' m :
  wf s fl → lost s fl m → exec o s = Ret (e, s') →
  ∃ fl', wf s' fl' ∧ lost s' fl' m.
Proof.
  intros Hwf Hm Hex.
  assert (∀ (c : IPNet) val ow,
    insert s (IP c) (Mask c) val ow = Ret (e, s') →
    ∃ fl', wf s' fl' ∧ lost s' fl' m) as Hins.
  { intros c val ow Hi. destruct e as [e|].
    - apply insert_error in Hi as [-> _]. by exists fl.
    - destruct (insert_take s fl _ _ _ _ _ Hwf Hi)
        as (k & q0 & _ & _ & _ & _ & Hwf' & _ & _ & _ & Hlost).
      exists (drop k fl). split; [done|by apply Hlost]. }
  assert (∀ (c : IPNet) sub,
    delete s (IP c) (Mask c) sub = Ret (e, s') →
    ∃ fl', wf s' fl' ∧ lost s' fl' m) as Hdel.
  { intros c sub Hd.
    destruct (delete_take s fl _ _ _ _ _ Hwf Hd)
      as (_ & chain & Hwf' & _ & _ & Hlost).
    exists (chain ++ fl). split; [done|by apply Hlost]. }
  destruct o as [c val|c val|c|c]; cbn [exec] in Hex; eauto.
Qed.

Lemma run_lost ops : ∀ s fl s' m,
  wf s fl → lost s fl m → run ops s = Ret s' →
  ∃ fl', wf s' fl' ∧ lost s' fl' m.
Proof.
  induction ops as [|o ops IH]; intros s fl s' m Hwf Hm Hrun.
  - cbn in Hrun. injection Hrun as <-. by exists fl.
  - cbn [run] in Hrun. destruct (exec o s) as [[e s1]|] eqn:Hex; [|done].
    cbn [obind] in Hrun.
    destruct (exec_lost o s fl e s1 m Hwf Hm Hex) as (fl1 & Hwf1 & Hm1).
    by apply (IH s1 fl1).
Qed.

(** X20. An insertion takes its new nodes from the free list before it
    touches the pool.  In every reachable state, an [insert] that succeeds
    creates one node for each bit of the prefix past the last node [q0]
    the path already has; the [i]-th of them is the [i]-th node of the
    free list, which loses them in that order; the nodes that were in the
    tree stay where they are; and the pool is the one before the call
    unless the free list ran out. *)
Theorem insert_reuses_freed_nodes s (key mask : bytes) (val : option V)
    (overwrite : bool) s' :
  reachable s → insert s key mask val overwrite = Ret (None, s') →
  ∃ fl k q0,
    flist (heap s) (free s) fl ∧ flist (heap s') (free s') (drop k fl) ∧
    q0 `prefix_of` pbits key mask ∧
    k + length q0 = length (pbits key mask) ∧
    tree_at s q0 ≠ None ∧
    (∀ x, x `prefix_of` pbits key mask → length q0 < length x →
          tree_at s x = None) ∧
    (∀ x l0, tree_at s x = Some l0 → tree_at s' x = Some l0) ∧
    (∀ i l0, i < k → fl !! i = Some l0 →
       tree_at s' (take (S (length q0 + i)) (pbits key mask)) = Some l0) ∧
    (k ≤ length fl → pool s' = pool s).
Proof.
  intros Hreach Hins. destruct (reachable_wf s Hreach) as [fl Hwf].
  destruct (insert_take s fl _ _ _ _ _ Hwf Hins)
    as (k & q0 & Hq0 & Hk & Hq0s & Hnew & Hwf' & Hpool & Hmono & Hith & _).
  exists fl, k, q0. split_and!; try done.
  - apply (wf_free _ _ Hwf).
  - apply (wf_free _ _ Hwf').
Qed.

(** X21. A deletion gives the nodes it unlinks back to the arena.  In every
    reachable state, [delete] leaves the pool as it is; the free list
    afterwards is the one before with the unlinked nodes pushed on it,
    each of them a node of the path of the prefix that is no longer in
    the tree; and every node still in the tree is where it was. *)
Theorem delete_releases_path s (key mask : bytes) (sub : bool) e s' :
  reachable s → delete s key mask sub = Ret (e, s') →
  pool s' = pool s ∧
  ∃ fl chain,
    flist (heap s) (free s) fl ∧ flist (heap s') (free s') (chain ++ fl) ∧
    (∀ m, m ∈ chain →
          ∃ x, x `prefix_of` pbits key mask ∧ tree_at s x = Some m ∧
               tree_at s' x = None) ∧
    (∀ x l0, tree_at s' x = Some l0 → tree_at s x = Some l0).
Proof.
  intros Hreach Hdel. destruct (reachable_wf s Hreach) as [fl Hwf].
  destruct (delete_take s fl _ _ _ _ _ Hwf Hdel)
    as (Hpool & chain & Hwf' & Hmono & Hchain & _).
  split; [done|]. exists fl, chain. split_and!; try done.
  - apply (wf_free _ _ Hwf).
  - apply (wf_free _ _ Hwf').
Qed.

(** X22. Deleting a prefix and inserting it again takes no slot of the
    pool: in every reachable state, after a [delete] that succeeded an
    [insert] of the same address and mask that succeeds leaves the pool as
    it was before the deletion. *)
Theorem delete_then_insert_keeps_pool s (key mask : bytes) (sub : bool)
    (val : option V) (overwrite : bool) s1 s2 :
  reachable s → delete s key mask sub = Ret (None, s1) →
  insert s1 key mask val overwrite = Ret (None, s2) →
  pool s2 = pool s.
Proof.
  intros Hreach Hdel Hins. destruct (reachable_wf s Hreach) as [fl Hwf].
  destruct (delete_pool _ _ _ _ _ _ Hdel) as [Hpool1 _].
  rewrite <- Hpool1.
  destruct (delete_outcome s fl _ _ _ _ _ Hwf Hdel)
    as [(_ & ? & _)|(HL & Hkey & [(_ & ? & _)|[(_ & _ & _ & ? & _)
        |[(_ & [a Ha] & Hch & _ & Hwf1 & Hview1)
         |(HP & Hv & _ & _ & c0 & chain & Hwf1 & Hc0 & Hpre & _ & Htree1 & _
           & _ & _ & Hlen)]]])]; try done.
  - (* the node is still there: nothing is created *)
    destruct (insert_take s1 fl _ _ _ _ _ Hwf1 Hins)
      as (k & q0 & Hq0 & Hk & _ & Hnew & _ & Hpool & _).
    apply Hpool.
    assert (tree_at s1 (pbits key mask) ≠ None) as HP1.
    { rewrite <- (view_None _ _ _ Hwf1), Hview1. unfold vclear.
      by rewrite decide_True. }
    destruct (decide (length q0 < length (pbits key mask))) as [Hlt|Hge];
      [|lia].
    by destruct HP1; apply Hnew.
  - (* the nodes that the deletion released are enough *)
    destruct (insert_take s1 (chain ++ fl) _ _ _ _ _ Hwf1 Hins)
      as (k & q0 & Hq0 & Hk & _ & Hnew & _ & Hpool & _).
    apply Hpool. rewrite length_app.
    destruct c0 as [|bc c1 _] using rev_ind; [done|].
    assert (c1 `prefix_of` pbits key mask) as Hc1.
    { transitivity (c1 ++ [bc]); [by apply prefix_app_r|done]. }
    assert (tree_at s1 c1 ≠ None) as Hc1s.
    { rewrite Htree1. rewrite decide_False.
      - destruct (tree_at s (pbits key mask)) as [lP|] eqn:HlP.
        + destruct (tree_at_prefix_Some _ _ _ _ HlP Hc1) as [? ->]. done.
        + by apply (view_None _ _ _ Hwf) in HlP.
      - intros Hp. apply prefix_length in Hp. rewrite length_app in Hp.
        cbn in Hp. lia. }
    assert (length c1 ≤ length q0) as Hle.
    { destruct (decide (length q0 < length c1)) as [Hlt|]; [|lia].
      by destruct Hc1s; apply Hnew. }
    rewrite length_app in Hlen. change (length [bc]) with 1 in Hlen. lia.
Qed.

(** X23. The nodes below a prefix that [Sub] removes are lost to the arena.
    In every reachable state, after a [Sub] that succeeded, a node that
    was in the tree strictly below the prefix is not in the tree and not
    on the free list, and it stays so after every later sequence of
    calls: no later insertion gets it from [newNode]. *)
Theorem sub_loses_descendants s (c : IPNet) s1 q (m : loc)
    (ops : list (op V)) s2 :
  reachable s → Sub s c = Ret (None, s1) →
  pbits (IP c) (Mask c) `prefix_of` q → q ≠ pbits (IP c) (Mask c) →
  tree_at s q = Some m → run ops s1 = Ret s2 →
  (∀ x, tree_at s2 x ≠ Some m) ∧
  (∀ fl2, flist (heap s2) (free s2) fl2 → m ∉ fl2).
Proof.
  intros Hreach Hdel HPq Hne Hq Hrun.
  destruct (reachable_wf s Hreach) as [fl Hwf].
  destruct (delete_pool _ _ _ _ _ _ Hdel) as [Hpool1 _].
  assert (∃ fl1, wf s1 fl1 ∧ lost s1 fl1 m) as (fl1 & Hwf1 & Hlost1).
  { destruct (delete_outcome s fl _ _ _ _ _ Hwf Hdel)
      as [(_ & ? & _)|(HL & Hkey & [(_ & ? & _)|[(_ & _ & _ & ? & _)
          |[(? & _)
           |(_ & _ & _ & _ & c0 & chain & Hwf1 & _ & Hpre & _ & Htree1 & _
             & _ & Hchain & _)]]])]; try done.
    exists (chain ++ fl). split; [done|]. unfold lost. split_and!.
    - intros x. rewrite Htree1. case_decide as Hcx; [done|].
      intros Hx. rewrite (wf_inj _ _ Hwf _ _ _ Hx Hq) in Hcx.
      apply Hcx. by etrans.
    - intros Hin. apply elem_of_app in Hin as [Hin|Hin].
      + apply Hchain in Hin as (x & _ & HxP & Hx).
        rewrite (wf_inj _ _ Hwf _ _ _ Hx Hq) in HxP.
        apply Hne. by apply (anti_symm prefix).
      + by apply (wf_free_tree _ _ Hwf m q).
    - rewrite Hpool1. destruct m as [b i].
      apply (wf_blocks _ _ Hwf b i). by apply (wf_closed _ _ Hwf q).
    - rewrite Hpool1. intros i Hi ->.
      by apply (wf_pool_tree _ _ Hwf i q). }
  destruct (run_lost ops s1 fl1 s2 m Hwf1 Hlost1 Hrun)
    as (fl2 & Hwf2 & (Hmt & Hmf & _)).
  split; [done|]. intros fl2' Hfl2'.
  by rewrite (flist_inj _ _ _ _ Hfl2' (wf_free _ _ Hwf2)).
Qed.

(** X24. [newNode] never hands out a node that is in use.  In every state
    that satisfies the structural invariant (every reachable state, and
    the states between the iterations of an insertion) it returns; the
    node it returns is not in the tree, the tree is unchanged, and
    afterwards the node is not on the free list; with a free list that is
    not empty it is the head of the list and the pool is untouched. *)
Theorem newNode_fresh s fl :
  wf s fl →
  ∃ l s',
    newNode s = Ret (l, s') ∧
    (∀ q, tree_at s q ≠ Some l) ∧ (∀ q, tree_at s' q = tree_at s q) ∧
    root s' = root s ∧
    flist (heap s') (free s') (tail fl) ∧ (l ∉ tail fl) ∧
    (fl ≠ [] → head fl = Some l ∧ pool s' = pool s).
Proof.
  intros Hwf.
  destruct (newNode_take s fl Hwf)
    as (l & s' & Heq & Hwf' & Hdet & Hroot & Htree & Hhead & _).
  exists l, s'. split_and!; try done.
  - intros q. rewrite <- Htree. apply (det_tree _ _ _ Hdet).
  - apply (wf_free _ _ Hwf').
  - apply (det_free _ _ _ Hdet).
  - intros Hne. destruct (Hhead Hne) as [? ?]. done.
Qed.

End arena.

(** ** Locality *)

Section locality.
Context {V : Type}.
Implicit Types (s : IPSet V) (q x : list bool) (fl : list loc).
Implicit Types (v : list bool → option (option V)) (ov : option V).

(** The longest match on a path depends on the values along the path
    only. *)
Lemma lpm_ext_on v v' (Q : list bool) :
  (∀ x, x `prefix_of` Q → pick (v' x) None = pick (v x) None) →
  lpm v' Q = lpm v Q.
Proof.
  intros Hext.
  assert (∀ x a, x `prefix_of` Q → v' x = Some (Some a) ↔ v x = Some (Some a))
    as Hval.
  { intros x a Hx. specialize (Hext x Hx).
    destruct (v x) as [[?|]|], (v' x) as [[?|]|]; cbn in Hext;
      split; congruence. }
  pose proof (lpm_spec v Q) as Hs. pose proof (lpm_spec v' Q) as Hs'.
  destruct (lpm v Q) as [a|], (lpm v' Q) as [a'|]; try done.
  - destruct Hs as (x & Hx & Hvx & Hmax).
    destruct Hs' as (x' & Hx' & Hvx' & Hmax').
    assert (length x' ≤ length x) as H1.
    { apply (Hmax x' a' Hx'). by apply Hval. }
    assert (length x ≤ length x') as H2.
    { apply (Hmax' x a Hx). by apply Hval. }
    assert (x' = x) as -> by (apply (prefix_same_length _ _ Q); done || lia).
    apply Hval in Hvx'; [|done]. congruence.
  - destruct Hs as (x & Hx & Hvx & _). apply Hval in Hvx; [|done].
    by destruct (Hs' x a Hx).
  - destruct Hs' as (x' & Hx' & Hvx' & _). apply Hval in Hvx'; [|done].
    by destruct (Hs x' a' Hx').
Qed.

Lemma find_ext_on s fl s' fl' (key mask : bytes) :
  wf s fl → wf s' fl' →
  (∀ x, x `prefix_of` pbits key mask →
        pick (view s' x) None = pick (view s x) None) →
  is_blank (view s' (pbits key mask)) = is_blank (view s (pbits key mask)) →
  find s' key mask = find s key mask.
Proof.
  intros Hwf Hwf' Hext Hblank.
  destruct (decide (length key = length mask)) as [HL|HL].
  2:{ by rewrite !find_bad_ip. }
  destruct (decide (key = [])) as [->|Hkey].
  { destruct mask; [|done]. by rewrite (find_nil s fl), (find_nil s' fl'). }
  rewrite (find_spec s fl), (find_spec s' fl') by done.
  by rewrite Hblank, (lpm_ext_on (view s) (view s')).
Qed.

Lemma exec_local o s fl e s' (key mask : bytes) :
  wf s fl → exec o s = Ret (e, s') →
  ¬ pbits (IP (op_net o)) (Mask (op_net o)) `prefix_of` pbits key mask →
  ¬ pbits key mask `prefix_of` pbits (IP (op_net o)) (Mask (op_net o)) →
  find s' key mask = find s key mask.
Proof.
  intros Hwf Hex HPQ HQP.
  destruct (exec_wf o s fl e s' Hwf Hex) as [fl' Hwf'].
  set (P := pbits (IP (op_net o)) (Mask (op_net o))) in *.
  set (Q := pbits key mask) in *.
  assert (∀ x, x `prefix_of` Q → x ≠ P) as HxP.
  { intros x Hx ->. by apply HPQ. }
  assert (∀ val ow,
    insert s (IP (op_net o)) (Mask (op_net o)) val ow = Ret (e, s') →
    find s' key mask = find s key mask) as Hins.
  { intros val ow Hi.
    destruct (insert_outcome s fl _ _ _ _ _ _ Hwf Hi)
      as [(_ & _ & ->)|(_ & _ & [(_ & _ & _ & ->)|(_ & _ & fl1 & _ & Hview)])];
      try done.
    fold P in Hview. apply (find_ext_on s fl s' fl'); try done.
    - intros x Hx. rewrite Hview, pick_vinsert.
      by rewrite decide_False by (by apply HxP).
    - fold Q. rewrite Hview. unfold vinsert.
      rewrite decide_False by (by apply HxP). by rewrite decide_False. }
  assert (∀ sub,
    delete s (IP (op_net o)) (Mask (op_net o)) sub = Ret (e, s') →
    find s' key mask = find s key mask) as Hdel.
  { intros sub Hd.
    destruct (delete_outcome s fl _ _ _ _ _ Hwf Hd)
      as [(_ & _ & ->)|(_ & _ & [(_ & _ & ->)|[(_ & _ & _ & _ & ->)
          |[(_ & _ & _ & _ & _ & Hview)
           |(_ & _ & _ & _ & c0 & chain & _ & _ & Hpre & Hview & _ & _
             & Hbare & _)]]])]; try done.
    - fold P in Hview. apply (find_ext_on s fl s' fl'); try done.
      + intros x Hx. rewrite Hview, pick_vclear.
        by rewrite decide_False by (by apply HxP).
      + fold Q. rewrite Hview. unfold vclear.
        by rewrite decide_False by (by apply HxP).
    - fold P in Hview, Hpre, Hbare.
      assert (∀ x, x `prefix_of` Q → c0 `prefix_of` x →
        view s x = if decide (x `prefix_of` P) then Some None else None)
        as Hcut.
      { intros x Hx Hcx. apply (cut_holds_nothing s fl c0 P x); try done.
        intros HPx. apply HPQ. by etrans. }
      apply (find_ext_on s fl s' fl'); try done.
      + intros x Hx. rewrite Hview. unfold vcut.
        destruct (decide (c0 `prefix_of` x)) as [Hcx|]; [|done].
        rewrite (Hcut x Hx Hcx). by case_decide.
      + fold Q. rewrite Hview. unfold vcut.
        destruct (decide (c0 `prefix_of` Q)) as [Hcx|]; [|done].
        rewrite (Hcut Q (reflexivity Q) Hcx). by rewrite decide_False. }
  destruct o as [c val|c val|c|c]; cbn [exec op_net] in *; eauto.
Qed.

(** X25. A call changes the lookups of its own prefix only.  In every
    reachable state, after any call of Add, Set, Remove or Sub, a lookup
    whose prefix is neither a prefix nor an extension of the prefix of the
    call returns what it returned before; so does GetByIP of an address
    that the prefix of the call does not cover, unless all the bits of the
    address are a prefix of it. *)
Theorem calls_are_local (o : op V) s e s' :
  reachable s → exec o s = Ret (e, s') →
  (∀ key mask : bytes,
     ¬ pbits (IP (op_net o)) (Mask (op_net o)) `prefix_of` pbits key mask →
     ¬ pbits key mask `prefix_of` pbits (IP (op_net o)) (Mask (op_net o)) →
     find s' key mask = find s key mask) ∧
  (∀ ip : bytes,
     ¬ pbits (IP (op_net o)) (Mask (op_net o)) `prefix_of` addr_bits ip →
     ¬ addr_bits ip `prefix_of` pbits (IP (op_net o)) (Mask (op_net o)) →
     GetByIP s' ip = GetByIP s ip).
Proof.
  intros Hreach Hex. destruct (reachable_wf s Hreach) as [fl Hwf]. split.
  - intros key mask. by apply (exec_local o s fl e s').
  - intros ip H1 H2. unfold GetByIP.
    assert (∀ L, find s' ip (replicate L 255%Z) = find s ip (replicate L 255%Z))
      as Hfull.
    { intros L. destruct (decide (length ip = L)) as [<-|Hne].
      - apply (exec_local o s fl e s'); try done; by rewrite pbits_full.
      - rewrite !find_bad_ip; [done|by rewrite length_replicate..]. }
    destruct (length ip =? IPv4len); apply Hfull.
Qed.

End locality.

(** ** The further properties at concrete inputs *)

Lemma insert_sets_one_entry_witness :
  reachable (state_of []) ∧
  insert (state_of []) (IP net8) (Mask net8) (Some 1) false
    = Ret (None, state_of [OpAdd net8 (Some 1)]) ∧
  ∀ q, entry (state_of [OpAdd net8 (Some 1)]) q =
       if decide (q = pbits (IP net8) (Mask net8)) then Some 1
       else entry (state_of []) q.
Proof.
  assert (reachable (state_of [])) as H.
  { exists []. vm_compute. reflexivity. }
  assert (insert (state_of []) (IP net8) (Mask net8) (Some 1) false
          = Ret (None, state_of [OpAdd net8 (Some 1)])) as Hins.
  { vm_compute. reflexivity. }
  split; [exact H|]. split; [exact Hins|].
  exact (insert_sets_one_entry _ _ _ _ _ _ H Hins).
Defined.

Lemma remove_deletes_one_entry_witness :
  reachable (state_of [OpAdd net8 (Some 1); OpAdd net16 (Some 2)]) ∧
  Remove (state_of [OpAdd net8 (Some 1); OpAdd net16 (Some 2)]) net8
    = Ret (None, state_of [OpAdd net8 (Some 1); OpAdd net16 (Some 2);
                           OpRemove net8]) ∧
  ∀ q, entry (state_of [OpAdd net8 (Some 1); OpAdd net16 (Some 2);
                        OpRemove net8]) q =
       if decide (q = pbits (IP net8) (Mask net8)) then None
       else entry (state_of [OpAdd net8 (Some 1); OpAdd net16 (Some 2)]) q.
Proof.
  assert (reachable (state_of [OpAdd net8 (Some 1); OpAdd net16 (Some 2)]))
    as H.
  { exists [OpAdd net8 (Some 1); OpAdd net16 (Some 2)].
    vm_compute. reflexivity. }
  assert (Remove (state_of [OpAdd net8 (Some 1); OpAdd net16 (Some 2)]) net8
          = Ret (None, state_of [OpAdd net8 (Some 1); OpAdd net16 (Some 2);
                                 OpRemove net8])) as Hdel.
  { vm_compute. reflexivity. }
  split; [exact H|]. split; [exact Hdel|].
  exact (remove_deletes_one_entry _ _ _ H Hdel).
Defined.

Lemma sub_removes_subtree_witness :
  reachable (state_of [OpAdd net8 (Some 1); OpAdd net16 (Some 2)]) ∧
  Sub (state_of [OpAdd net8 (Some 1); OpAdd net16 (Some 2)]) net8
    = Ret (None, state_of [OpAdd net8 (Some 1); OpAdd net16 (Some 2);
                           OpSub net8]) ∧
  entry (state_of [OpAdd net8 (Some 1); OpAdd net16 (Some 2); OpSub net8])
        (pbits (IP net16) (Mask net16)) = None.
Proof.
  assert (reachable (state_of [OpAdd net8 (Some 1); OpAdd net16 (Some 2)]))
    as H.
  { exists [OpAdd net8 (Some 1); OpAdd net16 (Some 2)].
    vm_compute. reflexivity. }
  assert (Sub (state_of [OpAdd net8 (Some 1); OpAdd net16 (Some 2)]) net8
          = Ret (None, state_of [OpAdd net8 (Some 1); OpAdd net16 (Some 2);
                                 OpSub net8])) as Hdel.
  { vm_compute. reflexivity. }
  split; [exact H|]. split; [exact Hdel|].
  exact (proj2 (sub_removes_subtree _ _ _ H Hdel)
               (pbits (IP net16) (Mask net16))).
Defined.

Lemma delete_twice_not_found_witness :
  reachable (state_of [OpAdd net8 (Some 1)]) ∧
  delete (state_of [OpAdd net8 (Some 1)]) (IP net8) (Mask net8) false
    = Ret (None, state_of [OpAdd net8 (Some 1); OpRemove net8]) ∧
  delete (state_of [OpAdd net8 (Some 1); OpRemove net8])
         (IP net8) (Mask net8) false
    = Ret (Some ErrNotFound, state_of [OpAdd net8 (Some 1); OpRemove net8]).
Proof.
  assert (reachable (state_of [OpAdd net8 (Some 1)])) as H.
  { exists [OpAdd net8 (Some 1)]. vm_compute. reflexivity. }
  assert (delete (state_of [OpAdd net8 (Some 1)]) (IP net8) (Mask net8) false
          = Ret (None, state_of [OpAdd net8 (Some 1); OpRemove net8])) as Hdel.
  { vm_compute. reflexivity. }
  split; [exact H|]. split; [exact Hdel|].
  exact (delete_twice_not_found _ _ _ false false _ H Hdel
                                (or_intror eq_refl)).
Defined.

Lemma add_then_remove_restores_witness :
  Forall payload_present [OpAdd net16 (Some 2)] ∧
  run_new [OpAdd net16 (Some 2)] = Ret (state_of [OpAdd net16 (Some 2)]) ∧
  entry (state_of [OpAdd net16 (Some 2)]) (pbits (IP net8) (Mask net8))
    = None ∧
  ∃ s1 s2,
    Add (state_of [OpAdd net16 (Some 2)]) net8 (Some 1) = Ret (None, s1) ∧
    Remove s1 net8 = Ret (None, s2) ∧
    (∀ q, view s2 q = view (state_of [OpAdd net16 (Some 2)]) q) ∧
    (∀ key mask : list Z,
       find s2 key mask = find (state_of [OpAdd net16 (Some 2)]) key mask).
Proof.
  assert (Forall payload_present [OpAdd net16 (Some 2)]) as Hpay.
  { repeat constructor. }
  assert (run_new [OpAdd net16 (Some 2)]
          = Ret (state_of [OpAdd net16 (Some 2)])) as Hrun.
  { vm_compute. reflexivity. }
  assert (entry (state_of [OpAdd net16 (Some 2)])
                (pbits (IP net8) (Mask net8)) = None) as Hent.
  { vm_compute. reflexivity. }
  split; [exact Hpay|]. split; [exact Hrun|]. split; [exact Hent|].
  refine (add_then_remove_restores _ _ net8 1 Hpay Hrun _ _ _ Hent).
  - reflexivity.
  - discriminate.
  - vm_compute. discriminate.
Defined.

Lemma remove_then_add_restores_witness :
  reachable (state_of [OpAdd net8 (Some 1)]) ∧
  entry (state_of [OpAdd net8 (Some 1)]) (pbits (IP net8) (Mask net8))
    = Some 1 ∧
  Remove (state_of [OpAdd net8 (Some 1)]) net8
    = Ret (None, state_of [OpAdd net8 (Some 1); OpRemove net8]) ∧
  ∃ s2,
    Add (state_of [OpAdd net8 (Some 1); OpRemove net8]) net8 (Some 1)
      = Ret (None, s2) ∧
    (∀ q, view s2 q = view (state_of [OpAdd net8 (Some 1)]) q) ∧
    (∀ key mask : list Z,
       find s2 key mask = find (state_of [OpAdd net8 (Some 1)]) key mask).
Proof.
  assert (reachable (state_of [OpAdd net8 (Some 1)])) as H.
  { exists [OpAdd net8 (Some 1)]. vm_compute. reflexivity. }
  assert (entry (state_of [OpAdd net8 (Some 1)])
                (pbits (IP net8) (Mask net8)) = Some 1) as Hent.
  { vm_compute. reflexivity. }
  assert (Remove (state_of [OpAdd net8 (Some 1)]) net8
          = Ret (None, state_of [OpAdd net8 (Some 1); OpRemove net8])) as Hdel.
  { vm_compute. reflexivity. }
  split; [exact H|]. split; [exact Hent|]. split; [exact Hdel|].
  exact (remove_then_add_restores _ net8 1 _ H Hent Hdel).
Defined.

Lemma entries_follow_dictionary_witness :
  run_new [OpAdd net8 (Some 1); OpAdd net16 (Some 2); OpSub net8]
    = Ret (state_of [OpAdd net8 (Some 1); OpAdd net16 (Some 2); OpSub net8]) ∧
  ∀ q, entry (state_of [OpAdd net8 (Some 1); OpAdd net16 (Some 2);
                        OpSub net8]) q
       = dict [OpAdd net8 (Some 1); OpAdd net16 (Some 2); OpSub net8] !! q.
Proof.
  assert (run_new [OpAdd net8 (Some 1); OpAdd net16 (Some 2); OpSub net8]
          = Ret (state_of [OpAdd net8 (Some 1); OpAdd net16 (Some 2);
                           OpSub net8])) as Hrun.
  { vm_compute. reflexivity. }
  split; [exact Hrun|].
  exact (entries_follow_dictionary _ _ Hrun).
Defined.

Lemma lookup_after_any_calls_witness :
  Forall payload_present
    [OpAdd net8 (Some 1); OpAdd net16 (Some 2); OpRemove net16] ∧
  Forall (op_len 4)
    [OpAdd net8 (Some 1); OpAdd net16 (Some 2); OpRemove net16] ∧
  run_new [OpAdd net8 (Some 1); OpAdd net16 (Some 2); OpRemove net16]
    = Ret (state_of [OpAdd net8 (Some 1); OpAdd net16 (Some 2);
                     OpRemove net16]) ∧
  ∃ r, find (state_of [OpAdd net8 (Some 1); OpAdd net16 (Some 2);
                       OpRemove net16]) [10; 1; 5; 5]%Z MASK_32
         = Ret (r, None) ∧
       longest_match
         (dict [OpAdd net8 (Some 1); OpAdd net16 (Some 2); OpRemove net16])
         (pbits [10; 1; 5; 5]%Z MASK_32) r.
Proof.
  assert (Forall payload_present
    [OpAdd net8 (Some 1); OpAdd net16 (Some 2); OpRemove net16]) as Hpay.
  { repeat constructor. }
  assert (Forall (op_len 4)
    [OpAdd net8 (Some 1); OpAdd net16 (Some 2); OpRemove net16]) as Hlen.
  { repeat constructor. }
  assert (run_new [OpAdd net8 (Some 1); OpAdd net16 (Some 2); OpRemove net16]
    = Ret (state_of [OpAdd net8 (Some 1); OpAdd net16 (Some 2);
                     OpRemove net16])) as Hrun.
  { vm_compute. reflexivity. }
  split; [exact Hpay|]. split; [exact Hlen|]. split; [exact Hrun|].
  refine (proj1 (lookup_after_any_calls 4 _ _ [10; 1; 5; 5]%Z MASK_32
                   _ Hpay Hlen Hrun _ _)).
  - lia.
  - reflexivity.
  - reflexivity.
Defined.

Lemma failed_call_changes_nothing_witness :
  exec (OpAdd net8 (Some 2)) (state_of [OpAdd net8 (Some 1)])
    = Ret (Some ErrNodeBusy, state_of [OpAdd net8 (Some 1)]) ∧
  state_of [OpAdd net8 (Some 1)] = state_of [OpAdd net8 (Some 1)] ∧
  ((ErrNodeBusy = ErrBadIP ∧ length (IP net8) ≠ length (Mask net8)) ∨
   (ErrNodeBusy = ErrNodeBusy ∧ length (IP net8) = length (Mask net8))).
Proof.
  assert (exec (OpAdd net8 (Some 2)) (state_of [OpAdd net8 (Some 1)])
          = Ret (Some ErrNodeBusy, state_of [OpAdd net8 (Some 1)])) as Hex.
  { vm_compute. reflexivity. }
  split; [exact Hex|].
  exact (failed_call_changes_nothing _ _ _ _ Hex).
Defined.

Lemma insert_find_panic_only_on_empty_witness :
  reachable (state_of []) ∧
  insert (state_of []) [] [] (Some 1) false = Fault IndexOutOfRange ∧
  find (state_of []) [] [] = Fault IndexOutOfRange.
Proof.
  assert (reachable (state_of [])) as H.
  { exists []. vm_compute. reflexivity. }
  split; [exact H|].
  exact (proj1 (insert_find_panic_only_on_empty (state_of []) [] [] (Some 1)
                  false H) (conj eq_refl eq_refl)).
Defined.

Lemma delete_panics_exactly_witness :
  reachable (state_of [OpAdd default_route (Some 1)]) ∧
  delete (state_of [OpAdd default_route (Some 1)])
         (IP default_route) (Mask default_route) false = Fault NilDeref.
Proof.
  assert (reachable (state_of [OpAdd default_route (Some 1)])) as H.
  { exists [OpAdd default_route (Some 1)]. vm_compute. reflexivity. }
  split; [exact H|].
  refine (proj1 (proj2 (delete_panics_exactly _ (IP default_route)
                          (Mask default_route) false H)) _ _ _ _).
  - reflexivity.
  - discriminate.
  - vm_compute. reflexivity.
  - right. intros b. destruct b; vm_compute; reflexivity.
Defined.

Lemma safe_calls_return_witness :
  Forall safe_op [OpAdd net8 (Some 1); OpRemove net8] ∧
  ∃ s, run_new [OpAdd net8 (Some 1); OpRemove net8] = Ret s.
Proof.
  assert (Forall safe_op [OpAdd net8 (Some 1); OpRemove net8]) as Hsafe.
  { repeat constructor.
    - intros [? _]. discriminate.
    - intros [? _]. discriminate.
    - intros _. vm_compute. discriminate. }
  split; [exact Hsafe|].
  exact (safe_calls_return _ Hsafe).
Defined.

Lemma set_overwrites_witness :
  reachable (state_of [OpAdd net8 (Some 1)]) ∧
  ∃ s1, Set_ (state_of [OpAdd net8 (Some 1)]) net8 (Some 2) = Ret (None, s1) ∧
        Get s1 net8 = Ret (Some 2, None).
Proof.
  assert (reachable (state_of [OpAdd net8 (Some 1)])) as H.
  { exists [OpAdd net8 (Some 1)]. vm_compute. reflexivity. }
  split; [exact H|].
  refine (set_overwrites _ net8 2 H _ _).
  - reflexivity.
  - discriminate.
Defined.

Lemma same_bits_same_entry_witness :
  reachable (state_of []) ∧
  pbits (IP net8_v6) (Mask net8_v6) = pbits (IP net8) (Mask net8) ∧
  Add (state_of []) net8 (Some 1)
    = Ret (None, state_of [OpAdd net8 (Some 1)]) ∧
  Add (state_of [OpAdd net8 (Some 1)]) net8_v6 (Some 2)
    = Ret (Some ErrNodeBusy, state_of [OpAdd net8 (Some 1)]) ∧
  Get (state_of [OpAdd net8 (Some 1)]) net8_v6 = Ret (Some 1, None).
Proof.
  assert (reachable (state_of [])) as H.
  { exists []. vm_compute. reflexivity. }
  assert (pbits (IP net8_v6) (Mask net8_v6) = pbits (IP net8) (Mask net8))
    as Hbits.
  { vm_compute. reflexivity. }
  assert (Add (state_of []) net8 (Some 1)
          = Ret (None, state_of [OpAdd net8 (Some 1)])) as Hadd.
  { vm_compute. reflexivity. }
  split; [exact H|]. split; [exact Hbits|]. split; [exact Hadd|].
  assert (length (IP net8_v6) = length (Mask net8_v6)) as HL by reflexivity.
  assert (IP net8_v6 ≠ []) as Hk by discriminate.
  pose proof (same_bits_same_entry (state_of []) net8 net8_v6 1 (Some 2) _
                H HL Hk Hbits Hadd) as (Hbusy & Hget & _).
  exact (conj Hbusy Hget).
Defined.

Lemma find_deepest_value_witness :
  reachable (state_of [OpAdd net8 (Some 1); OpAdd net16 (Some 2)]) ∧
  ∃ r, find (state_of [OpAdd net8 (Some 1); OpAdd net16 (Some 2)])
            [10; 1; 5; 5]%Z [255; 0; 0; 0]%Z = Ret (r, None).
Proof.
  assert (reachable (state_of [OpAdd net8 (Some 1); OpAdd net16 (Some 2)]))
    as H.
  { exists [OpAdd net8 (Some 1); OpAdd net16 (Some 2)].
    vm_compute. reflexivity. }
  split; [exact H|].
  assert (length [10; 1; 5; 5]%Z = length [255; 0; 0; 0]%Z) as HL
    by reflexivity.
  assert ([10; 1; 5; 5]%Z ≠ []) as Hk by discriminate.
  destruct (find_deepest_value _ [10; 1; 5; 5]%Z [255; 0; 0; 0]%Z H HL Hk)
    as (r & Hr & _).
  exact (ex_intro _ r Hr).
Defined.

Lemma tree_shape_witness :
  reachable (state_of [OpAdd net8 (Some 1); OpRemove net8]) ∧
  ∃ r n, root (state_of [OpAdd net8 (Some 1); OpRemove net8]) = Some r ∧
         heap (state_of [OpAdd net8 (Some 1); OpRemove net8]) !! r = Some n ∧
         parent n = None.
Proof.
  assert (reachable (state_of [OpAdd net8 (Some 1); OpRemove net8])) as H.
  { exists [OpAdd net8 (Some 1); OpRemove net8]. vm_compute. reflexivity. }
  split; [exact H|].
  exact (proj1 (tree_shape _ H)).
Defined.

Lemma arena_shape_witness :
  reachable (state_of [OpAdd net8 (Some 1); OpRemove net8]) ∧
  ∃ fl,
    flist (heap (state_of [OpAdd net8 (Some 1); OpRemove net8]))
          (free (state_of [OpAdd net8 (Some 1); OpRemove net8])) fl ∧
    NoDup fl.
Proof.
  assert (reachable (state_of [OpAdd net8 (Some 1); OpRemove net8])) as H.
  { exists [OpAdd net8 (Some 1); OpRemove net8]. vm_compute. reflexivity. }
  split; [exact H|].
  destruct (arena_shape _ H) as (fl & Hfl & Hnd & _).
  exact (ex_intro _ fl (conj Hfl Hnd)).
Defined.

Lemma only_prefix_bits_matter_witness :
  (∀ d, d < 8 →
     getbit [255; 0; 0; 0]%Z d = true ∧ getbit [255; 0; 255; 0]%Z d = true ∧
     getbit [10; 0; 0; 0]%Z d = getbit [10; 1; 2; 3]%Z d) ∧
  (getbit [255; 0; 0; 0]%Z 8 = false ∧ getbit [255; 0; 255; 0]%Z 8 = false) ∧
  ∀ (val : option nat) overwrite,
    insert (state_of []) [10; 0; 0; 0]%Z [255; 0; 255; 0]%Z val overwrite =
    insert (state_of []) [10; 1; 2; 3]%Z [255; 0; 0; 0]%Z val overwrite.
Proof.
  assert (∀ d, d < 8 →
     getbit [255; 0; 0; 0]%Z d = true ∧ getbit [255; 0; 255; 0]%Z d = true ∧
     getbit [10; 0; 0; 0]%Z d = getbit [10; 1; 2; 3]%Z d) as Hbits.
  { intros d Hd.
    do 8 (destruct d as [|d]; [vm_compute; repeat split|]). lia. }
  assert (getbit [255; 0; 0; 0]%Z 8 = false ∧
          getbit [255; 0; 255; 0]%Z 8 = false) as Hend.
  { vm_compute. split; reflexivity. }
  split; [exact Hbits|]. split; [exact Hend|].
  refine (proj1 (only_prefix_bits_matter (state_of [])
                   [10; 1; 2; 3]%Z [255; 0; 0; 0]%Z
                   [10; 0; 0; 0]%Z [255; 0; 255; 0]%Z 8 _ _ _ _ Hbits
                   (λ _, Hend))).
  - reflexivity.
  - reflexivity.
  - reflexivity.
  - cbn. lia.
Defined.

Lemma insert_reuses_freed_nodes_witness :
  reachable (state_of [OpAdd net8 (Some 1); OpRemove net8]) ∧
  insert (state_of [OpAdd net8 (Some 1); OpRemove net8])
         (IP net8) (Mask net8) (Some 2) false
    = Ret (None, state_of [OpAdd net8 (Some 1); OpRemove net8;
                           OpAdd net8 (Some 2)]) ∧
  ∃ fl k q0,
    flist (heap (state_of [OpAdd net8 (Some 1); OpRemove net8]))
          (free (state_of [OpAdd net8 (Some 1); OpRemove net8])) fl ∧
    flist (heap (state_of [OpAdd net8 (Some 1); OpRemove net8;
                           OpAdd net8 (Some 2)]))
          (free (state_of [OpAdd net8 (Some 1); OpRemove net8;
                           OpAdd net8 (Some 2)])) (drop k fl) ∧
    q0 `prefix_of` pbits (IP net8) (Mask net8) ∧
    k + length q0 = length (pbits (IP net8) (Mask net8)).
Proof.
  assert (reachable (state_of [OpAdd net8 (Some 1); OpRemove net8])) as H.
  { exists [OpAdd net8 (Some 1); OpRemove net8]. vm_compute. reflexivity. }
  assert (insert (state_of [OpAdd net8 (Some 1); OpRemove net8])
                 (IP net8) (Mask net8) (Some 2) false
          = Ret (None, state_of [OpAdd net8 (Some 1); OpRemove net8;
                                 OpAdd net8 (Some 2)])) as Hins.
  { vm_compute. reflexivity. }
  split; [exact H|]. split; [exact Hins|].
  destruct (insert_reuses_freed_nodes _ _ _ _ _ _ H Hins)
    as (fl & k & q0 & H1 & H2 & H3 & H4 & _).
  exact (ex_intro _ fl (ex_intro _ k (ex_intro _ q0
           (conj H1 (conj H2 (conj H3 H4)))))).
Defined.

Lemma delete_releases_path_witness :
  reachable (state_of [OpAdd net8 (Some 1)]) ∧
  delete (state_of [OpAdd net8 (Some 1)]) (IP net8) (Mask net8) false
    = Ret (None, state_of [OpAdd net8 (Some 1); OpRemove net8]) ∧
  pool (state_of [OpAdd net8 (Some 1); OpRemove net8])
    = pool (state_of [OpAdd net8 (Some 1)]).
Proof.
  assert (reachable (state_of [OpAdd net8 (Some 1)])) as H.
  { exists [OpAdd net8 (Some 1)]. vm_compute. reflexivity. }
  assert (delete (state_of [OpAdd net8 (Some 1)]) (IP net8) (Mask net8) false
          = Ret (None, state_of [OpAdd net8 (Some 1); OpRemove net8])) as Hdel.
  { vm_compute. reflexivity. }
  split; [exact H|]. split; [exact Hdel|].
  exact (proj1 (delete_releases_path _ _ _ _ _ _ H Hdel)).
Defined.

Lemma delete_then_insert_keeps_pool_witness :
  reachable (state_of [OpAdd net8 (Some 1)]) ∧
  delete (state_of [OpAdd net8 (Some 1)]) (IP net8) (Mask net8) false
    = Ret (None, state_of [OpAdd net8 (Some 1); OpRemove net8]) ∧
  insert (state_of [OpAdd net8 (Some 1); OpRemove net8])
         (IP net8) (Mask net8) (Some 2) false
    = Ret (None, state_of [OpAdd net8 (Some 1); OpRemove net8;
                           OpAdd net8 (Some 2)]) ∧
  pool (state_of [OpAdd net8 (Some 1); OpRemove net8; OpAdd net8 (Some 2)])
    = pool (state_of [OpAdd net8 (Some 1)]).
Proof.
  assert (reachable (state_of [OpAdd net8 (Some 1)])) as H.
  { exists [OpAdd net8 (Some 1)]. vm_compute. reflexivity. }
  assert (delete (state_of [OpAdd net8 (Some 1)]) (IP net8) (Mask net8) false
          = Ret (None, state_of [OpAdd net8 (Some 1); OpRemove net8])) as Hdel.
  { vm_compute. reflexivity. }
  assert (insert (state_of [OpAdd net8 (Some 1); OpRemove net8])
                 (IP net8) (Mask net8) (Some 2) false
          = Ret (None, state_of [OpAdd net8 (Some 1); OpRemove net8;
                                 OpAdd net8 (Some 2)])) as Hins.
  { vm_compute. reflexivity. }
  split; [exact H|]. split; [exact Hdel|]. split; [exact Hins|].
  exact (delete_then_insert_keeps_pool _ _ _ _ _ _ _ _ H Hdel Hins).
Defined.

Lemma sub_loses_descendants_witness :
  reachable (state_of [OpAdd net16 (Some 2)]) ∧
  Sub (state_of [OpAdd net16 (Some 2)]) net8
    = Ret (None, state_of [OpAdd net16 (Some 2); OpSub net8]) ∧
  tree_at (state_of [OpAdd net16 (Some 2)]) (pbits (IP net16) (Mask net16))
    = Some (1, 16) ∧
  run [OpAdd net16 (Some 3)] (state_of [OpAdd net16 (Some 2); OpSub net8])
    = Ret (state_of [OpAdd net16 (Some 2); OpSub net8;
                     OpAdd net16 (Some 3)]) ∧
  ∀ x, tree_at (state_of [OpAdd net16 (Some 2); OpSub net8;
                          OpAdd net16 (Some 3)]) x ≠ Some (1, 16).
Proof.
  assert (reachable (state_of [OpAdd net16 (Some 2)])) as H.
  { exists [OpAdd net16 (Some 2)]. vm_compute. reflexivity. }
  assert (Sub (state_of [OpAdd net16 (Some 2)]) net8
          = Ret (None, state_of [OpAdd net16 (Some 2); OpSub net8])) as Hdel.
  { vm_compute. reflexivity. }
  assert (tree_at (state_of [OpAdd net16 (Some 2)])
                  (pbits (IP net16) (Mask net16)) = Some (1, 16)) as Hq.
  { vm_compute. reflexivity. }
  assert (run [OpAdd net16 (Some 3)]
              (state_of [OpAdd net16 (Some 2); OpSub net8])
          = Ret (state_of [OpAdd net16 (Some 2); OpSub net8;
                           OpAdd net16 (Some 3)])) as Hrun.
  { vm_compute. reflexivity. }
  split; [exact H|]. split; [exact Hdel|]. split; [exact Hq|].
  split; [exact Hrun|].
  refine (proj1 (sub_loses_descendants _ net8 _ _ _ _ _ H Hdel _ _ Hq Hrun)).
  - apply (bool_decide_unpack _). vm_compute. exact I.
  - vm_compute. discriminate.
Defined.

Lemma newNode_fresh_witness :
  ∃ fl,
    wf (state_of [OpAdd net8 (Some 1); OpRemove net8]) fl ∧
    ∃ l s',
      newNode (state_of [OpAdd net8 (Some 1); OpRemove net8]) = Ret (l, s') ∧
      ∀ q, tree_at (state_of [OpAdd net8 (Some 1); OpRemove net8]) q ≠ Some l.
Proof.
  assert (reachable (state_of [OpAdd net8 (Some 1); OpRemove net8])) as H.
  { exists [OpAdd net8 (Some 1); OpRemove net8]. vm_compute. reflexivity. }
  destruct (reachable_wf _ H) as [fl Hwf]. exists fl. split; [exact Hwf|].
  destruct (newNode_fresh _ _ Hwf) as (l & s' & Hnew & Hfresh & _).
  exact (ex_intro _ l (ex_intro _ s' (conj Hnew Hfresh))).
Defined.

Lemma calls_are_local_witness :
  reachable (state_of [OpAdd net8 (Some 1)]) ∧
  exec (OpAdd net16 (Some 2)) (state_of [OpAdd net8 (Some 1)])
    = Ret (None, state_of [OpAdd net8 (Some 1); OpAdd net16 (Some 2)]) ∧
  GetByIP (state_of [OpAdd net8 (Some 1); OpAdd net16 (Some 2)])
          [10; 2; 5; 5]%Z
    = GetByIP (state_of [OpAdd net8 (Some 1)]) [10; 2; 5; 5]%Z.
Proof.
  assert (reachable (state_of [OpAdd net8 (Some 1)])) as H.
  { exists [OpAdd net8 (Some 1)]. vm_compute. reflexivity. }
  assert (exec (OpAdd net16 (Some 2)) (state_of [OpAdd net8 (Some 1)])
    = Ret (None, state_of [OpAdd net8 (Some 1); OpAdd net16 (Some 2)]))
    as Hex.
  { vm_compute. reflexivity. }
  split; [exact H|]. split; [exact Hex|].
  refine (proj2 (calls_are_local _ _ _ _ H Hex) [10; 2; 5; 5]%Z _ _).
  - apply (bool_decide_unpack _). vm_compute. exact I.
  - apply (bool_decide_unpack _). vm_compute. exact I.
Defined.
